(** * CADET: stirred-tank unit operation and coordinate-list sparse matrix

    A shallow embedding of

      - [src/libcadet/linalg/SparseMatrix.hpp]   (class [SparseMatrix])
      - [src/libcadet/model/StirredTankModel.cpp] (class [CSTRModel])

    Conventions of the embedding.

    - The C++ code is generic over its scalar ([double], or the AD type
      [active], template arguments of [residualImpl]).  The embedding is
      generic in the same way: every numeric kernel is written over a class
      [Scalar] that only provides the operations the code uses.  Two
      instances are given: exact rationals ([Qc]), on which the algebraic
      statements are proved, and IEEE binary64 ([float], the kernel's
      primitive floats), on which concrete runs are replayed.  Structural
      statements (which entry is written, with which expression) are proved
      for every instance.
    - A buffer reached through a pointer ([double*], [std::vector]) is a
      [list]; reading or writing outside of it is undefined behaviour in
      C++ and is [None] here.  Every kernel therefore lives in the option
      monad, and the statements about a kernel give the value it returns.
    - [unsigned int] values are [N], and arithmetic on them is written with
      its wrap-around modulo [2^32] ([uadd], [umul], [usub]) wherever the
      code computes with them: the dimensions in [configure] and [numDofs],
      and indices such as [2 * _nComp + _strideBound] or [i + _nComp].
      Pointer arithmetic ([y + _nComp], then [c[i]]) does not wrap.
    - A loop whose index the body changes is written with fuel; running out
      of fuel is [None], and the statements say when the loop returns. *)

From Stdlib Require Import ZArith NArith QArith Qcanon Lia List.
From Stdlib Require Import PrimFloat.
From stdpp Require Import base option list numbers strings.

Set Default Proof Using "Type".

(** ** Scalars *)

Class Scalar (R : Type) : Type := {
  szero : R;                 (* the literal 0.0 *)
  sone  : R;                 (* the literal 1.0 *)
  stwo  : R;                 (* the literal 2.0 *)
  sadd  : R → R → R;
  ssub  : R → R → R;
  smul  : R → R → R;
  sdiv  : R → R → R;
  sopp  : R → R;
  seqb  : R → R → bool       (* operator== *)
}.

Declare Scope scalar_scope.
Delimit Scope scalar_scope with sc.
Infix "⊕" := sadd (at level 50, left associativity) : scalar_scope.
Infix "⊖" := ssub (at level 50, left associativity) : scalar_scope.
Infix "⊗" := smul (at level 40, left associativity) : scalar_scope.
Infix "⊘" := sdiv (at level 40, left associativity) : scalar_scope.
Open Scope scalar_scope.

Definition Qc_of_Z (z : Z) : Qc := Q2Qc (inject_Z z).

#[export] Instance Qc_Scalar : Scalar Qc := {|
  szero := Qc_of_Z 0;
  sone  := Qc_of_Z 1;
  stwo  := Qc_of_Z 2;
  sadd  := Qcplus;
  ssub  := Qcminus;
  smul  := Qcmult;
  sdiv  := Qcdiv;
  sopp  := Qcopp;
  seqb  := Qc_eq_bool
|}.

#[export] Instance float_Scalar : Scalar float := {|
  szero := 0%float;
  sone  := 1%float;
  stwo  := 2%float;
  sadd  := PrimFloat.add;
  ssub  := PrimFloat.sub;
  smul  := PrimFloat.mul;
  sdiv  := PrimFloat.div;
  sopp  := PrimFloat.opp;
  seqb  := PrimFloat.eqb
|}.

(** ** Buffers and counted loops *)

(** [a[i] = v] on a buffer of fixed size. *)
Definition wr {A : Type} (a : list A) (i : nat) (v : A) : option (list A) :=
  if decide (i < length a) then Some (<[i:=v]> a) else None.

(** [for (k = i; k < i + n; ++k) body(k)] over a state [St]. *)
Fixpoint for_loop {St : Type} (body : nat → St → option St) (i n : nat)
    (s : St) : option St :=
  match n with
  | O => Some s
  | S n' => s' ← body i s; for_loop body (S i) n' s'
  end.

(** A fold in the option monad: what a counted loop is when its body only
    looks at the [i]-th element of a list. *)
Fixpoint fold_opt {E St : Type} (f : E → St → option St) (l : list E) (s : St)
  : option St :=
  match l with
  | [] => Some s
  | e :: l' => s' ← f e s; fold_opt f l' s'
  end.

(** ** SparseMatrix.hpp *)

Module SparseMatrix.
Section SparseMatrix.
Context {R : Type} `{Scalar R}.

(** [_rows], [_cols] and [_values] are [std::vector]s of the capacity;
    only the first [_curIdx] slots are in use. *)
Record t : Type := mk {
  _rows   : list nat;
  _cols   : list nat;
  _values : list R;
  _curIdx : nat
}.

(** [SparseMatrix()] *)
Definition empty : t :=
  {| _rows := []; _cols := []; _values := []; _curIdx := 0 |}.

Definition clear (m : t) : t :=
  {| _rows := _rows m; _cols := _cols m; _values := _values m; _curIdx := 0 |}.

(** [clear()] then [resize(nnz)] of a vector value-initialises nnz slots. *)
Definition resize (nnz : nat) : t :=
  {| _rows := replicate nnz 0; _cols := replicate nnz 0;
     _values := replicate nnz szero; _curIdx := 0 |}.

Definition capacity (m : t) : nat := length (_rows m).
Definition numNonZero (m : t) : nat := _curIdx m.

(** [cadet_assert(_curIdx < _rows.size())] guards the three writes: with
    the capacity exhausted the call fails (the assertion, or the write
    past the end of the vectors). *)
Definition addElement (m : t) (row col : nat) (val : R) : option t :=
  if decide (_curIdx m < length (_rows m)) then
    rows' ← wr (_rows m) (_curIdx m) row;
    cols' ← wr (_cols m) (_curIdx m) col;
    values' ← wr (_values m) (_curIdx m) val;
    Some {| _rows := rows'; _cols := cols'; _values := values';
            _curIdx := S (_curIdx m) |}
  else None.

(** The scan of both [operator()]: the first index below [_curIdx] that
    holds [(row, col)]. *)
Fixpoint find_from (m : t) (row col : nat) (i n : nat) : option nat :=
  match n with
  | O => None
  | S n' =>
      if decide (_rows m !! i = Some row ∧ _cols m !! i = Some col)
      then Some i else find_from m row col (S i) n'
  end.

(** [operator()(row, col) const] *)
Definition get (m : t) (row col : nat) : option R :=
  match find_from m row col 0 (_curIdx m) with
  | Some i => _values m !! i
  | None => Some szero
  end.

(** [operator()(row, col)]: the slot of the element, appended with value
    [0.0] when the scan does not find it. *)
Definition at_ (m : t) (row col : nat) : option (t * nat) :=
  match find_from m row col 0 (_curIdx m) with
  | Some i => Some (m, i)
  | None => m' ← addElement m row col szero; Some (m', _curIdx m)
  end.

(** [out[_rows[i]] = alpha * _values[i] * x[_cols[i]] + beta * out[_rows[i]]] *)
Definition multiplyVector_body (m : t) (x : list R) (alpha beta : R)
    (i : nat) (out : list R) : option (list R) :=
  r ← _rows m !! i; c ← _cols m !! i; v ← _values m !! i;
  xc ← x !! c; o ← out !! r;
  wr out r (alpha ⊗ v ⊗ xc ⊕ beta ⊗ o).

Definition multiplyVector (m : t) (x : list R) (alpha beta : R)
    (out : list R) : option (list R) :=
  for_loop (multiplyVector_body m x alpha beta) 0 (_curIdx m) out.

(** [out[_rows[i]] += _values[i] * x[_cols[i]]] *)
Definition multiplyAdd_body (m : t) (x : list R)
    (i : nat) (out : list R) : option (list R) :=
  r ← _rows m !! i; c ← _cols m !! i; v ← _values m !! i;
  xc ← x !! c; o ← out !! r;
  wr out r (o ⊕ v ⊗ xc).

Definition multiplyAdd (m : t) (x : list R) (out : list R)
  : option (list R) :=
  for_loop (multiplyAdd_body m x) 0 (_curIdx m) out.

(** [out[_rows[i]] -= _values[i] * x[_cols[i]]] *)
Definition multiplySubtract_body (m : t) (x : list R)
    (i : nat) (out : list R) : option (list R) :=
  r ← _rows m !! i; c ← _cols m !! i; v ← _values m !! i;
  xc ← x !! c; o ← out !! r;
  wr out r (o ⊖ v ⊗ xc).

Definition multiplySubtract (m : t) (x : list R) (out : list R)
  : option (list R) :=
  for_loop (multiplySubtract_body m x) 0 (_curIdx m) out.

(** A sequence of [addElement] calls. *)
Fixpoint addElements (m : t) (es : list (nat * nat * R)) : option t :=
  match es with
  | [] => Some m
  | (r, c, v) :: es' => m' ← addElement m r c v; addElements m' es'
  end.

(** The stored triples, in insertion order. *)
Definition entries (m : t) : list (nat * nat * R) :=
  take (_curIdx m) (zip (zip (_rows m) (_cols m)) (_values m)).

(** Class invariant: three vectors of one size, [_curIdx] within it. *)
Definition wf (m : t) : Prop :=
  length (_cols m) = length (_rows m) ∧
  length (_values m) = length (_rows m) ∧
  _curIdx m ≤ length (_rows m).

End SparseMatrix.
Arguments t R : clear implicits.
End SparseMatrix.

(** ** SparseMatrix: the passes of the loops, and what the products are
    compared with *)

Section SparseMatrixSpec.
Context {R : Type} `{Scalar R}.

(** [x[c]], read as [0.0] outside of [x]. *)
Definition xval (x : list R) (c : nat) : R := default szero (x !! c).

(** One pass of [multiplyAdd] over a stored triple. *)
Definition madd_step (x : list R) (e : nat * nat * R) (out : list R)
  : option (list R) :=
  let '(r, c, v) := e in
  xc ← x !! c; o ← out !! r; wr out r (o ⊕ v ⊗ xc).

(** One pass of [multiplyVector] over a stored triple. *)
Definition mvec_step (x : list R) (alpha beta : R) (e : nat * nat * R)
    (out : list R) : option (list R) :=
  let '(r, c, v) := e in
  xc ← x !! c; o ← out !! r; wr out r (alpha ⊗ v ⊗ xc ⊕ beta ⊗ o).

(** The sum of [v * x[c]] over the stored triples [(r, c, v)] of row [r]. *)
Definition row_sum (es : list (nat * nat * R)) (x : list R) (r : nat) : R :=
  foldr (λ e acc, e.2 ⊗ xval x e.1.2 ⊕ acc) szero
        (filter (λ e, e.1.1 = r) es).

(** The same terms added onto [o] one after the other, in insertion order:
    the order in which the loop of [multiplyAdd] adds them. *)
Definition row_accumulate (es : list (nat * nat * R)) (x : list R) (r : nat)
    (o : R) : R :=
  foldl (λ acc e, acc ⊕ e.2 ⊗ xval x e.1.2) o (filter (λ e, e.1.1 = r) es).

(** The matrix [A] a coordinate list stands for: its [(r, c)] entry is the
    sum of all values stored at [(r, c)]. *)
Definition coeff (es : list (nat * nat * R)) (r c : nat) : R :=
  foldr (λ e acc, e.2 ⊕ acc) szero
        (filter (λ e, e.1.1 = r ∧ e.1.2 = c) es).

(** [(A x)[r]], the sum over the columns [c] of [A(r, c) * x[c]]. *)
Definition matvec (es : list (nat * nat * R)) (x : list R) (r : nat) : R :=
  foldr (λ c acc, coeff es r c ⊗ xval x c ⊕ acc) szero (seq 0 (length x)).

(** [alpha * A x + beta * y], entry by entry: what the documentation of
    [multiplyVector] announces. *)
Definition axpby (es : list (nat * nat * R)) (x : list R) (alpha beta : R)
    (y : list R) : list R :=
  imap (λ r yr, alpha ⊗ matvec es x r ⊕ beta ⊗ yr) y.

End SparseMatrixSpec.

(** ** [unsigned int] and the ways the model code fails *)

(** Arithmetic on [unsigned int] is arithmetic modulo [2^32]. *)
Definition u32 (n : N) : N := (n mod 2 ^ 32)%N.
Definition uadd (a b : N) : N := u32 (a + b).
Definition umul (a b : N) : N := u32 (a * b).
(** [a - b] for [a, b < 2^32]. *)
Definition usub (a b : N) : N := u32 (a + 2 ^ 32 - b).
(** Conversion of an [int] to [unsigned int]. *)
Definition u32_of_int (z : Z) : N := Z.to_N (z mod 2 ^ 32).

(** [a[i]] with an [unsigned int] index. *)
Definition rdN {A : Type} (a : list A) (i : N) : option A := a !! N.to_nat i.
Definition wrN {A : Type} (a : list A) (i : N) (v : A) : option (list A) :=
  wr a (N.to_nat i) v.

Inductive exception : Type :=
| InvalidParameterException (msg : string).

(** What a call of the configuration code comes to: it returns, it throws,
    or it runs into undefined behaviour. *)
Inductive outcome (A : Type) : Type :=
| Returns (a : A)
| Throws (e : exception)
| Undefined.
Arguments Returns {A} a.
Arguments Throws {A} e.
Arguments Undefined {A}.

#[export] Instance outcome_ret : MRet outcome := λ A a, Returns a.
#[export] Instance outcome_bind : MBind outcome := λ A B f o,
  match o with
  | Returns a => f a
  | Throws e => Throws e
  | Undefined => Undefined
  end.

(** An access outside of a buffer is undefined behaviour. *)
Definition defined {A : Type} (o : option A) : outcome A :=
  match o with Some a => Returns a | None => Undefined end.

(** ** Collaborators of [CSTRModel] that are not among the sources *)

Module DenseMatrix.
Section DenseMatrix.
Context {R : Type} `{Scalar R}.

(** Modelled from the spec: [linalg::DenseMatrix], the type of the Jacobian
    [_jac] and of its factorised copy [_jacFact] ("square matrix of size
    numPureDofs²", mutable, owned by one model).  Storage is row-major;
    [native(i, j)] is the entry of row [i] and column [j].  The LU
    factorisation and the triangular solves are not modelled: [linearSolve]
    takes them as parameters. *)
Record t : Type := mk { _rows : N; _cols : N; _data : list R }.

Definition empty : t := {| _rows := 0; _cols := 0; _data := [] |}.

Definition resize (rows cols : N) : t :=
  {| _rows := rows; _cols := cols;
     _data := replicate (N.to_nat (rows * cols)) szero |}.

Definition rows (a : t) : N := _rows a.
Definition columns (a : t) : N := _cols a.

Definition setAll (a : t) (v : R) : t :=
  {| _rows := _rows a; _cols := _cols a;
     _data := replicate (length (_data a)) v |}.

Definition inside (a : t) (i j : N) : bool :=
  ((i <? _rows a) && (j <? _cols a))%N.

(** Reading [native(i, j)]. *)
Definition native (a : t) (i j : N) : option R :=
  if inside a i j then rdN (_data a) (i * _cols a + j) else None.

(** [native(i, j) = v]. *)
Definition native_set (a : t) (i j : N) (v : R) : option t :=
  if inside a i j then
    d ← wrN (_data a) (i * _cols a + j) v;
    Some {| _rows := _rows a; _cols := _cols a; _data := d |}
  else None.

(** [dst.copyFrom(src)], for matrices of one size. *)
Definition copyFrom (dst src : t) : option t :=
  if ((_rows dst =? _rows src) && (_cols dst =? _cols src))%N
  then Some {| _rows := _rows dst; _cols := _cols dst; _data := _data src |}
  else None.

End DenseMatrix.
Arguments t R : clear implicits.
End DenseMatrix.

Section Collaborators.
Context {R : Type} `{Scalar R}.

(** Modelled from the spec: [IParameterProvider], the source of the
    configuration values (§6 of the spec: [NCOMP] an int, [NBOUND] an int
    array, [INIT_C] a double array, ...).  The getters are total: what a
    provider does when asked for a name it does not hold is not part of
    this code. *)
Record IParameterProvider : Type := {
  exists_        : string → bool;
  getInt         : string → Z;
  getIntArray    : string → list Z;
  getBool        : string → bool;
  getDouble      : string → R;
  getDoubleArray : string → list R;
  getString      : string → string
}.

(** Modelled from the spec: [IBindingModel], the capability set of the
    binding submodel (§6).  [y], [yDot] and [res] are the buffers the model
    hands over, with the offset at which the pointer it passes starts. *)
Record IBindingModel : Type := {
  bm_configure : IParameterProvider → bool;
  bm_reconfigure : IParameterProvider → bool;
  bm_hasAlgebraicEquations : bool;
  bm_consistentInitializationWorkspaceSize : N;
  bm_residual :
    R → N → R → list R → N → option (list R) → N → list R → N
    → option (list R);
  bm_analyticJacobian :
    R → N → list R → N → DenseMatrix.t R → N → option (DenseMatrix.t R);
  bm_jacobianAddDiscretized :
    R → DenseMatrix.t R → N → option (DenseMatrix.t R)
}.

(** Modelled from the spec: [IConfigHelper::createBindingModel], the "named
    variant factory (string key → instance)"; [None] is the null pointer it
    returns for a name it does not know. *)
Record IConfigHelper : Type := {
  createBindingModel : string → option IBindingModel
}.

End Collaborators.
Arguments IParameterProvider R : clear implicits.
Arguments IBindingModel R : clear implicits.
Arguments IConfigHelper R : clear implicits.

(** ** StirredTankModel.cpp: state, dimensions, configuration *)

Module CSTRModel.
Section CSTRModel.
Context {R : Type} `{Scalar R}.

(** The build-time switch of the same name. *)
Variable CADET_CHECK_ANALYTIC_JACOBIAN : bool.

(** The data members the code below reads or writes.  [_flowRateIn],
    [_flowRateOut], [_curFlowRateFilter] and [_porosity] are [active]
    values; the code uses their value part only. *)
Record t : Type := mk {
  _unitOpIdx : N;
  _nComp : N;
  _nBound : list N;
  _boundOffset : list N;
  _strideBound : N;
  _binding : option (IBindingModel R);
  _analyticJac : bool;
  _jac : DenseMatrix.t R;
  _jacFact : DenseMatrix.t R;
  _factorizeJac : bool;
  _consistentInitBuffer : option N;
  _flowRateIn : R;
  _flowRateOut : R;
  _curFlowRateFilter : R;
  _flowRateFilter : list R;
  _porosity : R
}.

(** [CSTRModel(unitOpIdx)] *)
Definition create (unitOpIdx : N) : t :=
  {| _unitOpIdx := unitOpIdx; _nComp := 0; _nBound := []; _boundOffset := [];
     _strideBound := 0; _binding := None; _analyticJac := true;
     _jac := DenseMatrix.empty; _jacFact := DenseMatrix.empty;
     _factorizeJac := false; _consistentInitBuffer := None;
     _flowRateIn := szero; _flowRateOut := szero;
     _curFlowRateFilter := szero; _flowRateFilter := []; _porosity := szero |}.

Definition set_factorizeJac (m : t) (b : bool) : t :=
  mk (_unitOpIdx m) (_nComp m) (_nBound m) (_boundOffset m) (_strideBound m)
     (_binding m) (_analyticJac m) (_jac m) (_jacFact m) b
     (_consistentInitBuffer m) (_flowRateIn m) (_flowRateOut m)
     (_curFlowRateFilter m) (_flowRateFilter m) (_porosity m).

Definition set_jac (m : t) (a : DenseMatrix.t R) : t :=
  mk (_unitOpIdx m) (_nComp m) (_nBound m) (_boundOffset m) (_strideBound m)
     (_binding m) (_analyticJac m) a (_jacFact m) (_factorizeJac m)
     (_consistentInitBuffer m) (_flowRateIn m) (_flowRateOut m)
     (_curFlowRateFilter m) (_flowRateFilter m) (_porosity m).

Definition set_jacFact (m : t) (a : DenseMatrix.t R) : t :=
  mk (_unitOpIdx m) (_nComp m) (_nBound m) (_boundOffset m) (_strideBound m)
     (_binding m) (_analyticJac m) (_jac m) a (_factorizeJac m)
     (_consistentInitBuffer m) (_flowRateIn m) (_flowRateOut m)
     (_curFlowRateFilter m) (_flowRateFilter m) (_porosity m).

Definition set_analyticJac (m : t) (b : bool) : t :=
  mk (_unitOpIdx m) (_nComp m) (_nBound m) (_boundOffset m) (_strideBound m)
     (_binding m) b (_jac m) (_jacFact m) (_factorizeJac m)
     (_consistentInitBuffer m) (_flowRateIn m) (_flowRateOut m)
     (_curFlowRateFilter m) (_flowRateFilter m) (_porosity m).

Definition set_binding (m : t) (b : option (IBindingModel R))
    (buffer : option N) : t :=
  mk (_unitOpIdx m) (_nComp m) (_nBound m) (_boundOffset m) (_strideBound m)
     b (_analyticJac m) (_jac m) (_jacFact m) (_factorizeJac m)
     buffer (_flowRateIn m) (_flowRateOut m)
     (_curFlowRateFilter m) (_flowRateFilter m) (_porosity m).

Definition set_curFlowRateFilter (m : t) (f : R) : t :=
  mk (_unitOpIdx m) (_nComp m) (_nBound m) (_boundOffset m) (_strideBound m)
     (_binding m) (_analyticJac m) (_jac m) (_jacFact m) (_factorizeJac m)
     (_consistentInitBuffer m) (_flowRateIn m) (_flowRateOut m)
     f (_flowRateFilter m) (_porosity m).

Definition set_section_parameters (m : t) (cur : R) (filter : list R)
    (porosity : R) : t :=
  mk (_unitOpIdx m) (_nComp m) (_nBound m) (_boundOffset m) (_strideBound m)
     (_binding m) (_analyticJac m) (_jac m) (_jacFact m) (_factorizeJac m)
     (_consistentInitBuffer m) (_flowRateIn m) (_flowRateOut m)
     cur filter porosity.

Definition set_discretization (m : t) (nComp : N) (nBound boundOffset : list N)
    (strideBound : N) (jac jacFact : DenseMatrix.t R) : t :=
  mk (_unitOpIdx m) nComp nBound boundOffset strideBound
     (_binding m) (_analyticJac m) jac jacFact (_factorizeJac m)
     (_consistentInitBuffer m) (_flowRateIn m) (_flowRateOut m)
     (_curFlowRateFilter m) (_flowRateFilter m) (_porosity m).

(** [return 2 *_nComp + _strideBound + 1;] *)
Definition numDofs (m : t) : N :=
  uadd (uadd (umul 2 (_nComp m)) (_strideBound m)) 1.

(** [return _nComp + _strideBound + 1;] *)
Definition numPureDofs (m : t) : N :=
  uadd (uadd (_nComp m) (_strideBound m)) 1.

Definition requiredADdirs (m : t) : N :=
  uadd (uadd (_nComp m) (_strideBound m)) 1.

Definition usesAD (m : t) : bool :=
  if CADET_CHECK_ANALYTIC_JACOBIAN then true else negb (_analyticJac m).

Definition setFlowRates (m : t) (flowIn flowOut : R) : t :=
  mk (_unitOpIdx m) (_nComp m) (_nBound m) (_boundOffset m) (_strideBound m)
     (_binding m) (_analyticJac m) (_jac m) (_jacFact m) (_factorizeJac m)
     (_consistentInitBuffer m) flowIn flowOut
     (_curFlowRateFilter m) (_flowRateFilter m) (_porosity m).

Definition useAnalyticJacobian (m : t) (analyticJac : bool) : t :=
  set_analyticJac m
    (if CADET_CHECK_ANALYTIC_JACOBIAN then false else analyticJac).

(** [reconfigure]: the flow-rate filter schedule (a scalar is a schedule of
    one value), the porosity, then the binding model.  The registry
    [_parameters] of parameter ids is not modelled. *)
Definition reconfigure (m : t) (pp : IParameterProvider R) : t * bool :=
  let filter :=
    if exists_ pp "FLOWRATE_FILTER" then getDoubleArray pp "FLOWRATE_FILTER"
    else [] in
  let porosity :=
    if exists_ pp "POROSITY" then getDouble pp "POROSITY" else sone in
  let m' := set_section_parameters m szero filter porosity in
  match _binding m' with
  | Some b =>
      if exists_ pp "adsorption" then (m', bm_reconfigure b pp) else (m', true)
  | None => (m', true)
  end.

(** The loop of [configure] that fills [_boundOffset]:
    [_boundOffset[i] = _boundOffset[i-1] + _nBound[i-1]] for [1 <= i < _nComp]. *)
Definition boundOffset_body (nBound : list N) (i : nat) (bo : list N)
  : option (list N) :=
  a ← bo !! (i - 1); b ← nBound !! (i - 1); wr bo i (uadd a b).

(** The first part of [configure]: component count, bound-state counts,
    offsets and their total.  [std::copy] moves the whole [NBOUND] array
    into the [_nComp] slots of [_nBound], and every slot is read afterwards:
    the array has to hold [_nComp] values.  [_boundOffset[0] = 0] needs a
    first slot. *)
Definition configure_discretization (pp : IParameterProvider R)
  : option (N * list N * list N * N) :=
  let nComp := u32_of_int (getInt pp "NCOMP") in
  nBound ← (if exists_ pp "NBOUND" then
              let nb := getIntArray pp "NBOUND" in
              if decide (length nb = N.to_nat nComp)
              then Some (u32_of_int <$> nb) else None
            else Some (replicate (N.to_nat nComp) 0%N));
  bo0 ← wr (replicate (N.to_nat nComp) 0%N) 0 0%N;
  bo ← for_loop (boundOffset_body nBound) 1 (N.to_nat nComp - 1) bo0;
  lastOffset ← rdN bo (usub nComp 1);
  lastBound ← rdN nBound (usub nComp 1);
  Some (nComp, nBound, bo, uadd lastOffset lastBound).

Definition configure (m : t) (pp : IParameterProvider R)
    (helper : IConfigHelper R) : outcome (t * bool) :=
  '(nComp, nBound, boundOffset, strideBound) ←
    defined (configure_discretization pp);
  let nVar := uadd (uadd nComp strideBound) 1 in
  let m1 := set_discretization m nComp nBound boundOffset strideBound
              (DenseMatrix.resize nVar nVar) (DenseMatrix.resize nVar nVar) in
  let analyticJac :=
    if CADET_CHECK_ANALYTIC_JACOBIAN then false
    else if exists_ pp "USE_ANALYTIC_JACOBIAN"
         then getBool pp "USE_ANALYTIC_JACOBIAN" else true in
  let m2 := useAnalyticJacobian m1 analyticJac in
  let m3 := (reconfigure m2 pp).1 in
  if exists_ pp "ADSORPTION_MODEL" then
    match createBindingModel helper (getString pp "ADSORPTION_MODEL") with
    | None =>
        Throws (InvalidParameterException
                  (String.append "Unknown binding model "
                                 (getString pp "ADSORPTION_MODEL")))
    | Some b =>
        let bindingConfSuccess := bm_configure b pp in
        let size :=
          if bm_hasAlgebraicEquations b
          then bm_consistentInitializationWorkspaceSize b else 0%N in
        let buffer :=
          if (0 <? size)%N then Some size else _consistentInitBuffer m3 in
        Returns (set_binding m3 (Some b) buffer, bindingConfSuccess)
    end
  else
    Returns (set_binding m3 (createBindingModel helper "NONE")
               (_consistentInitBuffer m3), true).

Definition notifyDiscontinuousSectionTransition (m : t) (secIdx : N)
  : option t :=
  if decide (1 < length (_flowRateFilter m)) then
    f ← rdN (_flowRateFilter m) secIdx; Some (set_curFlowRateFilter m f)
  else if decide (length (_flowRateFilter m) = 1) then
    f ← _flowRateFilter m !! 0; Some (set_curFlowRateFilter m f)
  else Some m.

(** [std::copy(src, src + n, dst + off)] *)
Definition copy_n (src : list R) (n : nat) (dst : list R) (off : nat)
  : option (list R) :=
  if decide (n ≤ length src ∧ off + n ≤ length dst)
  then Some (take off dst ++ take n src ++ drop (off + n) dst) else None.

(** [std::fill_n(dst + off, n, v)] *)
Definition fill_n (dst : list R) (off n : nat) (v : R) : option (list R) :=
  if decide (off + n ≤ length dst)
  then Some (take off dst ++ replicate n v ++ drop (off + n) dst) else None.

(** [applyInitialCondition(vecStateY, vecStateYdot)] *)
Definition applyInitialCondition_zero (m : t) (vecStateY vecStateYdot : list R)
  : option (list R * list R) :=
  y ← fill_n vecStateY 0 (N.to_nat (numDofs m)) szero;
  yDot ← fill_n vecStateYdot 0 (N.to_nat (numDofs m)) szero;
  Some (y, yDot).

(** [applyInitialCondition(paramProvider, vecStateY, vecStateYdot)] *)
Definition applyInitialCondition (m : t) (pp : IParameterProvider R)
    (vecStateY vecStateYdot : list R) : outcome (list R * list R) :=
  if exists_ pp "INIT_STATE" then
    let initState := getDoubleArray pp "INIT_STATE" in
    let n := N.to_nat (numDofs m) in
    y ← defined (copy_n initState n vecStateY 0);
    if decide (N.to_nat (umul 2 (numDofs m)) ≤ length initState) then
      yDot ← defined (copy_n (drop n initState) n vecStateYdot 0);
      Returns (y, yDot)
    else Returns (y, vecStateYdot)
  else
    let initC := getDoubleArray pp "INIT_C" in
    if decide (length initC < N.to_nat (_nComp m)) then
      Throws (InvalidParameterException
                "INIT_C does not contain enough values for all components")
    else
      y1 ← defined (copy_n initC (N.to_nat (_nComp m)) vecStateY
                      (N.to_nat (_nComp m)));
      y2 ← defined
        (if exists_ pp "INIT_Q"
         then copy_n (getDoubleArray pp "INIT_Q") (N.to_nat (_strideBound m))
                y1 (N.to_nat (umul 2 (_nComp m)))
         else fill_n y1 (N.to_nat (umul 2 (_nComp m)))
                (N.to_nat (_strideBound m)) szero);
      y3 ← defined
        (wrN y2 (uadd (umul 2 (_nComp m)) (_strideBound m))
           (if exists_ pp "INIT_VOLUME" then getDouble pp "INIT_VOLUME"
            else szero));
      Returns (y3, vecStateYdot).

(** *** Consistent initialisation *)

(** [consistentInitialState].  [c = vecStateY + _nComp], and the volume is
    read as [c[_nComp]]. *)
Definition consistentInitialState (m : t) (vecStateY : list R)
  : option (list R) :=
  v ← rdN vecStateY (_nComp m + _nComp m);
  if seqb v szero then
    let flowIn := _flowRateIn m in
    let flowOut := _flowRateOut m in
    let vDot := flowIn ⊖ flowOut ⊖ _curFlowRateFilter m in
    let denom := vDot ⊕ flowOut in
    if negb (seqb denom szero) then
      let factor := flowIn ⊘ denom in
      for_loop
        (λ i y, cin ← y !! i; wr y (N.to_nat (_nComp m) + i) (cin ⊗ factor))
        0 (N.to_nat (_nComp m)) vecStateY
    else Some vecStateY
  else Some vecStateY.

(** [leanConsistentInitialState] forwards to [consistentInitialState]. *)
Definition leanConsistentInitialState (m : t) (vecStateY : list R)
  : option (list R) :=
  consistentInitialState m vecStateY.

(** [consistentInitialTimeDerivative].  [cDot = vecStateYdot + _nComp]; the
    result is the new content of [vecStateYdot]. *)
Definition consistentInitialTimeDerivative (m : t)
    (vecStateY vecStateYdot : list R) : option (list R) :=
  let nC := N.to_nat (_nComp m) in
  v ← rdN vecStateY (_nComp m + _nComp m);
  let flowIn := _flowRateIn m in
  let flowOut := _flowRateOut m in
  let vDot := flowIn ⊖ flowOut ⊖ _curFlowRateFilter m in
  yd ← wrN vecStateYdot (_nComp m + _nComp m) vDot;
  if seqb v szero then
    let denom := stwo ⊗ vDot ⊕ flowOut in
    if seqb denom szero then fill_n yd nC nC szero
    else
      let factor := flowIn ⊘ denom in
      for_loop
        (λ i yd, yd' ← wr yd i szero;
                 cinDot ← yd' !! i;
                 wr yd' (nC + i) (cinDot ⊗ factor))
        0 nC yd
  else
    for_loop
      (λ i yd, cd ← yd !! (nC + i);
               ci ← vecStateY !! (nC + i);
               wr yd (nC + i) ((sopp cd ⊖ vDot ⊗ ci) ⊘ v))
      0 nC yd.

(** *** Residual *)

(** The loop over the bound states of one component, as written:
    [for (unsigned int j = 0; i < nBound; ++i) resC[i] += qDot[j];]
    It tests and advances the component index [i] and leaves [j] at [0].
    [qDot] is the index of [qDot[0]] in [yDot].  The result is the value of
    [i] at the exit together with the residual buffer.  [nBound - i] passes
    are enough for the exit test to fail. *)
Fixpoint sum_qDot_loop (fuel : nat) (m : t) (yDot : list R) (qDot nBound : N)
    (i : N) (res : list R) : option (N * list R) :=
  match fuel with
  | O => None
  | S fuel' =>
      if (i <? nBound)%N then
        a ← rdN res (_nComp m + i);
        q ← rdN yDot qDot;
        res' ← wrN res (_nComp m + i) (a ⊕ q);
        sum_qDot_loop fuel' m yDot qDot nBound (uadd i 1) res'
      else Some (i, res)
  end.

(** The loop over the components that fills [resC = res + _nComp].  The
    component index it continues with is the one the inner loop left.
    [fuel] bounds the number of exit tests: [_nComp + 1] of them are enough
    unless the index wraps around, in which case the loop of the source
    starts over and does not end. *)
Fixpoint tank_loop (fuel : nat) (m : t) (timeFactor : R) (y : list R)
    (yDot : option (list R)) (v vDot flowIn flowOut invBeta : R)
    (i : N) (res : list R) : option (list R) :=
  match fuel with
  | O => None
  | S fuel' =>
      if (i <? _nComp m)%N then
        res1 ← wrN res (_nComp m + i) szero;
        nBound ← rdN (_nBound m) i;
        '(i', res2) ←
          match yDot with
          | Some yd =>
              bo ← rdN (_boundOffset m) i;
              '(i2, r2) ← sum_qDot_loop (S (N.to_nat (nBound - i))) m yd
                             (_nComp m + _nComp m + bo) nBound i res1;
              cd ← rdN yd (_nComp m + i2);
              a ← rdN r2 (_nComp m + i2);
              ci ← rdN y (_nComp m + i2);
              r3 ← wrN r2 (_nComp m + i2)
                     (timeFactor ⊗ ((cd ⊕ invBeta ⊗ a) ⊗ v ⊕ vDot ⊗ ci));
              Some (i2, r3)
          | None => Some (i, res1)
          end;
        a ← rdN res2 (_nComp m + i');
        cin ← rdN y i';
        ci ← rdN y (_nComp m + i');
        res3 ← wrN res2 (_nComp m + i')
                 (a ⊕ (sopp flowIn ⊗ cin ⊕ flowOut ⊗ ci));
        tank_loop fuel' m timeFactor y yDot v vDot flowIn flowOut invBeta
          (uadd i' 1) res3
      else Some res
  end.

(** The tank-concentration block of [residualImpl] (the lines from
    [invBeta] to the end of the loop over the components). *)
Definition residual_tank_block (m : t) (timeFactor : R) (y : list R)
    (yDot : option (list R)) (v vDot : R) (res : list R) : option (list R) :=
  let invBeta := sone ⊘ _porosity m ⊖ sone in
  tank_loop (S (N.to_nat (_nComp m))) m timeFactor y yDot v vDot
    (_flowRateIn m) (_flowRateOut m) invBeta 0%N res.

(** The bound-state columns of row [i] of the analytic Jacobian, with the
    sum of the [qiDot[j]]. *)
Definition jac_bound_body (yd : list R) (qiDot localOffset : N) (row : N)
    (vDotInvBeta : R) (j : nat) (st : DenseMatrix.t R * R)
  : option (DenseMatrix.t R * R) :=
  a ← DenseMatrix.native_set st.1 row (uadd localOffset (N.of_nat j))
        vDotInvBeta;
  q ← rdN yd (qiDot + N.of_nat j);
  Some (a, st.2 ⊕ q).

Definition jac_row_body (m : t) (yDot : option (list R))
    (vDot flowOut invBeta : R) (i : nat) (jac : DenseMatrix.t R)
  : option (DenseMatrix.t R) :=
  let iN := N.of_nat i in
  jac1 ← DenseMatrix.native_set jac iN iN (vDot ⊕ flowOut);
  bo ← rdN (_boundOffset m) iN;
  nBound ← rdN (_nBound m) iN;
  yd ← yDot;
  '(jac2, qSum) ← for_loop
      (jac_bound_body yd (_nComp m + _nComp m + bo) (uadd (_nComp m) bo) iN
         (vDot ⊗ invBeta))
      0 (N.to_nat nBound) (jac1, szero);
  cd ← rdN yd (_nComp m + iN);
  DenseMatrix.native_set jac2 iN (uadd (_nComp m) (_strideBound m))
    (cd ⊕ invBeta ⊗ qSum).

(** [residualImpl<double, double, double, wantJac>].  The reference [v] to
    [y[2 * _nComp + _strideBound]] is read once, at the start: [y] is not
    written by the function. *)
Definition residualImpl (wantJac : bool) (m : t) (t : R) (secIdx : N)
    (timeFactor : R) (y : list R) (yDot : option (list R)) (res : list R)
  : option (CSTRModel.t * list R * Z) :=
  let idxV := uadd (umul 2 (_nComp m)) (_strideBound m) in
  v ← rdN y idxV;
  vDot ← match yDot with Some yd => rdN yd idxV | None => Some szero end;
  let flowIn := _flowRateIn m in
  let flowOut := _flowRateOut m in
  res1 ← for_loop (λ i r, cin ← y !! i; wr r i cin)
           0 (N.to_nat (_nComp m)) res;
  res2 ← residual_tank_block m timeFactor y yDot v vDot res1;
  b ← _binding m;
  res3 ← bm_residual b t secIdx timeFactor y (_nComp m) yDot (_nComp m)
           res2 (umul 2 (_nComp m));
  res4 ← wrN res3 idxV (vDot ⊖ flowIn ⊕ flowOut ⊕ _curFlowRateFilter m);
  if wantJac then
    let invBeta := sone ⊘ _porosity m ⊖ sone in
    jac1 ← for_loop (jac_row_body m yDot vDot flowOut invBeta)
             0 (N.to_nat (_nComp m)) (DenseMatrix.setAll (_jac m) szero);
    jac2 ← bm_analyticJacobian b t secIdx y (umul 2 (_nComp m)) jac1
             (_nComp m);
    Some (set_jac m jac2, res4, 0%Z)
  else Some (m, res4, 0%Z).

(** The instantiations of [residualImpl] at the AD scalar [active], with the
    extraction of the Jacobian from the AD residual ([AutoDiff.hpp] and the
    bodies of the functions of [AdUtils.hpp] are not among the sources):
    given the model, the arguments and the two flags they yield the
    Jacobian, the residual and the return code. *)
Variable residual_active :
  CSTRModel.t → R → N → R → list R → option (list R) → list R → bool → bool
  → option (DenseMatrix.t R * list R * Z).

Definition residual_via_active (m : t) (t : R) (secIdx : N) (timeFactor : R)
    (y : list R) (yDot : option (list R)) (res : list R)
    (updateJacobian paramSensitivity : bool)
  : option (CSTRModel.t * list R * Z) :=
  '(jac, res', ret) ← residual_active m t secIdx timeFactor y yDot res
                        updateJacobian paramSensitivity;
  Some (set_jac m jac, res', ret).

(** [residual(t, secIdx, timeFactor, y, yDot, res, adRes, adY, adDirOffset,
    updateJacobian, paramSensitivity)] *)
Definition residual (m : t) (t : R) (secIdx : N) (timeFactor : R)
    (y : list R) (yDot : option (list R)) (res : list R)
    (updateJacobian paramSensitivity : bool)
  : option (CSTRModel.t * list R * Z) :=
  if updateJacobian then
    let m1 := set_factorizeJac m true in
    if CADET_CHECK_ANALYTIC_JACOBIAN then
      residual_via_active m1 t secIdx timeFactor y yDot res true
        paramSensitivity
    else if _analyticJac m1 then
      if paramSensitivity then
        residual_via_active m1 t secIdx timeFactor y yDot res true true
      else residualImpl true m1 t secIdx timeFactor y yDot res
    else
      residual_via_active m1 t secIdx timeFactor y yDot res true
        paramSensitivity
  else if paramSensitivity then
    residual_via_active m t secIdx timeFactor y yDot res false true
  else residualImpl false m t secIdx timeFactor y yDot res.

(** *** Linear solve *)

Definition tdjac_bound_body (y : list R) (qi localOffset : N) (row : N)
    (vInvBeta : R) (j : nat) (st : DenseMatrix.t R * R)
  : option (DenseMatrix.t R * R) :=
  a ← DenseMatrix.native_set st.1 row (uadd localOffset (N.of_nat j)) vInvBeta;
  q ← rdN y (qi + N.of_nat j);
  Some (a, st.2 ⊕ q).

Definition tdjac_row_body (m : t) (timeFactor : R) (y : list R)
    (invBeta vInvBeta timeV : R) (i : nat) (mat : DenseMatrix.t R)
  : option (DenseMatrix.t R) :=
  let iN := N.of_nat i in
  mat1 ← DenseMatrix.native_set mat iN iN timeV;
  bo ← rdN (_boundOffset m) iN;
  nBound ← rdN (_nBound m) iN;
  '(mat2, qSum) ← for_loop
      (tdjac_bound_body y (umul 2 (_nComp m) + bo) (uadd (_nComp m) bo) iN
         vInvBeta)
      0 (N.to_nat nBound) (mat1, szero);
  ci ← rdN y (_nComp m + iN);
  DenseMatrix.native_set mat2 iN (uadd (_nComp m) (_strideBound m))
    (timeFactor ⊗ (ci ⊕ invBeta ⊗ qSum)).

(** [addTimeDerivativeJacobian(t, timeFactor, y, yDot, mat)]: the entries of
    [dRes / dyDot] are assigned to [mat]. *)
Definition addTimeDerivativeJacobian (m : t) (t timeFactor : R) (y : list R)
    (mat : DenseMatrix.t R) : option (DenseMatrix.t R) :=
  let last := uadd (_nComp m) (_strideBound m) in
  v ← rdN y (uadd (umul 2 (_nComp m)) (_strideBound m));
  let invBeta := sone ⊘ _porosity m ⊖ sone in
  let vInvBeta := timeFactor ⊗ v ⊗ invBeta in
  let timeV := timeFactor ⊗ v in
  mat1 ← for_loop (tdjac_row_body m timeFactor y invBeta vInvBeta timeV)
           0 (N.to_nat (_nComp m)) mat;
  b ← _binding m;
  mat2 ← bm_jacobianAddDiscretized b timeFactor mat1 (_nComp m);
  DenseMatrix.native_set mat2 last last timeFactor.

(** [DenseMatrix::factorize] and [DenseMatrix::solve]: the factorised matrix
    or the solution, and whether the call succeeded. *)
Variable factorize : DenseMatrix.t R → DenseMatrix.t R * bool.
Variable solve : DenseMatrix.t R → list R → list R * bool.

(** The calls into the dense linear algebra, with their arguments. *)
Inductive linalg_call : Type :=
| Factorize (a : DenseMatrix.t R)
| Solve (a : DenseMatrix.t R) (rhs : list R).

(** [rhs[i + _nComp] += flowIn * rhs[i]] for every component. *)
Definition backsubstitute_body (m : t) (i : nat) (rhs : list R)
  : option (list R) :=
  let k := uadd (N.of_nat i) (_nComp m) in
  a ← rdN rhs k; b ← rhs !! i; wrN rhs k (a ⊕ _flowRateIn m ⊗ b).

Definition backsubstitute (m : t) (rhs : list R) : option (list R) :=
  for_loop (backsubstitute_body m) 0 (N.to_nat (_nComp m)) rhs.

(** [linearSolve]: the model afterwards, the content of [rhs], the return
    code, and the calls made to [factorize] and [solve], in order.  The
    arguments [weight], [yDot] and [res] are not used by the function and
    are left out. *)
Definition linearSolve (m : t) (t timeFactor alpha tol : R) (rhs : list R)
    (y : list R)
  : option (CSTRModel.t * list R * Z * list linalg_call) :=
  let nC := N.to_nat (_nComp m) in
  rhs1 ← backsubstitute m rhs;
  '(m1, success, calls) ←
    (if _factorizeJac m then
       jacFact ← DenseMatrix.copyFrom (_jacFact m) (_jac m);
       jac ← addTimeDerivativeJacobian m t timeFactor y (_jac m);
       let '(lu, ok) := factorize jacFact in
       Some (set_jac (set_jacFact (set_factorizeJac m false) lu) jac,
             ok, [Factorize jacFact])
     else Some (m, true, []));
  if (success : bool) then
    let '(x, ok) := solve (_jacFact m1) (drop nC rhs1) in
    Some (m1, take nC rhs1 ++ x, if (ok : bool) then 0%Z else 1%Z,
          calls ++ [Solve (_jacFact m1) (drop nC rhs1)])
  else Some (m1, rhs1, 1%Z, calls).

End CSTRModel.
Arguments t R : clear implicits.
End CSTRModel.

(** ** What the claims about the model are stated with *)

(** The total of a list of bound-state counts. *)
Definition sumN (l : list N) : N := foldr N.add 0%N l.

(** What the loop over [_boundOffset] has established before pass [k]. *)
Definition offsets_upto (n : nat) (nb : list N) (k : nat) (bo : list N) : Prop :=
  length bo = n ∧ ∀ i, i < k → bo !! i = Some (u32 (sumN (take i nb))).

(** The two exceptions of the configuration code. *)
Definition unknown_binding_model {R : Type} (pp : IParameterProvider R)
  : exception :=
  InvalidParameterException
    (String.append "Unknown binding model " (getString pp "ADSORPTION_MODEL")).

Definition init_c_too_short : exception :=
  InvalidParameterException
    "INIT_C does not contain enough values for all components".

(** ** Concrete collaborators, for the runs *)

Section Concrete.
Context {R : Type} `{Scalar R}.

Fixpoint assoc {A : Type} (name : string) (l : list (string * A)) : option A :=
  match l with
  | [] => None
  | (k, a) :: l' => if String.eqb name k then Some a else assoc name l'
  end.

Definition holds {A : Type} (name : string) (l : list (string * A)) : bool :=
  match assoc name l with Some _ => true | None => false end.

(** A parameter provider that holds the listed values. *)
Definition provider (ints : list (string * Z))
    (intArrays : list (string * list Z)) (bools : list (string * bool))
    (doubles : list (string * R)) (doubleArrays : list (string * list R))
    (strings : list (string * string)) : IParameterProvider R :=
  {| exists_ name :=
       holds name ints || holds name intArrays || holds name bools
       || holds name doubles || holds name doubleArrays || holds name strings;
     getInt name := default 0%Z (assoc name ints);
     getIntArray name := default [] (assoc name intArrays);
     getBool name := default false (assoc name bools);
     getDouble name := default szero (assoc name doubles);
     getDoubleArray name := default [] (assoc name doubleArrays);
     getString name := default EmptyString (assoc name strings) |}.

(** A binding model without bound-state equations: it leaves the residual
    and the Jacobians as they are. *)
Definition idle_binding : IBindingModel R :=
  {| bm_configure _ := true;
     bm_reconfigure _ := true;
     bm_hasAlgebraicEquations := false;
     bm_consistentInitializationWorkspaceSize := 0%N;
     bm_residual _ _ _ _ _ _ _ res _ := Some res;
     bm_analyticJacobian _ _ _ _ jac _ := Some jac;
     bm_jacobianAddDiscretized _ mat _ := Some mat |}.

(** A factory that only knows the name ["NONE"]. *)
Definition none_helper : IConfigHelper R :=
  {| createBindingModel name :=
       if String.eqb name "NONE" then Some idle_binding else None |}.

(** The model [configure] leaves, in a build without
    [CADET_CHECK_ANALYTIC_JACOBIAN], with flow rates set afterwards. *)
Definition configured (pp : IParameterProvider R) (flowIn flowOut : R)
  : CSTRModel.t R :=
  match CSTRModel.configure false (CSTRModel.create 0) pp none_helper with
  | Returns (m, _) => CSTRModel.setFlowRates m flowIn flowOut
  | _ => CSTRModel.create 0
  end.

End Concrete.

(** ** Concrete configurations, on exact scalars *)

(** One component, no [NBOUND], no [ADSORPTION_MODEL]; the initial state is
    given in full by [INIT_STATE], and [INIT_C] is empty. *)
Definition pp_init_state : IParameterProvider Qc :=
  provider [("NCOMP", 1%Z)] [] [] []
    [("INIT_STATE", [Qc_of_Z 1; Qc_of_Z 2; Qc_of_Z 3]); ("INIT_C", [])] [].

(** One component, an adsorption model the factory does not know, and an
    empty [INIT_C] without [INIT_STATE]. *)
Definition pp_unknown_binding : IParameterProvider Qc :=
  provider [("NCOMP", 1%Z)] [] [] [] [("INIT_C", [])]
    [("ADSORPTION_MODEL", "NO_SUCH_MODEL")].

(** Two components with one and two bound states. *)
Definition pp_two_components : IParameterProvider Qc :=
  provider [("NCOMP", 2%Z)] [("NBOUND", [1%Z; 2%Z])] [] [] [] [].

(** One component without bound states. *)
Definition pp_tank : IParameterProvider Qc :=
  provider [("NCOMP", 1%Z)] [] [] [] [] [].

(** One component with one bound state, porosity 1/2. *)
Definition pp_tank_bound : IParameterProvider Qc :=
  provider [("NCOMP", 1%Z)] [("NBOUND", [1%Z])] []
    [("POROSITY", Q2Qc (Qmake 1 2))] [] [].

(** Two components, the second one with one bound state, porosity 1/2. *)
Definition pp_tank_second_bound : IParameterProvider Qc :=
  provider [("NCOMP", 2%Z)] [("NBOUND", [0%Z; 1%Z])] []
    [("POROSITY", Q2Qc (Qmake 1 2))] [] [].

(** The same configurations on binary64. *)
Definition pp_tank_binary64 : IParameterProvider float :=
  provider [("NCOMP", 1%Z)] [] [] [] [] [].

Definition pp_tank_bound_binary64 : IParameterProvider float :=
  provider [("NCOMP", 1%Z)] [("NBOUND", [1%Z])] []
    [("POROSITY", 0.5%float)] [] [].

(** ** What the claims about the kernels say *)

Section Claimed.
Context {R : Type} `{Scalar R}.
Import CSTRModel.

(** The position of the tank volume in the state vector
    ([inlet, tank concentrations, bound states, volume]). *)
Definition volume_index (m : CSTRModel.t R) : nat :=
  2 * N.to_nat (_nComp m) + N.to_nat (_strideBound m).

(** The state after consistent initialisation, in the words of the spec:
    with [V = 0] and [dV/dt + flowOut] nonzero every tank concentration is
    [c_in,i * flowIn / (dV/dt + flowOut)]; in every other case, and at every
    other position, the state is left as it is. *)
Definition claimed_consistentInitialState (m : CSTRModel.t R) (y : list R)
  : option (list R) :=
  let nC := N.to_nat (_nComp m) in
  v ← y !! volume_index m;
  let vDot := _flowRateIn m ⊖ _flowRateOut m ⊖ _curFlowRateFilter m in
  let denom := vDot ⊕ _flowRateOut m in
  if seqb v szero && negb (seqb denom szero) then
    Some (imap (λ k yk,
                  if (nC <=? k) && (k <? 2 * nC)
                  then default szero (y !! (k - nC)) ⊗ _flowRateIn m ⊘ denom
                  else yk) y)
  else Some y.

(** The time derivative of tank concentration [i] at [V = 0], in the words
    of the spec: [flowIn * dc_in,i/dt / (2*dV/dt + flowOut)] with the
    supplied inflow derivative, and zero when the denominator is zero. *)
Definition claimed_tank_derivative (m : CSTRModel.t R) (yDot : list R)
    (i : nat) : R :=
  let vDot := _flowRateIn m ⊖ _flowRateOut m ⊖ _curFlowRateFilter m in
  let denom := stwo ⊗ vDot ⊕ _flowRateOut m in
  if seqb denom szero then szero
  else _flowRateIn m ⊗ default szero (yDot !! i) ⊘ denom.

(** The sum of the [nBound[i]] bound-state time derivatives of component
    [i]; they start at [2*nComp + boundOffset[i]] in [yDot]. *)
Definition qDot_sum (m : CSTRModel.t R) (yDot : list R) (i : nat) : R :=
  let first := 2 * N.to_nat (_nComp m)
               + N.to_nat (default 0%N (_boundOffset m !! i)) in
  foldr (λ j acc, default szero (yDot !! (first + j)) ⊕ acc) szero
        (seq 0 (N.to_nat (default 0%N (_nBound m !! i)))).

(** The tank-concentration residual of component [i] with time derivatives
    supplied, in the words of the spec. *)
Definition claimed_tank_residual (m : CSTRModel.t R) (timeFactor : R)
    (y yDot : list R) (i : nat) : R :=
  let nC := N.to_nat (_nComp m) in
  let at_ (l : list R) (k : nat) := default szero (l !! k) in
  let invBeta := sone ⊘ _porosity m ⊖ sone in
  timeFactor ⊗ ((at_ yDot (nC + i) ⊕ invBeta ⊗ qDot_sum m yDot i)
                  ⊗ at_ y (volume_index m)
                ⊕ at_ yDot (volume_index m) ⊗ at_ y (nC + i))
  ⊖ _flowRateIn m ⊗ at_ y i ⊕ _flowRateOut m ⊗ at_ y (nC + i).

(** The stored state Jacobian plus the time-derivative contribution, entry
    by entry. *)
Definition combined_jacobian (m : CSTRModel.t R) (t timeFactor : R)
    (y : list R) : option (DenseMatrix.t R) :=
  d ← addTimeDerivativeJacobian m t timeFactor y
        (DenseMatrix.setAll (_jac m) szero);
  Some {| DenseMatrix._rows := DenseMatrix._rows (_jac m);
          DenseMatrix._cols := DenseMatrix._cols (_jac m);
          DenseMatrix._data :=
            zip_with sadd (DenseMatrix._data (_jac m)) (DenseMatrix._data d) |}.

End Claimed.

(** What the back-substitution loop of [linearSolve] has established before
    pass [k]: the tank entries of the components below [k] have received
    their increment, everything else is as in the incoming [rhs]. *)
Definition backsubstituted_upto {R : Type} `{Scalar R} (flowIn : R)
    (nC : nat) (rhs : list R) (k : nat) (r : list R) : Prop :=
  length r = length rhs ∧
  ∀ j, r !! j =
       if decide (nC ≤ j < nC + k)
       then a ← rhs !! j; b ← rhs !! (j - nC); Some (a ⊕ flowIn ⊗ b)
       else rhs !! j.

(** What the loop of [consistentInitialState] has established before pass
    [k]: the tank concentrations of the components below [k] are the inlet
    concentrations times [factor], everything else is as in [y]. *)
Definition initialised_upto {R : Type} `{Scalar R} (factor : R) (nC : nat)
    (y : list R) (k : nat) (r : list R) : Prop :=
  length r = length y ∧
  ∀ j, r !! j =
       if decide (nC ≤ j < nC + k)
       then cin ← y !! (j - nC); Some (cin ⊗ factor)
       else y !! j.

(** The value the tank block leaves in [resC[i]] when the loop over the
    bound states is not entered: the sum in the brackets is the [0.0] that
    [resC[i]] was set to. *)
Definition tank_value_unsummed {R : Type} `{Scalar R} (m : CSTRModel.t R)
    (timeFactor : R) (y yDot : list R) (v vDot : R) (i : nat) : R :=
  let nC := N.to_nat (CSTRModel._nComp m) in
  let invBeta := sone ⊘ CSTRModel._porosity m ⊖ sone in
  timeFactor ⊗ ((default szero (yDot !! (nC + i)) ⊕ invBeta ⊗ szero) ⊗ v
                ⊕ vDot ⊗ default szero (y !! (nC + i)))
  ⊕ (sopp (CSTRModel._flowRateIn m) ⊗ default szero (y !! i)
     ⊕ CSTRModel._flowRateOut m ⊗ default szero (y !! (nC + i))).

(** What the loop over the components has established when it tests
    component [i], in a model without bound states. *)
Definition tank_filled_upto {R : Type} `{Scalar R} (m : CSTRModel.t R)
    (timeFactor : R) (y yDot : list R) (v vDot : R) (res0 : list R)
    (i : nat) (res : list R) : Prop :=
  length res = length res0 ∧
  ∀ k, res !! k =
       if decide (N.to_nat (CSTRModel._nComp m) ≤ k
                  < N.to_nat (CSTRModel._nComp m) + i)
       then Some (tank_value_unsummed m timeFactor y yDot v vDot
                    (k - N.to_nat (CSTRModel._nComp m)))
       else res0 !! k.

(** What the loop of the zero-volume branch of
    [consistentInitialTimeDerivative] has established before pass [k]: for
    the components below [k] the inlet slot holds [0.0] and the tank slot
    [0.0 * factor]; everything else is as in [yd]. *)
Definition derivative_zeroed_upto {R : Type} `{Scalar R} (factor : R)
    (nC : nat) (yd : list R) (k : nat) (r : list R) : Prop :=
  length r = length yd ∧
  ∀ j, r !! j =
       if decide (j < k) then Some szero
       else if decide (nC ≤ j < nC + k) then Some (szero ⊗ factor)
       else yd !! j.

(** ** SparseMatrix: further operations *)

Section SparseMatrixMore.
Context {R : Type} `{Scalar R}.

(** One pass of [multiplySubtract] over a stored triple. *)
Definition msub_step (x : list R) (e : nat * nat * R) (out : list R)
  : option (list R) :=
  let '(r, c, v) := e in
  xc ← x !! c; o ← out !! r; wr out r (o ⊖ v ⊗ xc).

(** A pass that replaces [out[r]] by [g out[r] v x[c]]: the common shape of
    the three products. *)
Definition update_step (g : R → R → R → R) (x : list R) (e : nat * nat * R)
    (out : list R) : option (list R) :=
  let '(r, c, v) := e in
  xc ← x !! c; o ← out !! r; wr out r (g o v xc).

(** The first stored triple at position [(r, c)]: its slot and its value. *)
Definition first_stored (es : list (nat * nat * R)) (r c : nat)
  : option (nat * R) :=
  (λ p, (p.1, p.2.2)) <$> list_find (λ e, e.1 = (r, c)) es.

(** What [multiplyVector] leaves in [out[r]], starting from [o]: one
    assignment per triple of row [r], in insertion order. *)
Definition row_assign (es : list (nat * nat * R)) (x : list R)
    (alpha beta : R) (r : nat) (o : R) : R :=
  foldl (λ acc e, alpha ⊗ e.2 ⊗ xval x e.1.2 ⊕ beta ⊗ acc) o
        (filter (λ e, e.1.1 = r) es).

End SparseMatrixMore.

(** A matrix of capacity 3 after [addElement(0,0,2.0)] and
    [addElement(0,0,3.0)]. *)
Definition sm_duplicates : SparseMatrix.t Qc :=
  {| SparseMatrix._rows := [0; 0; 0]; SparseMatrix._cols := [0; 0; 0];
     SparseMatrix._values := [Qc_of_Z 2; Qc_of_Z 3; Qc_of_Z 0];
     SparseMatrix._curIdx := 2 |}.

(** What the loop of the nonzero-volume branch of
    [consistentInitialTimeDerivative] has established before pass [k]: the
    tank slots of the components below [k] hold
    [(-cDot[i] - vDot * c[i]) / v]; everything else is as in [yd]. *)
Definition derivative_solved_upto {R : Type} `{Scalar R} (v vDot : R)
    (nC : nat) (y yd : list R) (k : nat) (r : list R) : Prop :=
  length r = length yd ∧
  ∀ j, r !! j =
       if decide (nC ≤ j < nC + k)
       then cd ← yd !! j; ci ← y !! j; Some ((sopp cd ⊖ vDot ⊗ ci) ⊘ v)
       else yd !! j.

(** What the loop over the components has established when it tests
    component [i], without time derivatives ([yDot] is the null pointer):
    [resC] holds [0.0 + (-flowIn * c_in + flowOut * c)] for the components
    below [i]. *)
Definition tank_steady_upto {R : Type} `{Scalar R} (m : CSTRModel.t R)
    (y res0 : list R) (i : nat) (res : list R) : Prop :=
  let nC := N.to_nat (CSTRModel._nComp m) in
  length res = length res0 ∧
  ∀ k, res !! k =
       if decide (nC ≤ k < nC + i)
       then Some (szero ⊕ (sopp (CSTRModel._flowRateIn m)
                             ⊗ default szero (y !! (k - nC))
                           ⊕ CSTRModel._flowRateOut m
                             ⊗ default szero (y !! k)))
       else res0 !! k.

(** What the first loop of [residualImpl] has established before pass [k]:
    the inlet residuals below [k] are the inlet concentrations. *)
Definition inlet_copied_upto {R : Type} (y res0 : list R) (k : nat)
    (r : list R) : Prop :=
  length r = length res0 ∧
  ∀ j, r !! j = if decide (j < k) then y !! j else res0 !! j.

(** ** Dense matrices: storage, and the row passes of the Jacobians *)

(** The storage of a dense matrix holds [rows * cols] entries. *)
Definition dense_wf {R : Type} (a : DenseMatrix.t R) : Prop :=
  length (DenseMatrix._data a)
  = N.to_nat (DenseMatrix._rows a * DenseMatrix._cols a).

Section JacobianRows.
Context {R : Type} `{Scalar R}.
Import CSTRModel.

(** The bound states of every component lie inside the block of
    [_strideBound] bound states. *)
Definition bound_layout (m : CSTRModel.t R) : Prop :=
  ∀ i, i < N.to_nat (_nComp m) →
    ∃ bo nb, _boundOffset m !! i = Some bo ∧ _nBound m !! i = Some nb ∧
             (bo + nb ≤ _strideBound m)%N.

(** The pass over row [i] that the loops of [residualImpl] (with [wantJac])
    and of [addTimeDerivativeJacobian] have in common: the diagonal entry
    [diag], the entry [bv] in the column of every bound state of the
    component, with the sum [qSum] of the bound-state entries of [src] from
    [qBase + _boundOffset[i]] on, and [fin src[nComp + i] qSum] in the
    column of the volume. *)
Definition row_pass (m : CSTRModel.t R) (src : list R) (qBase : N)
    (diag bv : R) (fin : R → R → R) (i : nat) (a : DenseMatrix.t R)
  : option (DenseMatrix.t R) :=
  let iN := N.of_nat i in
  a1 ← DenseMatrix.native_set a iN iN diag;
  bo ← rdN (_boundOffset m) iN;
  nBound ← rdN (_nBound m) iN;
  '(a2, qSum) ← for_loop
      (jac_bound_body src (qBase + bo) (uadd (_nComp m) bo) iN bv)
      0 (N.to_nat nBound) (a1, szero);
  x ← rdN src (_nComp m + iN);
  DenseMatrix.native_set a2 iN (uadd (_nComp m) (_strideBound m))
    (fin x qSum).

(** The sum of the bound-state entries of component [i] in [src], added up
    from [0.0] in the order of the bound states. *)
Definition bound_sum (m : CSTRModel.t R) (src : list R) (qBase : N) (i : N)
  : R :=
  let bo := default 0%N (_boundOffset m !! N.to_nat i) in
  let nb := default 0%N (_nBound m !! N.to_nat i) in
  foldl sadd szero (take (N.to_nat nb) (drop (N.to_nat (qBase + bo)) src)).

(** Entry [(i, j)] of a matrix after the pass over row [i], where [old] is
    the entry before. *)
Definition row_entry (m : CSTRModel.t R) (src : list R) (qBase : N)
    (diag bv : R) (fin : R → R → R) (old : R) (i j : N) : R :=
  let bo := default 0%N (_boundOffset m !! N.to_nat i) in
  let nb := default 0%N (_nBound m !! N.to_nat i) in
  if (j =? _nComp m + _strideBound m)%N then
    fin (default szero (src !! N.to_nat (_nComp m + i)))
        (bound_sum m src qBase i)
  else if ((_nComp m + bo <=? j) && (j <? _nComp m + bo + nb))%N then bv
  else if (j =? i)%N then diag
  else old.

End JacobianRows.

(** The flow-rate filter in force after
    [notifyDiscontinuousSectionTransition(t, secIdx, ...)]: the value of the
    section when the schedule has more than one value, the one value of a
    schedule of one, and the value in force before when there is none. *)
Definition notified_filter {R : Type} (m : CSTRModel.t R) (secIdx : N) : R :=
  if decide (1 < length (CSTRModel._flowRateFilter m)) then
    default (CSTRModel._curFlowRateFilter m)
      (CSTRModel._flowRateFilter m !! N.to_nat secIdx)
  else
    default (CSTRModel._curFlowRateFilter m)
      (CSTRModel._flowRateFilter m !! 0).

(** What [multiplySubtract] leaves in [out[r]], starting from [o]: the
    terms of the triples of row [r] subtracted one after the other, in
    insertion order. *)
Definition row_subtract {R : Type} `{Scalar R} (es : list (nat * nat * R))
    (x : list R) (r : nat) (o : R) : R :=
  foldl (λ acc e, acc ⊖ e.2 ⊗ xval x e.1.2) o (filter (λ e, e.1.1 = r) es).

(** A binary64 matrix of capacity 2 after [addElement(0,0,1.0)] twice. *)
Definition sm_ones_binary64 : SparseMatrix.t float :=
  {| SparseMatrix._rows := [0; 0]; SparseMatrix._cols := [0; 0];
     SparseMatrix._values := [1%float; 1%float];
     SparseMatrix._curIdx := 2 |}.

(** * Properties *)

(** ** Buffers and loops *)

Lemma wr_Some {A} (a a' : list A) i v :
  wr a i v = Some a' → i < length a ∧ a' = <[i:=v]> a.
Proof. unfold wr. case_decide; naive_solver. Qed.

Lemma wr_lt {A} (a : list A) i v :
  i < length a → wr a i v = Some (<[i:=v]> a).
Proof. intros. unfold wr. by rewrite decide_True. Qed.

Lemma wr_length {A} (a a' : list A) i v :
  wr a i v = Some a' → length a' = length a.
Proof. intros [_ ->]%wr_Some. apply length_insert. Qed.

Lemma wr_lookup_ne {A} (a a' : list A) i j v :
  wr a i v = Some a' → i ≠ j → a' !! j = a !! j.
Proof. intros [_ ->]%wr_Some ?. by apply list_lookup_insert_ne. Qed.

Lemma wr_lookup_eq {A} (a a' : list A) i v :
  wr a i v = Some a' → a' !! i = Some v.
Proof. intros [? ->]%wr_Some. by apply list_lookup_insert_eq. Qed.

Lemma for_loop_fold_opt {E St} (f : E → St → option St)
    (body : nat → St → option St) (l : list E) (i0 : nat) (s : St) :
  (∀ k e s', l !! k = Some e → body (i0 + k) s' = f e s') →
  for_loop body i0 (length l) s = fold_opt f l s.
Proof.
  revert i0 s. induction l as [|e l IH]; intros i0 s Hb; [done|].
  simpl. rewrite <- (Hb 0 e s eq_refl), Nat.add_0_r.
  destruct (body i0 s) as [s1|]; [simpl|done].
  apply IH. intros k e' s' Hk.
  rewrite <- (Hb (S k) e' s' Hk). f_equal. lia.
Qed.

(** Invariants of counted loops. *)
Lemma for_loop_inv {St} (P : nat → St → Prop) (body : nat → St → option St)
    (i n : nat) (s : St) :
  P i s →
  (∀ k s0, i ≤ k < i + n → P k s0 → ∃ s1, body k s0 = Some s1 ∧ P (S k) s1) →
  ∃ s', for_loop body i n s = Some s' ∧ P (i + n) s'.
Proof.
  revert i s. induction n as [|n IH]; intros i s Hs Hstep.
  - exists s. by rewrite Nat.add_0_r.
  - destruct (Hstep i s) as (s1 & Hb & Hs1); [lia|done|].
    simpl. rewrite Hb. simpl.
    destruct (IH (S i) s1) as (s' & Hl & Hs'); [done| |].
    + intros k s0 Hk. apply Hstep. lia.
    + exists s'. split; [done|]. by replace (i + S n) with (S i + n) by lia.
Qed.

Lemma for_loop_Some_inv {St} (P : nat → St → Prop)
    (body : nat → St → option St) (i n : nat) (s s' : St) :
  P i s →
  (∀ k s0 s1, i ≤ k < i + n → P k s0 → body k s0 = Some s1 → P (S k) s1) →
  for_loop body i n s = Some s' → P (i + n) s'.
Proof.
  revert i s. induction n as [|n IH]; intros i s Hs Hstep Hl.
  - simpl in Hl. simplify_eq. by rewrite Nat.add_0_r.
  - simpl in Hl. destruct (body i s) as [s1|] eqn:Hb; [|done]. simpl in Hl.
    replace (i + S n) with (S i + n) by lia.
    apply (IH (S i) s1); [|intros k s0 s2 Hk; apply Hstep; lia|done].
    apply (Hstep i s s1); [lia|done..].
Qed.

(** ** SparseMatrix: the stored triples *)

Section SparseMatrixFacts.
Context {R : Type} `{Scalar R}.
Import SparseMatrix.
Implicit Types (m : SparseMatrix.t R) (x out : list R) (es : list (nat * nat * R)).

Lemma wf_resize nnz : wf (resize nnz).
Proof. unfold wf, resize; simpl. rewrite !length_replicate. lia. Qed.

Lemma entries_resize nnz : entries (resize nnz) = [].
Proof. done. Qed.

Lemma length_entries m : wf m → length (entries m) = _curIdx m.
Proof.
  intros (Hc & Hv & Hk). unfold entries.
  rewrite length_take, !length_zip. lia.
Qed.

Lemma lookup_entries m i r c v :
  entries m !! i = Some (r, c, v) ↔
  i < _curIdx m ∧ _rows m !! i = Some r ∧ _cols m !! i = Some c ∧
  _values m !! i = Some v.
Proof.
  unfold entries. rewrite lookup_take_Some. split.
  - intros [Hz Hi].
    apply lookup_zip_with_Some in Hz as ([r' c'] & v' & ? & Hrc & Hv).
    apply lookup_zip_with_Some in Hrc as (r'' & c'' & ? & ? & ?).
    by simplify_eq.
  - intros (Hi & Hr & Hc & Hv). split; [|done].
    apply lookup_zip_with_Some. exists (r, c), v. split_and!; [done| |done].
    apply lookup_zip_with_Some. by exists r, c.
Qed.

Lemma addElement_entries m r c v :
  wf m → _curIdx m < capacity m →
  ∃ m', addElement m r c v = Some m' ∧ wf m' ∧
        entries m' = entries m ++ [(r, c, v)] ∧ capacity m' = capacity m.
Proof.
  intros (Hc & Hv & Hk) Hlt. unfold capacity in *. unfold addElement.
  rewrite decide_True by done.
  rewrite !wr_lt by lia. simpl.
  eexists. split; [done|]. split_and!.
  - unfold wf; simpl. rewrite !length_insert. lia.
  - unfold entries; simpl.
    rewrite <- (insert_zip_with pair (_rows m) (_cols m) (_curIdx m) r c).
    rewrite <- (insert_zip_with pair _ (_values m) (_curIdx m) (r, c) v).
    erewrite take_S_r.
    + by rewrite take_insert_ge by lia.
    + apply list_lookup_insert_eq. rewrite !length_zip_with. lia.
  - simpl. apply length_insert.
Qed.

Lemma addElements_entries es : ∀ m,
  wf m → _curIdx m + length es ≤ capacity m →
  ∃ m', addElements m es = Some m' ∧ wf m' ∧ entries m' = entries m ++ es.
Proof.
  induction es as [|[[r c] v] es IH]; intros m Hwf Hcap; simpl in *.
  - exists m. by rewrite app_nil_r.
  - destruct (addElement_entries m r c v) as (m1 & -> & Hwf1 & He1 & Hc1);
      [done|lia|]. simpl.
    destruct (IH m1) as (m' & -> & Hwf' & He'); [done| |].
    + rewrite Hc1. rewrite <- (length_entries m1), He1, length_app by done.
      rewrite length_entries by done. simpl. lia.
    + exists m'. split_and!; [done..|]. by rewrite He', He1, <- app_assoc.
Qed.

(** A matrix of capacity [nnz] populated by [addElement] calls holds the
    triples of the calls, in the order of the calls. *)
Lemma populate_entries nnz es :
  length es ≤ nnz →
  ∃ m, addElements (resize nnz) es = Some m ∧ wf m ∧ entries m = es.
Proof.
  intros Hle. destruct (addElements_entries es (resize nnz)) as (m & ? & ? & ?).
  - apply wf_resize.
  - unfold capacity; simpl. rewrite length_replicate. lia.
  - by exists m.
Qed.

End SparseMatrixFacts.

(** ** SparseMatrix: the products *)

Section SparseMatrixProducts.
Context {R : Type} `{Scalar R}.
Import SparseMatrix.
Implicit Types (m : SparseMatrix.t R) (x out : list R) (es : list (nat * nat * R)).

Lemma multiplyAdd_fold m x out :
  wf m → multiplyAdd m x out = fold_opt (madd_step x) (entries m) out.
Proof.
  intros Hwf. unfold multiplyAdd. rewrite <- (length_entries m Hwf).
  apply for_loop_fold_opt. intros k [[r c] v] s' Hk.
  apply lookup_entries in Hk as (_ & Hr & Hc & Hv).
  unfold multiplyAdd_body, madd_step. simpl. by rewrite Hr, Hc, Hv.
Qed.

Lemma multiplyVector_fold m x alpha beta out :
  wf m →
  multiplyVector m x alpha beta out
  = fold_opt (mvec_step x alpha beta) (entries m) out.
Proof.
  intros Hwf. unfold multiplyVector. rewrite <- (length_entries m Hwf).
  apply for_loop_fold_opt. intros k [[r c] v] s' Hk.
  apply lookup_entries in Hk as (_ & Hr & Hc & Hv).
  unfold multiplyVector_body, mvec_step. simpl. by rewrite Hr, Hc, Hv.
Qed.

(** For every scalar type: the pass over the triples returns, keeps the size
    of [out], and leaves in [out[r]] its old value with the terms of row [r]
    added in insertion order. *)
Lemma fold_madd_accumulate es x : ∀ out,
  Forall (λ e, e.1.1 < length out ∧ e.1.2 < length x) es →
  ∃ out', fold_opt (madd_step x) es out = Some out' ∧
          length out' = length out ∧
          ∀ r o, out !! r = Some o → out' !! r = Some (row_accumulate es x r o).
Proof.
  induction es as [|[[r0 c0] v0] es IH]; intros out Hrange.
  - exists out. by split_and!.
  - apply Forall_cons in Hrange as [[Hr0 Hc0] Hrange]. simpl in Hr0, Hc0.
    destruct (lookup_lt_is_Some_2 x c0 Hc0) as [xc Hxc].
    destruct (lookup_lt_is_Some_2 out r0 Hr0) as [o0 Ho0].
    simpl. rewrite Hxc, Ho0. simpl. rewrite wr_lt by done. simpl.
    destruct (IH (<[r0:=o0 ⊕ v0 ⊗ xc]> out)) as (out' & -> & Hlen & Hacc).
    { rewrite length_insert. done. }
    exists out'. split_and!; [done|by rewrite Hlen, length_insert|].
    intros r o Hro. unfold row_accumulate.
    destruct (decide (r0 = r)) as [->|Hne].
    + rewrite filter_cons_True by done. simpl.
      replace (xval x c0) with xc by (unfold xval; by rewrite Hxc).
      apply Hacc. rewrite list_lookup_insert_eq by done. congruence.
    + rewrite filter_cons_False by (simpl; congruence).
      apply Hacc. by rewrite list_lookup_insert_ne.
Qed.

End SparseMatrixProducts.

(** On exact scalars the order of the additions does not matter. *)
Lemma Qc_foldl_foldr {E} (t : E → Qc) (l : list E) (o : Qc) :
  foldl (λ acc e, acc ⊕ t e) o l = o ⊕ foldr (λ e acc, t e ⊕ acc) szero l.
Proof.
  revert o. induction l as [|e l IH]; intros o; simpl.
  - change (o = o + 0)%Qc. ring.
  - rewrite IH. simpl. ring.
Qed.

Lemma Qc_row_accumulate es x r (o : Qc) :
  row_accumulate es x r o = o ⊕ row_sum es x r.
Proof. apply (Qc_foldl_foldr (λ e, e.2 ⊗ xval x e.1.2)). Qed.

Section SparseMatrixRowSums.
Context {R : Type} `{Scalar R}.
Import SparseMatrix.

(** Where addition is associative and [0.0] is neutral on the right, adding
    the terms one after the other onto [o] gives [o] plus their sum. *)
Lemma foldl_foldr_assoc {E} (t : E → R) (l : list E) :
  (∀ a b c : R, a ⊕ b ⊕ c = a ⊕ (b ⊕ c)) → (∀ a : R, a ⊕ szero = a) →
  ∀ o, foldl (λ acc e, acc ⊕ t e) o l
       = o ⊕ foldr (λ e acc, t e ⊕ acc) szero l.
Proof.
  intros Hassoc Hzero. induction l as [|e l IH]; intros o; simpl.
  - by rewrite Hzero.
  - by rewrite IH, Hassoc.
Qed.

(** C7, as amended.  A matrix of capacity [nnz] populated by the
    [addElement] calls [es] (duplicate positions allowed), applied with
    [multiplyAdd] to vectors [x] and [out] that the stored rows and columns
    index, for every scalar type, binary64 included: the call returns and
    keeps the size of [out], and every [out[r]] ends as its old value with
    the terms [v * x[c]] of all stored triples [(r, c, v)] of row [r] added
    one after the other, in insertion order.  Triples at one position each
    contribute their term.  Where the addition of the scalars is
    associative and [0.0] is neutral, as in exact arithmetic, [out[r]] has
    grown by exactly the sum of these terms. *)
Theorem multiplyAdd_adds_row_sums (nnz : nat) (es : list (nat * nat * R))
    (x out : list R) :
  length es ≤ nnz →
  Forall (λ e, e.1.1 < length out ∧ e.1.2 < length x) es →
  ∃ m out',
    addElements (resize nnz) es = Some m ∧
    multiplyAdd m x out = Some out' ∧
    length out' = length out ∧
    (∀ r o, out !! r = Some o →
       out' !! r = Some (row_accumulate es x r o)) ∧
    ((∀ a b c : R, a ⊕ b ⊕ c = a ⊕ (b ⊕ c)) → (∀ a : R, a ⊕ szero = a) →
     ∀ r o, out !! r = Some o → out' !! r = Some (o ⊕ row_sum es x r)).
Proof.
  intros Hcap Hrange.
  destruct (populate_entries nnz es Hcap) as (m & Hm & Hwf & Hes).
  destruct (fold_madd_accumulate es x out Hrange) as (out' & Hf & Hlen & Hacc).
  exists m, out'. split_and!; [done| |done|done|].
  - by rewrite multiplyAdd_fold, Hes.
  - intros Hassoc Hzero r o Hro. rewrite (Hacc r o Hro). f_equal.
    apply (foldl_foldr_assoc (λ e, e.2 ⊗ xval x e.1.2)); done.
Qed.

End SparseMatrixRowSums.

(** Two triples at position (0,0) and one in row 1, on exact scalars:
    [out = [1; 1]] becomes [[1 + (2 + 3) * 7; 1 + 5 * 7]]. *)
Lemma multiplyAdd_adds_row_sums_witness :
  ∃ m out',
    SparseMatrix.addElements (SparseMatrix.resize 3)
      [(0, 0, Qc_of_Z 2); (0, 0, Qc_of_Z 3); (1, 0, Qc_of_Z 5)] = Some m ∧
    SparseMatrix.multiplyAdd m [Qc_of_Z 7] [Qc_of_Z 1; Qc_of_Z 1] = Some out' ∧
    length out' = 2 ∧
    (∀ r o, [Qc_of_Z 1; Qc_of_Z 1] !! r = Some o →
       out' !! r = Some (row_accumulate
         [(0, 0, Qc_of_Z 2); (0, 0, Qc_of_Z 3); (1, 0, Qc_of_Z 5)]
         [Qc_of_Z 7] r o)) ∧
    (∀ r o, [Qc_of_Z 1; Qc_of_Z 1] !! r = Some o →
       out' !! r = Some (o ⊕ row_sum
         [(0, 0, Qc_of_Z 2); (0, 0, Qc_of_Z 3); (1, 0, Qc_of_Z 5)]
         [Qc_of_Z 7] r)).
Proof.
  destruct (multiplyAdd_adds_row_sums 3
              [(0, 0, Qc_of_Z 2); (0, 0, Qc_of_Z 3); (1, 0, Qc_of_Z 5)]
              [Qc_of_Z 7] [Qc_of_Z 1; Qc_of_Z 1])
    as (m & out' & Hm & Hrun & Hlen & Hacc & Hsum).
  - simpl. lia.
  - repeat constructor; simpl; lia.
  - exists m, out'. split_and!; [exact Hm|exact Hrun|exact Hlen|exact Hacc|].
    apply Hsum.
    + intros a b c. simpl. ring.
    + intros a. simpl. change (a + 0 = a)%Qc. ring.
Defined.

(** C7 as stated fails on binary64.  The matrix holds the triples
    (0,0,2^53), (0,0,1) and (0,0,1); with [x = [1]] and [out = [0]] the sum
    of the terms of row 0 is [2^53 + 2], which is a binary64 number, but
    [multiplyAdd] leaves [2^53]: each of the two additions of [1] is rounded
    back to [2^53]. *)
Lemma multiplyAdd_rounds_binary64 :
  ∃ m, SparseMatrix.addElements (SparseMatrix.resize 3)
         [(0, 0, 9007199254740992%float); (0, 0, 1%float); (0, 0, 1%float)]
       = Some m ∧
       SparseMatrix.multiplyAdd m [1%float] [0%float]
       = Some [9007199254740992%float] ∧
       (0%float ⊕ row_sum
          [(0, 0, 9007199254740992%float); (0, 0, 1%float); (0, 0, 1%float)]
          [1%float] 0)
       = 9007199254740994%float ∧
       PrimFloat.eqb 9007199254740992%float 9007199254740994%float = false ∧
       row_sum [(0, 0, Qc_of_Z 9007199254740992); (0, 0, Qc_of_Z 1);
                (0, 0, Qc_of_Z 1)] [Qc_of_Z 1] 0
       = Qc_of_Z 9007199254740994.
Proof.
  eexists. split_and!; [reflexivity..|].
  apply (bool_decide_unpack _). vm_compute. exact I.
Qed.

Example multiplyAdd_duplicates_run :
  ∃ m, SparseMatrix.addElements (SparseMatrix.resize 3)
         [(0, 0, Qc_of_Z 2); (0, 0, Qc_of_Z 3); (1, 0, Qc_of_Z 5)] = Some m ∧
       SparseMatrix.multiplyAdd m [Qc_of_Z 7] [Qc_of_Z 1; Qc_of_Z 1]
       = Some [Qc_of_Z 36; Qc_of_Z 36].
Proof. eexists. split; reflexivity. Qed.

(** C6, at the input where it fails.  The matrix holds the two triples
    (0,0,2) and (0,0,3), so [A(0,0) = 5]; with [x = [1]], [alpha = 1],
    [beta = 0] and [y = [0]] the announced result [alpha*A*x + beta*y] is
    [[5]].  [multiplyVector] returns [[3]]: every pass assigns
    [alpha*v*x[c] + beta*out[r]] to [out[r]], so the second triple replaces
    what the first one left. *)
Theorem multiplyVector_duplicates_run :
  ∃ m, SparseMatrix.addElements (SparseMatrix.resize 2)
         [(0, 0, Qc_of_Z 2); (0, 0, Qc_of_Z 3)] = Some m ∧
       SparseMatrix.multiplyVector m [Qc_of_Z 1] (Qc_of_Z 1) (Qc_of_Z 0)
         [Qc_of_Z 0] = Some [Qc_of_Z 3] ∧
       axpby [(0, 0, Qc_of_Z 2); (0, 0, Qc_of_Z 3)] [Qc_of_Z 1]
         (Qc_of_Z 1) (Qc_of_Z 0) [Qc_of_Z 0] = [Qc_of_Z 5].
Proof. eexists. split_and!; reflexivity. Qed.

(** Two more inputs, without duplicates.  Two triples in one row: the second
    one replaces the contribution of the first ([3] instead of [5]).  A row
    without a triple: [out[1]] is not scaled by [beta] ([1] instead of
    [2]). *)
Example multiplyVector_rows_run :
  (∃ m, SparseMatrix.addElements (SparseMatrix.resize 2)
          [(0, 0, Qc_of_Z 2); (0, 1, Qc_of_Z 3)] = Some m ∧
        SparseMatrix.multiplyVector m [Qc_of_Z 1; Qc_of_Z 1] (Qc_of_Z 1)
          (Qc_of_Z 0) [Qc_of_Z 0] = Some [Qc_of_Z 3] ∧
        axpby [(0, 0, Qc_of_Z 2); (0, 1, Qc_of_Z 3)] [Qc_of_Z 1; Qc_of_Z 1]
          (Qc_of_Z 1) (Qc_of_Z 0) [Qc_of_Z 0] = [Qc_of_Z 5]) ∧
  (∃ m, SparseMatrix.addElements (SparseMatrix.resize 1)
          [(0, 0, Qc_of_Z 2)] = Some m ∧
        SparseMatrix.multiplyVector m [Qc_of_Z 1] (Qc_of_Z 1) (Qc_of_Z 2)
          [Qc_of_Z 1; Qc_of_Z 1] = Some [Qc_of_Z 4; Qc_of_Z 1] ∧
        axpby [(0, 0, Qc_of_Z 2)] [Qc_of_Z 1] (Qc_of_Z 1) (Qc_of_Z 2)
          [Qc_of_Z 1; Qc_of_Z 1] = [Qc_of_Z 4; Qc_of_Z 2]).
Proof. split; eexists; split_and!; reflexivity. Qed.

(** The same run on binary64. *)
Example multiplyVector_duplicates_run_binary64 :
  ∃ m, SparseMatrix.addElements (SparseMatrix.resize 2)
         [(0, 0, 2%float); (0, 0, 3%float)] = Some m ∧
       SparseMatrix.multiplyVector m [1%float] 1%float 0%float [0%float]
       = Some [3%float] ∧
       axpby [(0, 0, 2%float); (0, 0, 3%float)] [1%float] 1%float 0%float
         [0%float] = [5%float].
Proof. eexists. split_and!; reflexivity. Qed.

(** ** [unsigned int] *)

Lemma u32_small (n : N) : (n < 2 ^ 32)%N → u32 n = n.
Proof. apply N.mod_small. Qed.

Lemma u32_lt (n : N) : (u32 n < 2 ^ 32)%N.
Proof. by apply N.mod_upper_bound. Qed.

Lemma u32_of_int_lt (z : Z) : (u32_of_int z < 2 ^ 32)%N.
Proof.
  unfold u32_of_int.
  pose proof (Z.mod_pos_bound z (2 ^ 32) eq_refl). lia.
Qed.

Lemma uadd_u32_l (a b : N) : uadd (u32 a) b = u32 (a + b).
Proof. unfold uadd, u32. by rewrite N.Div0.add_mod_idemp_l. Qed.

Lemma uadd_u32_r (a b : N) : uadd a (u32 b) = u32 (a + b).
Proof. unfold uadd, u32. by rewrite N.Div0.add_mod_idemp_r. Qed.

Lemma umul_u32_r (a b : N) : umul a (u32 b) = u32 (a * b).
Proof. unfold umul, u32. by rewrite N.Div0.mul_mod_idemp_r. Qed.

Lemma usub_1 (n : N) : (0 < n < 2 ^ 32)%N → usub n 1 = (n - 1)%N.
Proof.
  intros Hn. unfold usub, u32.
  replace (n + 2 ^ 32 - 1)%N with (n - 1 + 1 * 2 ^ 32)%N by lia.
  rewrite N.Div0.mod_add. apply N.mod_small. lia.
Qed.

Lemma sumN_app (l k : list N) : sumN (l ++ k) = (sumN l + sumN k)%N.
Proof. induction l as [|a l IH]; simpl; [done|]. rewrite IH. lia. Qed.

Lemma sumN_replicate_0 (n : nat) : sumN (replicate n 0%N) = 0%N.
Proof. induction n as [|n IH]; simpl; [done|]. by rewrite IH. Qed.

(** ** [configure]: the discretisation *)

Section Discretization.
Context {R : Type} `{Scalar R}.
Import CSTRModel.
Implicit Types (pp : IParameterProvider R) (nb bo : list N).

Lemma boundOffset_body_step n nb k bo bo' :
  length nb = n → 1 ≤ k →
  offsets_upto n nb k bo →
  boundOffset_body nb k bo = Some bo' →
  offsets_upto n nb (S k) bo'.
Proof.
  intros Hnb Hk [Hlen Hpre]. unfold boundOffset_body. intros Hb.
  destruct (bo !! (k - 1)) as [a|] eqn:Ha; [|done].
  destruct (nb !! (k - 1)) as [b|] eqn:Hbk; [|done]. simpl in Hb.
  apply wr_Some in Hb as [Hlt ->]. split; [by rewrite length_insert|].
  intros i Hi. destruct (decide (i = k)) as [->|Hne].
  - rewrite list_lookup_insert_eq by done. f_equal.
    rewrite Hpre in Ha by lia. injection Ha as <-.
    replace k with (S (k - 1)) at 2 by lia.
    rewrite (take_S_r _ _ _ Hbk), sumN_app. simpl.
    rewrite uadd_u32_l. f_equal. lia.
  - rewrite list_lookup_insert_ne by done. apply Hpre. lia.
Qed.

Lemma boundOffset_body_defined n nb k bo :
  length nb = n → 1 ≤ k < n → length bo = n →
  is_Some (boundOffset_body nb k bo).
Proof.
  intros Hnb Hk Hlen. unfold boundOffset_body.
  destruct (lookup_lt_is_Some_2 bo (k - 1)) as [a ->]; [lia|].
  destruct (lookup_lt_is_Some_2 nb (k - 1)) as [b ->]; [lia|]. simpl.
  rewrite wr_lt by lia. done.
Qed.

(** What [configure] computes when it gets past the discretisation: the
    offsets are the prefix sums of the counts and [_strideBound] is their
    total, in [unsigned int] arithmetic. *)
Lemma configure_discretization_Some pp nC nb bo sB :
  configure_discretization pp = Some (nC, nb, bo, sB) →
  nC = u32_of_int (getInt pp "NCOMP") ∧ (0 < nC < 2 ^ 32)%N ∧
  length nb = N.to_nat nC ∧ length bo = N.to_nat nC ∧
  (∀ i, i < N.to_nat nC → bo !! i = Some (u32 (sumN (take i nb)))) ∧
  sB = u32 (sumN nb) ∧
  (exists_ pp "NBOUND" = false → nb = replicate (N.to_nat nC) 0%N).
Proof.
  unfold configure_discretization.
  set (n := u32_of_int (getInt pp "NCOMP")).
  pose proof (u32_of_int_lt (getInt pp "NCOMP")) as Hn. fold n in Hn.
  intros Hc.
  destruct (if exists_ pp "NBOUND" then _ else _) as [nb0|] eqn:Hnb0;
    [|done]. simpl in Hc.
  destruct (wr (replicate (N.to_nat n) 0%N) 0 0%N) as [bo0|] eqn:Hbo0;
    [|done]. simpl in Hc.
  destruct (for_loop _ _ _ bo0) as [bo1|] eqn:Hloop; [|done]. simpl in Hc.
  destruct (rdN bo1 (usub n 1)) as [lastOffset|] eqn:Hlo; [|done].
  destruct (rdN nb0 (usub n 1)) as [lastBound|] eqn:Hlb; [|done].
  simpl in Hc. injection Hc as <- <- <- <-.
  apply wr_Some in Hbo0 as [Hpos ->]. rewrite length_replicate in Hpos.
  assert (Hlen : length nb0 = N.to_nat n).
  { destruct (exists_ pp "NBOUND").
    - case_decide; [|done]. injection Hnb0 as <-. by rewrite length_fmap.
    - injection Hnb0 as <-. by rewrite length_replicate. }
  assert (Hinv : offsets_upto (N.to_nat n) nb0 (1 + (N.to_nat n - 1)) bo1).
  { eapply (for_loop_Some_inv (offsets_upto (N.to_nat n) nb0)); [| |done].
    - split; [by rewrite length_insert, length_replicate|].
      intros i Hi. replace i with 0 by lia.
      rewrite list_lookup_insert_eq by (rewrite length_replicate; lia). done.
    - intros k s0 s1 Hk Hs0 Hb.
      by apply (boundOffset_body_step (N.to_nat n) nb0 k s0 s1); [|lia|..]. }
  replace (1 + (N.to_nat n - 1)) with (N.to_nat n) in Hinv by lia.
  destruct Hinv as [Hlen1 Hpre].
  rewrite usub_1 in Hlo, Hlb by lia. unfold rdN in Hlo, Hlb.
  split_and!; [done|lia|lia|done|done|done| |].
  - rewrite Hpre in Hlo by lia. injection Hlo as <-.
    rewrite uadd_u32_l. f_equal.
    rewrite <- (take_ge nb0 (S (N.to_nat (n - 1)))) at 2 by lia.
    rewrite (take_S_r _ _ _ Hlb), sumN_app. simpl. lia.
  - intros Hex. rewrite Hex in Hnb0. by injection Hnb0 as <-.
Qed.

(** The discretisation is defined as soon as there is a component and
    [NBOUND], when present, has one count per component. *)
Lemma configure_discretization_defined pp :
  (0 < u32_of_int (getInt pp "NCOMP"))%N →
  (exists_ pp "NBOUND" = true →
   length (getIntArray pp "NBOUND")
   = N.to_nat (u32_of_int (getInt pp "NCOMP"))) →
  is_Some (configure_discretization pp).
Proof.
  intros Hpos Hnb. unfold configure_discretization.
  set (n := u32_of_int (getInt pp "NCOMP")) in *.
  pose proof (u32_of_int_lt (getInt pp "NCOMP")) as Hn. fold n in Hn.
  assert (∃ nb0, (if exists_ pp "NBOUND"
                  then (if decide (length (getIntArray pp "NBOUND") = N.to_nat n)
                        then Some (u32_of_int <$> getIntArray pp "NBOUND")
                        else None)
                  else Some (replicate (N.to_nat n) 0%N)) = Some nb0
                 ∧ length nb0 = N.to_nat n) as (nb0 & -> & Hlen).
  { destruct (exists_ pp "NBOUND").
    - rewrite decide_True by auto. eexists. split; [done|].
      rewrite length_fmap. auto.
    - eexists. split; [done|]. by rewrite length_replicate. }
  simpl. rewrite wr_lt by (rewrite length_replicate; lia). simpl.
  destruct (for_loop_inv (λ _ bo, length bo = N.to_nat n)
              (boundOffset_body nb0) 1 (N.to_nat n - 1)
              (<[0:=0%N]> (replicate (N.to_nat n) 0%N)))
    as (bo1 & -> & Hlen1).
  { by rewrite length_insert, length_replicate. }
  { intros k s0 Hk Hs0.
    destruct (boundOffset_body_defined (N.to_nat n) nb0 k s0) as [s1 Hs1];
      [done|lia|done|].
    exists s1. split; [done|].
    unfold boundOffset_body in Hs1.
    destruct (s0 !! (k - 1)); [|done]. destruct (nb0 !! (k - 1)); [|done].
    simpl in Hs1. by rewrite (wr_length _ _ _ _ Hs1). }
  simpl. rewrite usub_1 by lia. unfold rdN.
  destruct (lookup_lt_is_Some_2 bo1 (N.to_nat (n - 1))) as [a ->]; [lia|].
  destruct (lookup_lt_is_Some_2 nb0 (N.to_nat (n - 1))) as [b ->]; [lia|].
  done.
Qed.

End Discretization.

(** ** [configure]: the size of the state *)

Section Dimensions.
Context {R : Type} `{Scalar R}.
Import CSTRModel.

Lemma reconfigure_discretization (m : CSTRModel.t R) pp :
  _nComp (reconfigure m pp).1 = _nComp m ∧
  _nBound (reconfigure m pp).1 = _nBound m ∧
  _boundOffset (reconfigure m pp).1 = _boundOffset m ∧
  _strideBound (reconfigure m pp).1 = _strideBound m.
Proof.
  unfold reconfigure. simpl.
  destruct (_binding m); [destruct (exists_ pp "adsorption")|]; done.
Qed.

Lemma configure_Returns chk (m0 m : CSTRModel.t R) pp helper ok :
  configure chk m0 pp helper = Returns (m, ok) →
  configure_discretization pp
  = Some (_nComp m, _nBound m, _boundOffset m, _strideBound m).
Proof.
  unfold configure.
  destruct (configure_discretization pp) as [[[[nC nb] bo] sB]|]; [|done].
  simpl.
  match goal with |- context [reconfigure ?m2 pp] =>
    destruct (reconfigure_discretization m2 pp) as (H1 & H2 & H3 & H4) end.
  destruct (exists_ pp "ADSORPTION_MODEL").
  - destruct (createBindingModel _ _); [|done].
    intros [= <- _]. simpl. by rewrite H1, H2, H3, H4.
  - intros [= <- _]. simpl. by rewrite H1, H2, H3, H4.
Qed.

Lemma numDofs_u32 (m : CSTRModel.t R) :
  numDofs m = u32 (2 * _nComp m + _strideBound m + 1).
Proof. unfold numDofs, umul. by rewrite !uadd_u32_l. Qed.

Lemma numPureDofs_u32 (m : CSTRModel.t R) :
  numPureDofs m = u32 (_nComp m + _strideBound m + 1).
Proof. unfold numPureDofs. unfold uadd at 2. by rewrite uadd_u32_l. Qed.

(** C8. For every model that [configure] returns: the offsets are the
    prefix sums of the bound-state counts and [_strideBound] is their total;
    [numDofs() = 2*nComp + strideBound + 1] and
    [numPureDofs() = nComp + strideBound + 1], both in the [unsigned int]
    arithmetic of the code and, as long as [2*nComp + total + 1] fits into
    32 bits, as plain numbers.  Without [NBOUND] all counts are zero, and
    with zero bound states [numDofs() = 2*nComp + 1] and
    [numPureDofs() = nComp + 1]. *)
Theorem configure_numDofs (chk : bool) (m0 m : CSTRModel.t R)
    (pp : IParameterProvider R) (helper : IConfigHelper R) (ok : bool) :
  configure chk m0 pp helper = Returns (m, ok) →
  (∀ i, i < N.to_nat (_nComp m) →
     _boundOffset m !! i = Some (u32 (sumN (take i (_nBound m))))) ∧
  _strideBound m = u32 (sumN (_nBound m)) ∧
  numDofs m = u32 (2 * _nComp m + _strideBound m + 1) ∧
  numPureDofs m = u32 (_nComp m + _strideBound m + 1) ∧
  ((2 * _nComp m + sumN (_nBound m) + 1 < 2 ^ 32)%N →
     _strideBound m = sumN (_nBound m) ∧
     numDofs m = (2 * _nComp m + sumN (_nBound m) + 1)%N ∧
     numPureDofs m = (_nComp m + sumN (_nBound m) + 1)%N) ∧
  (exists_ pp "NBOUND" = false → sumN (_nBound m) = 0%N) ∧
  (sumN (_nBound m) = 0%N → (2 * _nComp m + 1 < 2 ^ 32)%N →
     numDofs m = (2 * _nComp m + 1)%N ∧ numPureDofs m = (_nComp m + 1)%N).
Proof.
  intros Hc. apply configure_Returns in Hc.
  apply configure_discretization_Some
    in Hc as (_ & HnC & Hnb & Hbo & Hpre & HsB & Hzero).
  assert (Hfits : (2 * _nComp m + sumN (_nBound m) + 1 < 2 ^ 32)%N →
     _strideBound m = sumN (_nBound m) ∧
     numDofs m = (2 * _nComp m + sumN (_nBound m) + 1)%N ∧
     numPureDofs m = (_nComp m + sumN (_nBound m) + 1)%N).
  { intros Hfit.
    assert (_strideBound m = sumN (_nBound m)) as Heq
      by (rewrite HsB; apply u32_small; lia).
    rewrite numDofs_u32, numPureDofs_u32, Heq.
    split_and!; [done|apply u32_small; lia..]. }
  split_and!; [done|done|apply numDofs_u32|apply numPureDofs_u32|done| |].
  - intros Hex. rewrite (Hzero Hex). apply sumN_replicate_0.
  - intros H0 Hfit. rewrite H0 in Hfits.
    destruct Hfits as (_ & -> & ->); [lia|]. split; f_equal; lia.
Qed.

End Dimensions.

(** Two components with one and two bound states: 8 degrees of freedom, 6
    without the inlet. *)
Lemma configure_numDofs_witness :
  CSTRModel.configure false (CSTRModel.create 0) pp_two_components none_helper
  = Returns (configured pp_two_components szero szero, true) ∧
  CSTRModel._strideBound (configured pp_two_components szero szero) = 3%N ∧
  CSTRModel.numDofs (configured pp_two_components szero szero) = 8%N ∧
  CSTRModel.numPureDofs (configured pp_two_components szero szero) = 6%N.
Proof.
  assert (Hrun : CSTRModel.configure false (CSTRModel.create 0)
                   pp_two_components none_helper
                 = Returns (configured pp_two_components szero szero, true))
    by reflexivity.
  destruct (configure_numDofs false (CSTRModel.create 0) _ _ none_helper true
              Hrun) as (_ & _ & _ & _ & Hfits & _).
  destruct Hfits as (HsB & Hd & Hp); [vm_compute; reflexivity|].
  split_and!; [exact Hrun|exact HsB|exact Hd|exact Hp].
Defined.

(** ** Configuration errors *)

Section ConfigurationErrors.
Context {R : Type} `{Scalar R}.
Import CSTRModel.

Lemma configure_Throws chk (m0 : CSTRModel.t R) pp helper e :
  configure chk m0 pp helper = Throws e →
  exists_ pp "ADSORPTION_MODEL" = true ∧
  createBindingModel helper (getString pp "ADSORPTION_MODEL") = None ∧
  e = unknown_binding_model pp.
Proof.
  unfold configure.
  destruct (configure_discretization pp) as [[[[nC nb] bo] sB]|]; [|done].
  simpl. destruct (exists_ pp "ADSORPTION_MODEL"); [|done].
  destruct (createBindingModel _ _); [done|]. by intros [= <-].
Qed.

Lemma applyInitialCondition_Throws (m : CSTRModel.t R) pp y yDot e :
  applyInitialCondition m pp y yDot = Throws e →
  exists_ pp "INIT_STATE" = false ∧
  length (getDoubleArray pp "INIT_C") < N.to_nat (_nComp m) ∧
  e = init_c_too_short.
Proof.
  unfold applyInitialCondition.
  destruct (exists_ pp "INIT_STATE").
  - destruct (copy_n _ _ y 0); simpl; [|done].
    case_decide; [|done]. by destruct (copy_n _ _ yDot 0).
  - case_decide; [by intros [= <-]|].
    destruct (copy_n _ _ y _) as [y1|]; simpl; [|done].
    destruct (if exists_ pp "INIT_Q" then _ else _) as [y2|]; simpl; [|done].
    by destruct (wrN y2 _ _).
Qed.

(** C9, as amended.  For a configuration with at least one component and,
    when [NBOUND] is given, one bound-state count per component (where the
    C++ of [configure] is defined), an [ADSORPTION_MODEL] name the factory
    does not know makes [configure] throw [InvalidParameterException] with
    the message "Unknown binding model <name>".  When [INIT_STATE] is
    absent, an [INIT_C] array shorter than the component count makes
    [applyInitialCondition] throw [InvalidParameterException] with the
    message "INIT_C does not contain enough values for all components".
    The exception is the outcome of the call: nothing else is raised in
    these paths. *)
Theorem configuration_errors (chk : bool) (m0 m : CSTRModel.t R)
    (pp : IParameterProvider R) (helper : IConfigHelper R)
    (y yDot : list R) :
  ((0 < u32_of_int (getInt pp "NCOMP"))%N →
   (exists_ pp "NBOUND" = true →
    length (getIntArray pp "NBOUND")
    = N.to_nat (u32_of_int (getInt pp "NCOMP"))) →
   exists_ pp "ADSORPTION_MODEL" = true →
   createBindingModel helper (getString pp "ADSORPTION_MODEL") = None →
   configure chk m0 pp helper = Throws (unknown_binding_model pp)) ∧
  (exists_ pp "INIT_STATE" = false →
   length (getDoubleArray pp "INIT_C") < N.to_nat (_nComp m) →
   applyInitialCondition m pp y yDot = Throws init_c_too_short).
Proof.
  split.
  - intros Hpos Hnb Hex Hnone.
    destruct (configure_discretization_defined pp Hpos Hnb)
      as [[[[nC nb] bo] sB] Hd].
    unfold configure. rewrite Hd. simpl. by rewrite Hex, Hnone.
  - intros Hex Hshort. unfold applyInitialCondition.
    rewrite Hex. by rewrite decide_True.
Qed.

End ConfigurationErrors.

Lemma configuration_errors_witness :
  CSTRModel.configure false (CSTRModel.create 0) pp_unknown_binding none_helper
  = Throws (InvalidParameterException "Unknown binding model NO_SUCH_MODEL") ∧
  CSTRModel.applyInitialCondition (configured pp_init_state szero szero)
    pp_unknown_binding [szero; szero; szero] [szero; szero; szero]
  = Throws (InvalidParameterException
              "INIT_C does not contain enough values for all components").
Proof.
  destruct (configuration_errors false (CSTRModel.create 0)
              (configured pp_init_state szero szero) pp_unknown_binding
              none_helper [szero; szero; szero] [szero; szero; szero])
    as (Hbinding & HinitC).
  split.
  - apply Hbinding; [vm_compute; reflexivity|discriminate|reflexivity..].
  - apply HinitC; [reflexivity|vm_compute; lia].
Defined.

(** C9 as stated fails: with [INIT_STATE] present, [INIT_C] is not looked
    at.  Here [INIT_C] is empty, the model has one component, and the call
    returns the state of [INIT_STATE]. *)
Lemma applyInitialCondition_INIT_STATE_ignores_INIT_C :
  length (getDoubleArray pp_init_state "INIT_C")
  < N.to_nat (CSTRModel._nComp (configured pp_init_state szero szero)) ∧
  CSTRModel.applyInitialCondition (configured pp_init_state szero szero)
    pp_init_state [szero; szero; szero] [szero; szero; szero]
  = Returns ([Qc_of_Z 1; Qc_of_Z 2; Qc_of_Z 3], [szero; szero; szero]).
Proof. split; [vm_compute; lia|reflexivity]. Qed.

(** Closed equations between exact scalars are decided by evaluation: two
    values of [Qc] with the same reduced fraction are equal, whatever proof
    of reducedness they carry. *)
Ltac run_exact :=
  repeat split;
  first [ reflexivity
        | apply (bool_decide_unpack _); vm_compute; exact I ].

(** ** The models of the runs *)

(** [configure] returns on the three tank configurations, and these are the
    models it leaves (flow rates are set afterwards by [setFlowRates]). *)
Example configured_tank_bound_fields :
  let m := configured pp_tank_bound (Qc_of_Z 2) (Qc_of_Z 1) in
  (∃ r, CSTRModel.configure false (CSTRModel.create 0) pp_tank_bound
          none_helper = Returns r) ∧
  CSTRModel._nComp m = 1%N ∧ CSTRModel._nBound m = [1%N] ∧
  CSTRModel._boundOffset m = [0%N] ∧ CSTRModel._strideBound m = 1%N ∧
  CSTRModel.numDofs m = 4%N ∧
  CSTRModel._porosity m = Q2Qc (Qmake 1 2) ∧
  CSTRModel._flowRateIn m = Qc_of_Z 2 ∧ CSTRModel._flowRateOut m = Qc_of_Z 1 ∧
  CSTRModel._curFlowRateFilter m = Qc_of_Z 0.
Proof. split; [by eexists|]. split_and!; reflexivity. Qed.

Example configured_tank_fields :
  let m := configured pp_tank (Qc_of_Z 2) (Qc_of_Z 1) in
  (∃ r, CSTRModel.configure false (CSTRModel.create 0) pp_tank none_helper
        = Returns r) ∧
  CSTRModel._nComp m = 1%N ∧ CSTRModel._nBound m = [0%N] ∧
  CSTRModel._boundOffset m = [0%N] ∧ CSTRModel._strideBound m = 0%N ∧
  CSTRModel.numDofs m = 3%N ∧
  CSTRModel._porosity m = Qc_of_Z 1 ∧
  CSTRModel._flowRateIn m = Qc_of_Z 2 ∧ CSTRModel._flowRateOut m = Qc_of_Z 1 ∧
  CSTRModel._curFlowRateFilter m = Qc_of_Z 0.
Proof. split; [by eexists|]. split_and!; reflexivity. Qed.

Example configured_tank_second_bound_fields :
  let m := configured pp_tank_second_bound (Qc_of_Z 13) (Qc_of_Z 19) in
  (∃ r, CSTRModel.configure false (CSTRModel.create 0) pp_tank_second_bound
          none_helper = Returns r) ∧
  CSTRModel._nComp m = 2%N ∧ CSTRModel._nBound m = [0%N; 1%N] ∧
  CSTRModel._boundOffset m = [0%N; 0%N] ∧ CSTRModel._strideBound m = 1%N ∧
  CSTRModel.numDofs m = 6%N.
Proof. split; [by eexists|]. split_and!; reflexivity. Qed.

(** ** Consistent initialisation: what holds for every model *)

Section ConsistentInitialState.
Context {R : Type} `{Scalar R}.
Import CSTRModel.
Implicit Types (m : CSTRModel.t R) (y : list R).

Lemma consistentInitialState_loop m factor y :
  2 * N.to_nat (_nComp m) ≤ length y →
  ∃ y',
    for_loop
      (λ i y0, cin ← y0 !! i; wr y0 (N.to_nat (_nComp m) + i) (cin ⊗ factor))
      0 (N.to_nat (_nComp m)) y = Some y' ∧
    initialised_upto factor (N.to_nat (_nComp m)) y (N.to_nat (_nComp m)) y'.
Proof.
  intros Hlen. set (nC := N.to_nat (_nComp m)) in *.
  apply (for_loop_inv (initialised_upto factor nC y)).
  - split; [done|]. intros j. by rewrite decide_False by lia.
  - intros k r Hk [Hlr Hinv].
    destruct (lookup_lt_is_Some_2 y k) as [cin Hcin]; [lia|].
    rewrite (Hinv k), decide_False, Hcin by lia. simpl.
    rewrite wr_lt by lia. eexists. split; [done|].
    split; [by rewrite length_insert|].
    intros j. destruct (decide (j = nC + k)) as [->|Hne].
    + rewrite list_lookup_insert_eq, decide_True by lia.
      replace (nC + k - nC) with k by lia. by rewrite Hcin.
    + rewrite list_lookup_insert_ne by done. rewrite Hinv.
      destruct (decide (nC ≤ j < nC + k)).
      * by rewrite decide_True by lia.
      * by rewrite decide_False by lia.
Qed.

(** What holds for every model and every state: a call that
    returns keeps the size of the state and changes at most the [nComp]
    tank-concentration entries. *)
Lemma consistentInitialState_frame m y y' :
  consistentInitialState m y = Some y' →
  length y' = length y ∧
  ∀ k, k < N.to_nat (_nComp m) ∨ 2 * N.to_nat (_nComp m) ≤ k →
       y' !! k = y !! k.
Proof.
  unfold consistentInitialState.
  destruct (rdN y (_nComp m + _nComp m)) as [v|] eqn:Hv; [|done]. simpl.
  assert (2 * N.to_nat (_nComp m) < length y) as Hlen.
  { apply lookup_lt_Some in Hv. lia. }
  destruct (seqb v szero); [|by intros [= <-]].
  destruct (negb _); [|by intros [= <-]].
  match goal with |- for_loop ?b _ _ _ = _ → _ => set (body := b) end.
  destruct (consistentInitialState_loop m
              (_flowRateIn m ⊘ (_flowRateIn m ⊖ _flowRateOut m
                                ⊖ _curFlowRateFilter m ⊕ _flowRateOut m)) y)
    as (y1 & Hrun & Hlr & Hinv); [lia|].
  fold body in Hrun. rewrite Hrun. intros [= <-].
  split; [done|]. intros k Hk. rewrite Hinv. by rewrite decide_False by lia.
Qed.

End ConsistentInitialState.

(** For a model without bound states (the volume then is at
    [vecStateY[2 * nComp]]) and a state of at least [2 * nComp + 1] entries,
    [consistentInitialState] does what the spec says, on exact scalars. *)
Lemma consistentInitialState_without_bound_states (m : CSTRModel.t Qc)
    (y : list Qc) :
  CSTRModel._strideBound m = 0%N →
  2 * N.to_nat (CSTRModel._nComp m) < length y →
  CSTRModel.consistentInitialState m y = claimed_consistentInitialState m y.
Proof.
  intros HsB Hlen.
  unfold CSTRModel.consistentInitialState, claimed_consistentInitialState,
    volume_index, rdN.
  rewrite HsB.
  replace (N.to_nat (CSTRModel._nComp m + CSTRModel._nComp m))
    with (2 * N.to_nat (CSTRModel._nComp m) + N.to_nat 0) by lia.
  destruct (y !! _) as [v|]; [|done]. simpl.
  destruct (Qc_eq_bool v _); simpl; [|done].
  destruct (negb _); simpl; [|done].
  match goal with |- context [wr _ _ (_ * ?fac)%Qc] =>
    destruct (consistentInitialState_loop m fac y)
      as (y1 & Hrun & Hlr & Hinv); [lia|]
  end.
  simpl in Hrun. rewrite Hrun.
  f_equal. apply list_eq. intros j. rewrite Hinv, list_lookup_imap.
  destruct (decide (N.to_nat (CSTRModel._nComp m) ≤ j
                    < N.to_nat (CSTRModel._nComp m)
                      + N.to_nat (CSTRModel._nComp m))) as [Hj|Hj].
  - destruct (lookup_lt_is_Some_2 y j) as [yj ->]; [lia|].
    destruct (lookup_lt_is_Some_2 y (j - N.to_nat (CSTRModel._nComp m)))
      as [cin ->]; [lia|].
    simpl.
    destruct (_ <=? j) eqn:E1; [|apply Nat.leb_gt in E1; lia].
    destruct (j <? _) eqn:E2; [|apply Nat.ltb_ge in E2; lia].
    simpl. f_equal. unfold Qcdiv. ring.
  - destruct (y !! j) as [yj|]; [|done]. simpl.
    destruct (_ <=? j) eqn:E1; [|done].
    destruct (j <? _) eqn:E2; [|done].
    apply Nat.leb_le in E1. apply Nat.ltb_lt in E2. lia.
Qed.

(** For every scalar type: with [0] at [vecStateY[2 * nComp]] and a nonzero
    denominator, [consistentInitialTimeDerivative] returns; it stores
    [dV/dt] at [vecStateYdot[2 * nComp]], and for every component it zeroes
    the inlet slot and stores [0.0 * factor] in the tank slot, whatever
    [vecStateYdot] held on entry. *)
Lemma consistentInitialTimeDerivative_zero_volume {R : Type} `{Scalar R}
    (m : CSTRModel.t R) (y yd : list R) (v : R) :
  let nC := N.to_nat (CSTRModel._nComp m) in
  let vDot := CSTRModel._flowRateIn m ⊖ CSTRModel._flowRateOut m
              ⊖ CSTRModel._curFlowRateFilter m in
  let denom := stwo ⊗ vDot ⊕ CSTRModel._flowRateOut m in
  y !! (2 * nC) = Some v → seqb v szero = true → seqb denom szero = false →
  2 * nC < length yd →
  ∃ yd',
    CSTRModel.consistentInitialTimeDerivative m y yd = Some yd' ∧
    derivative_zeroed_upto (CSTRModel._flowRateIn m ⊘ denom) nC
      (<[2 * nC := vDot]> yd) nC yd'.
Proof.
  intros nC vDot denom Hv Hzero Hdenom Hlen.
  unfold CSTRModel.consistentInitialTimeDerivative, rdN, wrN.
  replace (N.to_nat (CSTRModel._nComp m + CSTRModel._nComp m))
    with (2 * nC) by lia.
  rewrite Hv. simpl. rewrite wr_lt by lia. simpl.
  rewrite Hzero. fold vDot. fold denom. rewrite Hdenom. fold nC.
  apply (for_loop_inv (derivative_zeroed_upto
                         (CSTRModel._flowRateIn m ⊘ denom) nC
                         (<[2 * nC := vDot]> yd))).
  - split; [done|]. intros j. by rewrite !decide_False by lia.
  - intros k r Hk [Hlr Hinv]. rewrite length_insert in Hlr.
    rewrite wr_lt by lia. simpl.
    rewrite list_lookup_insert_eq by lia. simpl.
    rewrite wr_lt by (rewrite length_insert; lia).
    eexists. split; [done|].
    split; [by rewrite !length_insert|].
    intros j. destruct (decide (j = nC + k)) as [->|Hne].
    + rewrite list_lookup_insert_eq by (rewrite length_insert; lia).
      rewrite decide_False, decide_True by lia. done.
    + rewrite list_lookup_insert_ne by done.
      destruct (decide (j = k)) as [->|Hne'].
      * rewrite list_lookup_insert_eq by lia. by rewrite decide_True by lia.
      * rewrite list_lookup_insert_ne by done. rewrite Hinv.
        repeat case_decide; first [done | lia].
Qed.

(** ** Consistent initialisation: runs *)

(** The example of the spec: one component, no bound state, [flowIn = 2],
    [flowOut = 1], no filter, [V = 0], [c_in = 5].  The concentration
    becomes [5]. *)
Example consistentInitialState_spec_example :
  CSTRModel.consistentInitialState
    (configured pp_tank (Qc_of_Z 2) (Qc_of_Z 1))
    [Qc_of_Z 5; Qc_of_Z 0; Qc_of_Z 0]
  = Some [Qc_of_Z 5; Qc_of_Z 5; Qc_of_Z 0].
Proof. reflexivity. Qed.

(** The degenerate case of the spec: all flows zero, [V = 0]. *)
Example consistentInitialState_degenerate :
  CSTRModel.consistentInitialState
    (configured pp_tank (Qc_of_Z 0) (Qc_of_Z 0))
    [Qc_of_Z 5; Qc_of_Z 7; Qc_of_Z 0]
  = Some [Qc_of_Z 5; Qc_of_Z 7; Qc_of_Z 0].
Proof. reflexivity. Qed.

(** C2, at an input where it fails.  One component with one bound state;
    the state is [[c_in; c; q; V] = [5; 0; 1; 0]] with [flowIn = 2],
    [flowOut = 1] and no filter.  The tank volume is zero and
    [dV/dt + flowOut = 2], so the concentration should become
    [5 * 2 / 2 = 5].  The code reads [vecStateY[2 * nComp]], the bound state
    [q = 1], as the volume and leaves the state as it is. *)
Theorem consistentInitialState_bound_state_run :
  CSTRModel.consistentInitialState
    (configured pp_tank_bound (Qc_of_Z 2) (Qc_of_Z 1))
    [Qc_of_Z 5; Qc_of_Z 0; Qc_of_Z 1; Qc_of_Z 0]
  = Some [Qc_of_Z 5; Qc_of_Z 0; Qc_of_Z 1; Qc_of_Z 0] ∧
  claimed_consistentInitialState
    (configured pp_tank_bound (Qc_of_Z 2) (Qc_of_Z 1))
    [Qc_of_Z 5; Qc_of_Z 0; Qc_of_Z 1; Qc_of_Z 0]
  = Some [Qc_of_Z 5; Qc_of_Z 5; Qc_of_Z 1; Qc_of_Z 0].
Proof. run_exact. Qed.

(** C10, at an input where it fails.  The same model with the state
    [[c_in; c; q; V] = [5; 0; 0; 1]]: the volume is [1], so the state should
    stay as it is.  The code finds [0] at [vecStateY[2 * nComp]] (the bound
    state) and overwrites the concentration with [5]. *)
Theorem consistentInitialState_nonzero_volume_run :
  CSTRModel.consistentInitialState
    (configured pp_tank_bound (Qc_of_Z 2) (Qc_of_Z 1))
    [Qc_of_Z 5; Qc_of_Z 0; Qc_of_Z 0; Qc_of_Z 1]
  = Some [Qc_of_Z 5; Qc_of_Z 5; Qc_of_Z 0; Qc_of_Z 1] ∧
  claimed_consistentInitialState
    (configured pp_tank_bound (Qc_of_Z 2) (Qc_of_Z 1))
    [Qc_of_Z 5; Qc_of_Z 0; Qc_of_Z 0; Qc_of_Z 1]
  = Some [Qc_of_Z 5; Qc_of_Z 0; Qc_of_Z 0; Qc_of_Z 1].
Proof. run_exact. Qed.

(** Both runs on binary64. *)
Example consistentInitialState_runs_binary64 :
  CSTRModel.consistentInitialState
    (configured pp_tank_bound_binary64 2%float 1%float)
    [5%float; 0%float; 1%float; 0%float]
  = Some [5%float; 0%float; 1%float; 0%float] ∧
  CSTRModel.consistentInitialState
    (configured pp_tank_bound_binary64 2%float 1%float)
    [5%float; 0%float; 0%float; 1%float]
  = Some [5%float; 5%float; 0%float; 1%float].
Proof. run_exact. Qed.

(** C3, at an input where it fails.  One component, no bound state,
    [flowIn = 2], [flowOut = 1], no filter; the state is [[5; 0; 0]]
    ([V = 0]) and the supplied derivatives are [[3; 7; 9]], so
    [dc_in/dt = 3], [dV/dt = 1], [2*dV/dt + flowOut = 3] and the derivative
    of the concentration should be [2 * 3 / 3 = 2].  The code first writes
    [0] over the inflow derivative and multiplies that: the derivative of
    the concentration is [0]. *)
Theorem consistentInitialTimeDerivative_run :
  CSTRModel.consistentInitialTimeDerivative
    (configured pp_tank (Qc_of_Z 2) (Qc_of_Z 1))
    [Qc_of_Z 5; Qc_of_Z 0; Qc_of_Z 0] [Qc_of_Z 3; Qc_of_Z 7; Qc_of_Z 9]
  = Some [Qc_of_Z 0; Qc_of_Z 0; Qc_of_Z 1] ∧
  claimed_tank_derivative
    (configured pp_tank (Qc_of_Z 2) (Qc_of_Z 1))
    [Qc_of_Z 3; Qc_of_Z 7; Qc_of_Z 9] 0
  = Qc_of_Z 2.
Proof. run_exact. Qed.

Example consistentInitialTimeDerivative_run_binary64 :
  CSTRModel.consistentInitialTimeDerivative
    (configured pp_tank_binary64 2%float 1%float)
    [5%float; 0%float; 0%float] [3%float; 7%float; 9%float]
  = Some [0%float; 0%float; 1%float].
Proof. reflexivity. Qed.

(** ** Residual: models without bound states *)

Section TankBlock.
Context {R : Type} `{Scalar R}.
Import CSTRModel.
Implicit Types (m : CSTRModel.t R) (y yd res : list R).

Lemma tank_loop_without_bound_states m timeFactor y yd v vDot res0 :
  (_nComp m < 2 ^ 32)%N →
  (∀ i, i < N.to_nat (_nComp m) →
        _nBound m !! i = Some 0%N ∧ is_Some (_boundOffset m !! i)) →
  2 * N.to_nat (_nComp m) ≤ length y →
  2 * N.to_nat (_nComp m) ≤ length yd →
  2 * N.to_nat (_nComp m) ≤ length res0 →
  ∀ n fuel (i : N) res,
    N.to_nat (_nComp m) = N.to_nat i + n → n < fuel →
    tank_filled_upto m timeFactor y yd v vDot res0 (N.to_nat i) res →
    ∃ res',
      tank_loop fuel m timeFactor y (Some yd) v vDot (_flowRateIn m)
        (_flowRateOut m) (sone ⊘ _porosity m ⊖ sone) i res = Some res' ∧
      tank_filled_upto m timeFactor y yd v vDot res0 (N.to_nat (_nComp m)) res'.
Proof.
  intros HnC Hnb Hy Hyd Hres0.
  set (nC := N.to_nat (_nComp m)) in *.
  induction n as [|n IH]; intros fuel i res Hi Hfuel [Hlr Hinv];
    (destruct fuel as [|fuel]; [lia|]); simpl.
  - replace (i <? _nComp m)%N with false by (symmetry; apply N.ltb_ge; lia).
    exists res. split; [done|]. split; [done|].
    replace nC with (N.to_nat i) by lia. done.
  - replace (i <? _nComp m)%N with true by (symmetry; apply N.ltb_lt; lia).
    assert (Hk : N.to_nat (_nComp m + i) = nC + N.to_nat i) by lia.
    destruct (Hnb (N.to_nat i)) as [Hnbi [bo Hbo]]; [lia|].
    destruct (lookup_lt_is_Some_2 yd (nC + N.to_nat i)) as [cd Hcd]; [lia|].
    destruct (lookup_lt_is_Some_2 y (nC + N.to_nat i)) as [ci Hci]; [lia|].
    destruct (lookup_lt_is_Some_2 y (N.to_nat i)) as [cin Hcin]; [lia|].
    unfold wrN, rdN. rewrite Hk, Hnbi, Hbo.
    rewrite wr_lt by lia. simpl.
    replace (0 <? 0)%N with false by done.
    replace (i <? 0)%N with false by (symmetry; apply N.ltb_ge; lia).
    simpl. rewrite Hk, Hcd. simpl.
    rewrite list_lookup_insert_eq by lia. simpl. rewrite Hci. simpl.
    rewrite wr_lt by (rewrite length_insert; lia). simpl.
    rewrite Hk, list_lookup_insert_eq by (rewrite length_insert; lia). simpl.
    rewrite Hcin. simpl. rewrite Hci. simpl.
    rewrite wr_lt by (rewrite !length_insert; lia). simpl.
    assert (Hnext : uadd i 1 = (i + 1)%N) by (apply u32_small; lia).
    rewrite Hnext. apply IH; [lia|lia|].
    split; [by rewrite !length_insert|].
    intros k. replace (N.to_nat (i + 1)) with (S (N.to_nat i)) by lia.
    destruct (decide (k = nC + N.to_nat i)) as [->|Hne].
    + rewrite list_lookup_insert_eq by (rewrite !length_insert; lia).
      rewrite decide_True by lia. f_equal.
      unfold tank_value_unsummed. fold nC.
      replace (nC + N.to_nat i - nC) with (N.to_nat i) by lia.
      rewrite Hcd, Hci, Hcin. reflexivity.
    + rewrite !list_lookup_insert_ne by done. rewrite Hinv.
      unfold nC in *. repeat case_decide; first [done | lia].
Qed.

(** For every scalar type: in a model whose components have no bound state,
    the tank block returns, fills [resC[i]] for every component and touches
    nothing else. *)
Lemma residual_tank_block_without_bound_states m timeFactor y yd v vDot res :
  (_nComp m < 2 ^ 32)%N →
  (∀ i, i < N.to_nat (_nComp m) →
        _nBound m !! i = Some 0%N ∧ is_Some (_boundOffset m !! i)) →
  2 * N.to_nat (_nComp m) ≤ length y →
  2 * N.to_nat (_nComp m) ≤ length yd →
  2 * N.to_nat (_nComp m) ≤ length res →
  ∃ res',
    residual_tank_block m timeFactor y (Some yd) v vDot res = Some res' ∧
    tank_filled_upto m timeFactor y yd v vDot res (N.to_nat (_nComp m)) res'.
Proof.
  intros HnC Hnb Hy Hyd Hres. unfold residual_tank_block.
  apply (tank_loop_without_bound_states m timeFactor y yd v vDot res
           HnC Hnb Hy Hyd Hres (N.to_nat (_nComp m))); [lia|lia|].
  split; [done|]. intros k. by rewrite decide_False by lia.
Qed.

End TankBlock.

(** On exact scalars that value is the residual of the spec: with no bound
    state the sum over the bound-state derivatives is empty. *)
Lemma tank_value_unsummed_claimed (m : CSTRModel.t Qc) timeFactor y yd i :
  CSTRModel._nBound m !! i = Some 0%N →
  tank_value_unsummed m timeFactor y yd
    (default szero (y !! volume_index m)) (default szero (yd !! volume_index m))
    i
  = claimed_tank_residual m timeFactor y yd i.
Proof.
  intros Hnb. unfold tank_value_unsummed, claimed_tank_residual, qDot_sum.
  rewrite Hnb. simpl. change (Qc_of_Z 0) with 0%Qc. ring.
Qed.

(** ** Residual: runs *)

(** C1, at an input where it fails.  One component with one bound state,
    porosity [1/2] (so [1/porosity - 1 = 1]), [flowIn = 13], [flowOut = 19],
    time factor [1]; [y = [c_in; c; q; V] = [17; 11; 23; 2]] and
    [yDot = [_; dc/dt; dq/dt; dV/dt] = [0; 3; 5; 7]].  The residual of the
    tank concentration should be
    [((3 + 1*5) * 2 + 7*11) * 1 - 13*17 + 19*11 = 81].
    The inner loop advances the component index [i] instead of [j]: it adds
    [dq/dt = 5] to [resC[0]] and leaves with [i = 1], so the scaling and the
    flow terms are applied to [resC[1]], the slot of the bound state.  The
    residual of the tank concentration is left at [5]. *)
Theorem residual_tank_block_run :
  CSTRModel.residual_tank_block
    (configured pp_tank_bound (Qc_of_Z 13) (Qc_of_Z 19)) (Qc_of_Z 1)
    [Qc_of_Z 17; Qc_of_Z 11; Qc_of_Z 23; Qc_of_Z 2]
    (Some [Qc_of_Z 0; Qc_of_Z 3; Qc_of_Z 5; Qc_of_Z 7])
    (Qc_of_Z 2) (Qc_of_Z 7)
    [Qc_of_Z 17; Qc_of_Z 0; Qc_of_Z 0; Qc_of_Z 0]
  = Some [Qc_of_Z 17; Qc_of_Z 5; Qc_of_Z 465; Qc_of_Z 0] ∧
  (λ r, (r.1.2, r.2)) <$>
    CSTRModel.residualImpl false
      (configured pp_tank_bound (Qc_of_Z 13) (Qc_of_Z 19))
      (Qc_of_Z 0) 0%N (Qc_of_Z 1)
      [Qc_of_Z 17; Qc_of_Z 11; Qc_of_Z 23; Qc_of_Z 2]
      (Some [Qc_of_Z 0; Qc_of_Z 3; Qc_of_Z 5; Qc_of_Z 7])
      [Qc_of_Z 0; Qc_of_Z 0; Qc_of_Z 0; Qc_of_Z 0]
  = Some ([Qc_of_Z 17; Qc_of_Z 5; Qc_of_Z 465; Qc_of_Z 13], 0%Z) ∧
  claimed_tank_residual
    (configured pp_tank_bound (Qc_of_Z 13) (Qc_of_Z 19)) (Qc_of_Z 1)
    [Qc_of_Z 17; Qc_of_Z 11; Qc_of_Z 23; Qc_of_Z 2]
    [Qc_of_Z 0; Qc_of_Z 3; Qc_of_Z 5; Qc_of_Z 7] 0
  = Qc_of_Z 81.
Proof. run_exact. Qed.

(** A second input: two components, only the second one with a bound state
    ([nBound = [0; 1]]).  For the second component the test [i < nBound] is
    [1 < 1], the loop is not entered and [dq/dt] is left out of the
    residual: [((3 + 1*0) * 2 + 7*11) - 13*17 + 19*11 = 71] instead of
    [81]. *)
Example residual_tank_block_second_component_run :
  CSTRModel.residual_tank_block
    (configured pp_tank_second_bound (Qc_of_Z 13) (Qc_of_Z 19)) (Qc_of_Z 1)
    [Qc_of_Z 0; Qc_of_Z 17; Qc_of_Z 0; Qc_of_Z 11; Qc_of_Z 23; Qc_of_Z 2]
    (Some [Qc_of_Z 0; Qc_of_Z 0; Qc_of_Z 0; Qc_of_Z 3; Qc_of_Z 5; Qc_of_Z 7])
    (Qc_of_Z 2) (Qc_of_Z 7)
    [Qc_of_Z 0; Qc_of_Z 0; Qc_of_Z 0; Qc_of_Z 0; Qc_of_Z 0; Qc_of_Z 0]
  = Some [Qc_of_Z 0; Qc_of_Z 0; Qc_of_Z 0; Qc_of_Z 71; Qc_of_Z 0; Qc_of_Z 0] ∧
  claimed_tank_residual
    (configured pp_tank_second_bound (Qc_of_Z 13) (Qc_of_Z 19)) (Qc_of_Z 1)
    [Qc_of_Z 0; Qc_of_Z 17; Qc_of_Z 0; Qc_of_Z 11; Qc_of_Z 23; Qc_of_Z 2]
    [Qc_of_Z 0; Qc_of_Z 0; Qc_of_Z 0; Qc_of_Z 3; Qc_of_Z 5; Qc_of_Z 7] 1
  = Qc_of_Z 81.
Proof. run_exact. Qed.

Example residual_tank_block_run_binary64 :
  CSTRModel.residual_tank_block
    (configured pp_tank_bound_binary64 13%float 19%float) 1%float
    [17%float; 11%float; 23%float; 2%float]
    (Some [0%float; 3%float; 5%float; 7%float]) 2%float 7%float
    [17%float; 0%float; 0%float; 0%float]
  = Some [17%float; 5%float; 465%float; 0%float].
Proof. reflexivity. Qed.

(** ** [linearSolve] *)

Section LinearSolve.
Context {R : Type} `{Scalar R}.
Import CSTRModel.
Variable factorize : DenseMatrix.t R → DenseMatrix.t R * bool.
Variable solve : DenseMatrix.t R → list R → list R * bool.
Implicit Types (m : CSTRModel.t R) (rhs y : list R).

Lemma backsubstitute_body_step m rhs k r :
  (2 * _nComp m ≤ 2 ^ 32)%N →
  2 * N.to_nat (_nComp m) ≤ length rhs →
  k < N.to_nat (_nComp m) →
  backsubstituted_upto (_flowRateIn m) (N.to_nat (_nComp m)) rhs k r →
  ∃ r', backsubstitute_body m k r = Some r' ∧
        backsubstituted_upto (_flowRateIn m) (N.to_nat (_nComp m)) rhs (S k) r'.
Proof.
  intros Hfit Hlen Hk [Hlr Hinv]. unfold backsubstitute_body.
  set (nC := N.to_nat (_nComp m)) in *.
  assert (Hidx : N.to_nat (uadd (N.of_nat k) (_nComp m)) = nC + k).
  { unfold uadd. rewrite u32_small by lia. lia. }
  unfold rdN, wrN. rewrite Hidx.
  destruct (lookup_lt_is_Some_2 rhs (nC + k)) as [a Ha]; [lia|].
  destruct (lookup_lt_is_Some_2 rhs k) as [b Hb]; [lia|].
  rewrite (Hinv (nC + k)), decide_False, Ha by lia. simpl.
  rewrite (Hinv k), decide_False, Hb by lia. simpl.
  rewrite wr_lt by lia. eexists. split; [done|].
  split; [by rewrite length_insert|].
  intros j. destruct (decide (j = nC + k)) as [->|Hne].
  - rewrite list_lookup_insert_eq by lia.
    rewrite decide_True by lia. rewrite Ha. simpl.
    replace (nC + k - nC) with k by lia. by rewrite Hb.
  - rewrite list_lookup_insert_ne by done. rewrite Hinv.
    destruct (decide (nC ≤ j < nC + k)).
    + by rewrite decide_True by lia.
    + by rewrite decide_False by lia.
Qed.

(** The back-substitution returns; it adds [flowIn * rhs[i]] to the tank
    entry [rhs[nComp + i]] of every component and changes nothing else. *)
Lemma backsubstitute_spec m rhs :
  (2 * _nComp m ≤ 2 ^ 32)%N →
  2 * N.to_nat (_nComp m) ≤ length rhs →
  ∃ rhs1, backsubstitute m rhs = Some rhs1 ∧
    backsubstituted_upto (_flowRateIn m) (N.to_nat (_nComp m)) rhs
      (N.to_nat (_nComp m)) rhs1.
Proof.
  intros Hfit Hlen. unfold backsubstitute.
  destruct (for_loop_inv
              (backsubstituted_upto (_flowRateIn m) (N.to_nat (_nComp m)) rhs)
              (backsubstitute_body m) 0 (N.to_nat (_nComp m)) rhs)
    as (rhs1 & Hrun & Hinv).
  - split; [done|]. intros j. by rewrite decide_False by lia.
  - intros k r Hk Hr. apply backsubstitute_body_step; [done|done|lia|done].
  - by exists rhs1.
Qed.

(** Every call of [solve] that [linearSolve] makes is on the reduced part of
    the back-substituted right-hand side. *)
Lemma linearSolve_solves_backsubstituted m t timeFactor alpha tol rhs y rhs1
    m' rhs' ret calls :
  backsubstitute m rhs = Some rhs1 →
  linearSolve factorize solve m t timeFactor alpha tol rhs y
  = Some (m', rhs', ret, calls) →
  ∀ a r, Solve a r ∈ calls → r = drop (N.to_nat (_nComp m)) rhs1.
Proof.
  intros Hbs. unfold linearSolve. rewrite Hbs. simpl.
  destruct (_factorizeJac m).
  - destruct (DenseMatrix.copyFrom _ _) as [jf|]; [|done]. simpl.
    destruct (addTimeDerivativeJacobian _ _ _ _ _) as [jac|]; [|done]. simpl.
    destruct (factorize jf) as [lu ok]. simpl. destruct ok.
    + destruct (solve _ _) as [x ok']. intros [= <- <- <- <-] a r Hin.
      apply elem_of_cons in Hin as [Hin|Hin]; [done|].
      apply list_elem_of_singleton in Hin. by injection Hin as _ ->.
    + intros [= <- <- <- <-] a r Hin.
      apply list_elem_of_singleton in Hin. done.
  - simpl. destruct (solve _ _) as [x ok']. intros [= <- <- <- <-] a r Hin.
    apply list_elem_of_singleton in Hin. by injection Hin as _ ->.
Qed.

(** C5. For a model whose [2 * nComp] fits into 32 bits, a right-hand side
    with at least [2 * nComp] entries and, when the flag [_factorizeJac] is
    set, matrices on which the copy and [addTimeDerivativeJacobian] are
    defined: [linearSolve] returns, and there is a vector [rhs1] of the size
    of [rhs] in which, for every component [i], the tank entry is
    [rhs[nComp + i] + flowIn * rhs[i]] and every other entry is the one of
    [rhs], such that every call of [solve] is on [rhs1 + nComp] and either
    the last call is that [solve], whose result is left behind the inlet
    entries of [rhs1], or a factorisation failed, no [solve] was called, the
    return code is [1] and [rhs] is left as [rhs1].  The elimination is done
    in either case: it comes before the factorisation and the solve. *)
Theorem linearSolve_backsubstitutes_first m t timeFactor alpha tol rhs y :
  (2 * _nComp m ≤ 2 ^ 32)%N →
  2 * N.to_nat (_nComp m) ≤ length rhs →
  (_factorizeJac m = true →
   is_Some (DenseMatrix.copyFrom (_jacFact m) (_jac m)) ∧
   is_Some (addTimeDerivativeJacobian m t timeFactor y (_jac m))) →
  ∃ rhs1 m' rhs' ret calls,
    length rhs1 = length rhs ∧
    (∀ i a b, i < N.to_nat (_nComp m) →
       rhs !! i = Some a → rhs !! (N.to_nat (_nComp m) + i) = Some b →
       rhs1 !! (N.to_nat (_nComp m) + i) = Some (b ⊕ _flowRateIn m ⊗ a)) ∧
    (∀ k, k < N.to_nat (_nComp m) ∨ 2 * N.to_nat (_nComp m) ≤ k →
       rhs1 !! k = rhs !! k) ∧
    linearSolve factorize solve m t timeFactor alpha tol rhs y
    = Some (m', rhs', ret, calls) ∧
    (∀ a r, Solve a r ∈ calls → r = drop (N.to_nat (_nComp m)) rhs1) ∧
    ((∃ a pre,
        calls = pre ++ [Solve a (drop (N.to_nat (_nComp m)) rhs1)] ∧
        (∀ b r, Solve b r ∉ pre) ∧
        rhs' = take (N.to_nat (_nComp m)) rhs1
               ++ (solve a (drop (N.to_nat (_nComp m)) rhs1)).1)
     ∨ (∃ a, calls = [Factorize a] ∧ (factorize a).2 = false ∧
             ret = 1%Z ∧ rhs' = rhs1)).
Proof.
  intros Hfit Hlen Hjac.
  destruct (backsubstitute_spec m rhs Hfit Hlen) as (rhs1 & Hrun & Hlr & Hinv).
  assert (∀ i a b, i < N.to_nat (_nComp m) →
            rhs !! i = Some a → rhs !! (N.to_nat (_nComp m) + i) = Some b →
            rhs1 !! (N.to_nat (_nComp m) + i) = Some (b ⊕ _flowRateIn m ⊗ a))
    as Htank.
  { intros i a b Hi Ha Hb. rewrite Hinv, decide_True by lia.
    rewrite Hb. simpl.
    replace (N.to_nat (_nComp m) + i - N.to_nat (_nComp m)) with i by lia.
    by rewrite Ha. }
  assert (∀ k, k < N.to_nat (_nComp m) ∨ 2 * N.to_nat (_nComp m) ≤ k →
            rhs1 !! k = rhs !! k) as Hframe.
  { intros k Hk. rewrite Hinv. by rewrite decide_False by lia. }
  exists rhs1. unfold linearSolve. rewrite Hrun. simpl.
  destruct (_factorizeJac m) eqn:Hflag.
  - destruct Hjac as [[jf ->] [jac ->]]; [done|]. simpl.
    destruct (factorize jf) as [lu ok] eqn:Hf. simpl. destruct ok.
    + destruct (solve lu (drop (N.to_nat (_nComp m)) rhs1)) as [x ok'] eqn:Hs.
      eexists _, _, _, _. split_and!; [done|done|done|done| |].
      * intros a r Hin. apply elem_of_cons in Hin as [Hin|Hin]; [done|].
        apply list_elem_of_singleton in Hin. by injection Hin as _ ->.
      * left. exists lu, [Factorize jf]. split_and!; [done| |by rewrite Hs].
        intros b r Hin. apply list_elem_of_singleton in Hin. done.
    + eexists _, _, _, _. split_and!; [done|done|done|done| |].
      * intros a r Hin. apply list_elem_of_singleton in Hin. done.
      * right. exists jf. split_and!; [done|by rewrite Hf|done|done].
  - simpl.
    destruct (solve (_jacFact m) (drop (N.to_nat (_nComp m)) rhs1))
      as [x ok'] eqn:Hs.
    eexists _, _, _, _. split_and!; [done|done|done|done| |].
    + intros a r Hin. apply list_elem_of_singleton in Hin.
      by injection Hin as _ ->.
    + left. exists (_jacFact m), []. split_and!; [done| |by rewrite Hs].
      intros b r Hin. inversion Hin.
Qed.

(** [linearSolve] leaves the flag cleared; with the flag clear on entry it
    does not factorise. *)
Lemma linearSolve_clears_flag m t timeFactor alpha tol rhs y m' rhs' ret calls :
  linearSolve factorize solve m t timeFactor alpha tol rhs y
  = Some (m', rhs', ret, calls) →
  _factorizeJac m' = false ∧
  (_factorizeJac m = false →
   m' = m ∧ ∀ a, Factorize a ∉ calls).
Proof.
  unfold linearSolve. destruct (backsubstitute m rhs); [|done]. simpl.
  destruct (_factorizeJac m) eqn:Hflag.
  - destruct (DenseMatrix.copyFrom _ _) as [jf|]; [|done]. simpl.
    destruct (addTimeDerivativeJacobian _ _ _ _ _) as [jac|]; [|done]. simpl.
    destruct (factorize jf) as [lu ok]. simpl. destruct ok.
    + destruct (solve _ _) as [x ok']. by intros [= <- <- <- <-].
    + by intros [= <- <- <- <-].
  - simpl. destruct (solve _ _) as [x ok']. intros [= <- <- <- <-].
    split; [done|]. intros _. split; [done|].
    intros a Hin. apply list_elem_of_singleton in Hin. done.
Qed.

(** With the flag set, the matrix handed to [factorize] is the copy of the
    stored state Jacobian [_jac], taken before the time-derivative entries
    are written; these are written to [_jac] itself. *)
Lemma linearSolve_factorizes_copy m t timeFactor alpha tol rhs y m' rhs' ret
    calls :
  _factorizeJac m = true →
  linearSolve factorize solve m t timeFactor alpha tol rhs y
  = Some (m', rhs', ret, calls) →
  ∃ rest,
    calls = Factorize
              {| DenseMatrix._rows := DenseMatrix._rows (_jacFact m);
                 DenseMatrix._cols := DenseMatrix._cols (_jacFact m);
                 DenseMatrix._data := DenseMatrix._data (_jac m) |} :: rest ∧
    addTimeDerivativeJacobian m t timeFactor y (_jac m) = Some (_jac m').
Proof.
  intros Hflag. unfold linearSolve.
  destruct (backsubstitute m rhs); [|done]. simpl. rewrite Hflag.
  unfold DenseMatrix.copyFrom.
  destruct (_ && _)%bool; [|done]. simpl.
  destruct (addTimeDerivativeJacobian _ _ _ _ _) as [jac|]; [|done]. simpl.
  destruct (factorize _) as [lu ok]. simpl. destruct ok.
  - destruct (solve _ _) as [x ok']. intros [= <- <- <- <-]. by eexists.
  - intros [= <- <- <- <-]. by eexists.
Qed.

End LinearSolve.

(** A residual evaluation that updates the Jacobian sets the flag. *)
Lemma residual_sets_flag {R : Type} `{Scalar R} chk active
    (m m' : CSTRModel.t R) t secIdx timeFactor y yDot res res' ret
    paramSensitivity :
  CSTRModel.residual chk active m t secIdx timeFactor y yDot res true
    paramSensitivity = Some (m', res', ret) →
  CSTRModel._factorizeJac m' = true.
Proof.
  unfold CSTRModel.residual, CSTRModel.residual_via_active,
    CSTRModel.residualImpl.
  intros Hr.
  repeat match type of Hr with
  | context [if ?b then _ else _] => destruct b
  end;
  repeat match type of Hr with
  | (?o ≫= _) = Some _ =>
      let E := fresh in destruct o as [?|] eqn:E; simpl in Hr; [|done]
  | (let '(_, _) := ?p in _) = Some _ => destruct p; simpl in Hr
  | (match ?p with (_, _) => _ end) = Some _ => destruct p; simpl in Hr
  end;
  by injection Hr as <- _ _.
Qed.

(** A residual evaluation that does not update the Jacobian leaves the flag
    as it is. *)
Lemma residual_keeps_flag {R : Type} `{Scalar R} chk active
    (m m' : CSTRModel.t R) t secIdx timeFactor y yDot res res' ret
    paramSensitivity :
  CSTRModel.residual chk active m t secIdx timeFactor y yDot res false
    paramSensitivity = Some (m', res', ret) →
  CSTRModel._factorizeJac m' = CSTRModel._factorizeJac m.
Proof.
  unfold CSTRModel.residual, CSTRModel.residual_via_active,
    CSTRModel.residualImpl.
  intros Hr.
  repeat match type of Hr with
  | context [if ?b then _ else _] => destruct b
  end;
  repeat match type of Hr with
  | (?o ≫= _) = Some _ =>
      let E := fresh in destruct o as [?|] eqn:E; simpl in Hr; [|done]
  | (let '(_, _) := ?p in _) = Some _ => destruct p; simpl in Hr
  | (match ?p with (_, _) => _ end) = Some _ => destruct p; simpl in Hr
  end;
  by injection Hr as <- _ _.
Qed.

(** [linearSolve] returns as soon as its accesses are inside the buffers:
    the factorisation and the solve report failure by their result. *)
Lemma linearSolve_defined {R : Type} `{Scalar R} factorize solve
    (m : CSTRModel.t R) t timeFactor alpha tol rhs y :
  is_Some (CSTRModel.backsubstitute m rhs) →
  (CSTRModel._factorizeJac m = true →
   is_Some (DenseMatrix.copyFrom (CSTRModel._jacFact m) (CSTRModel._jac m)) ∧
   is_Some (CSTRModel.addTimeDerivativeJacobian m t timeFactor y
              (CSTRModel._jac m))) →
  is_Some (CSTRModel.linearSolve factorize solve m t timeFactor alpha tol rhs y).
Proof.
  intros [rhs1 Hbs] Hfact. unfold CSTRModel.linearSolve. rewrite Hbs. simpl.
  destruct (CSTRModel._factorizeJac m).
  - destruct Hfact as [[jf ->] [jac ->]]; [done|]. simpl.
    destruct (factorize jf) as [lu ok]. simpl. destruct ok; [|done].
    by destruct (solve _ _).
  - simpl. by destruct (solve _ _).
Qed.

(** The example of the spec: one component,
    [rhs_inlet = [2]], [rhs_tank = [3]], [flowIn = 13]; the tank entry
    becomes [3 + 13 * 2 = 29]. *)
Example backsubstitute_run :
  CSTRModel.backsubstitute (configured pp_tank (Qc_of_Z 13) (Qc_of_Z 19))
    [Qc_of_Z 2; Qc_of_Z 3; Qc_of_Z 5]
  = Some [Qc_of_Z 2; Qc_of_Z 29; Qc_of_Z 5].
Proof. run_exact. Qed.

Lemma linearSolve_backsubstitutes_first_witness :
  ∃ rhs1 m' rhs' ret calls,
    length rhs1 = 3 ∧
    rhs1 !! 1 = Some (Qc_of_Z 3 ⊕ Qc_of_Z 13 ⊗ Qc_of_Z 2) ∧
    rhs1 !! 0 = Some (Qc_of_Z 2) ∧ rhs1 !! 2 = Some (Qc_of_Z 5) ∧
    CSTRModel.linearSolve (λ a, (a, true)) (λ _ r, (r, true))
      (CSTRModel.set_factorizeJac
         (configured pp_tank (Qc_of_Z 13) (Qc_of_Z 19)) true)
      szero sone sone szero
      [Qc_of_Z 2; Qc_of_Z 3; Qc_of_Z 5] [szero; szero; sone]
    = Some (m', rhs', ret, calls) ∧
    (∀ a r, CSTRModel.Solve a r ∈ calls → r = drop 1 rhs1) ∧
    (∃ a r, CSTRModel.Solve a r ∈ calls).
Proof.
  destruct (linearSolve_backsubstitutes_first (λ a, (a, true))
              (λ _ r, (r, true))
              (CSTRModel.set_factorizeJac
                 (configured pp_tank (Qc_of_Z 13) (Qc_of_Z 19)) true)
              szero sone sone szero
              [Qc_of_Z 2; Qc_of_Z 3; Qc_of_Z 5] [szero; szero; sone])
    as (rhs1 & m' & rhs' & ret & calls & Hlen & Htank & Hframe & Hls & Hsolve
        & Hlast).
  - vm_compute. discriminate.
  - vm_compute. lia.
  - intros _. vm_compute. split; eexists; reflexivity.
  - exists rhs1, m', rhs', ret, calls. split_and!.
    + exact Hlen.
    + apply (Htank 0 (Qc_of_Z 2) (Qc_of_Z 3)); [vm_compute; lia|reflexivity..].
    + apply (Hframe 0). left. vm_compute. lia.
    + apply (Hframe 2). right. vm_compute. lia.
    + exact Hls.
    + exact Hsolve.
    + destruct Hlast as [(a & pre & -> & _)|(a & _ & Hfail & _)].
      * eexists _, _. apply elem_of_app. right.
        apply list_elem_of_singleton. reflexivity.
      * exfalso. simpl in Hfail. discriminate.
Defined.

(** C4, at an input where it fails.  One component, no bound state,
    porosity [1], [flowIn = 13], [flowOut = 19], time factor [1];
    [y = [c_in; c; V] = [17; 11; 2]] and [yDot = [0; 3; 7]].  A residual
    evaluation with Jacobian update stores the state Jacobian
    [[26 3; 0 0]] and sets the flag.  The time-derivative contribution is
    [[2 11; 0 1]], so the combined Jacobian is [[28 14; 0 1]].
    [linearSolve] copies the stored state Jacobian to [_jacFact], writes the
    time-derivative entries into [_jac] and factorises [_jacFact]: the
    matrix handed to [factorize] is [[26 3; 0 0]], whatever [factorize] and
    [solve] do. *)
Theorem linearSolve_factorizes_state_jacobian_run :
  ∀ (active : CSTRModel.t Qc → Qc → N → Qc → list Qc → option (list Qc)
              → list Qc → bool → bool
              → option (DenseMatrix.t Qc * list Qc * Z))
    (factorize : DenseMatrix.t Qc → DenseMatrix.t Qc * bool)
    (solve : DenseMatrix.t Qc → list Qc → list Qc * bool),
  ∃ m1 res,
    CSTRModel.residual false active
      (configured pp_tank (Qc_of_Z 13) (Qc_of_Z 19)) (Qc_of_Z 0) 0%N
      (Qc_of_Z 1) [Qc_of_Z 17; Qc_of_Z 11; Qc_of_Z 2]
      (Some [Qc_of_Z 0; Qc_of_Z 3; Qc_of_Z 7])
      [Qc_of_Z 0; Qc_of_Z 0; Qc_of_Z 0] true false
    = Some (m1, res, 0%Z) ∧
    CSTRModel._factorizeJac m1 = true ∧
    DenseMatrix._data (CSTRModel._jac m1)
    = [Qc_of_Z 26; Qc_of_Z 3; Qc_of_Z 0; Qc_of_Z 0] ∧
    DenseMatrix._data <$>
      combined_jacobian m1 (Qc_of_Z 0) (Qc_of_Z 1)
        [Qc_of_Z 17; Qc_of_Z 11; Qc_of_Z 2]
    = Some [Qc_of_Z 28; Qc_of_Z 14; Qc_of_Z 0; Qc_of_Z 1] ∧
    ∃ m2 rhs' ret rest,
      CSTRModel.linearSolve factorize solve m1 (Qc_of_Z 0) (Qc_of_Z 1)
        (Qc_of_Z 1) (Qc_of_Z 0) [Qc_of_Z 2; Qc_of_Z 3; Qc_of_Z 5]
        [Qc_of_Z 17; Qc_of_Z 11; Qc_of_Z 2]
      = Some (m2, rhs', ret,
              CSTRModel.Factorize
                {| DenseMatrix._rows := 2; DenseMatrix._cols := 2;
                   DenseMatrix._data := DenseMatrix._data (CSTRModel._jac m1) |}
              :: rest) ∧
      DenseMatrix._data (CSTRModel._jac m2)
      = [Qc_of_Z 2; Qc_of_Z 11; Qc_of_Z 0; Qc_of_Z 1] ∧
      CSTRModel._factorizeJac m2 = false.
Proof.
  intros active factorize solve.
  eexists _, _. split; [reflexivity|].
  split; [reflexivity|]. split; [run_exact|]. split; [run_exact|].
  match goal with |- context [CSTRModel.linearSolve _ _ ?m1 ?t ?tf ?al ?tol ?rhs ?y] =>
    destruct (linearSolve_defined factorize solve m1 t tf al tol rhs y)
      as [[[[m2 rhs'] ret] calls] Hls];
      [ by eexists
      | intros _; split; by eexists
      | destruct (linearSolve_factorizes_copy factorize solve m1 t tf al tol
                    rhs y m2 rhs' ret calls eq_refl Hls) as (rest & -> & Hjac);
        destruct (linearSolve_clears_flag factorize solve m1 t tf al tol
                    rhs y m2 rhs' ret _ Hls) as [Hflag _] ]
  end.
  exists m2, rhs', ret, rest. split; [exact Hls|]. split; [|exact Hflag].
  assert (Some (CSTRModel._jac m2)
          = Some {| DenseMatrix._rows := 2; DenseMatrix._cols := 2;
                    DenseMatrix._data :=
                      [Qc_of_Z 2; Qc_of_Z 11; Qc_of_Z 0; Qc_of_Z 1] |}) as Heq.
  { rewrite <- Hjac. run_exact. }
  by injection Heq as ->.
Qed.

(** * Further properties *)

(** ** SparseMatrix: appending and looking up *)

Section SparseMatrixLookup.
Context {R : Type} `{Scalar R}.
Import SparseMatrix.
Implicit Types (m : SparseMatrix.t R) (x out : list R) (es : list (nat * nat * R)).

Lemma addElement_full m r c v :
  capacity m ≤ _curIdx m → addElement m r c v = None.
Proof.
  unfold capacity, addElement. intros Hfull. by rewrite decide_False by lia.
Qed.

Lemma find_from_Some m r c i n k :
  find_from m r c i n = Some k ↔
  i ≤ k < i + n ∧ _rows m !! k = Some r ∧ _cols m !! k = Some c ∧
  ∀ j, i ≤ j < k → ¬ (_rows m !! j = Some r ∧ _cols m !! j = Some c).
Proof.
  revert i. induction n as [|n IH]; intros i; simpl.
  - split; [done|]. intros [? _]. lia.
  - case_decide as Hi.
    + split.
      * intros [= <-]. split_and!; [lia|lia|tauto|tauto|]. intros j ?. lia.
      * intros (Hk & Hr & Hc & Hleast). f_equal.
        destruct (decide (i = k)); [done|]. destruct (Hleast i); [lia|done].
    + rewrite IH. split.
      * intros (Hk & Hr & Hc & Hleast). split_and!; [lia|lia|done|done|].
        intros j Hj. destruct (decide (j = i)) as [->|]; [done|].
        apply Hleast. lia.
      * intros (Hk & Hr & Hc & Hleast).
        assert (i ≠ k) by (intros ->; tauto).
        split_and!; [lia|lia|done|done|]. intros j Hj. apply Hleast. lia.
Qed.

Lemma find_from_None m r c i n :
  find_from m r c i n = None ↔
  ∀ j, i ≤ j < i + n → ¬ (_rows m !! j = Some r ∧ _cols m !! j = Some c).
Proof.
  revert i. induction n as [|n IH]; intros i; simpl.
  - split; [|done]. intros _ j ?. lia.
  - case_decide as Hi.
    + split; [done|]. intros Hno. destruct (Hno i); [lia|done].
    + rewrite IH. split.
      * intros Hno j Hj. destruct (decide (j = i)) as [->|]; [done|].
        apply Hno. lia.
      * intros Hno j Hj. apply Hno. lia.
Qed.

(** The scan of [operator()] finds the first stored triple at the
    position. *)
Lemma find_from_first_stored m r c :
  wf m →
  match first_stored (entries m) r c with
  | Some (k, v) =>
      find_from m r c 0 (_curIdx m) = Some k ∧ _values m !! k = Some v
  | None => find_from m r c 0 (_curIdx m) = None
  end.
Proof.
  intros Hwf. unfold first_stored.
  destruct (list_find _ (entries m)) as [[k [[r' c'] v]]|] eqn:Hfind; simpl.
  - apply list_find_Some in Hfind as (Hk & [= -> ->] & Hleast). simpl in *.
    pose proof Hk as Hk'.
    apply lookup_entries in Hk' as (Hlt & Hr & Hc & Hv).
    split; [|done]. apply find_from_Some.
    split_and!; [lia|lia|done|done|].
    intros j Hj [Hjr Hjc].
    destruct (lookup_lt_is_Some_2 (_values m) j) as [vj Hvj].
    { destruct Hwf as (_ & Hlv & Hle). lia. }
    apply (Hleast j (r, c, vj)); [|lia|done].
    apply lookup_entries. split_and!; [lia|done..].
  - apply list_find_None in Hfind. apply find_from_None.
    intros j Hj [Hjr Hjc].
    destruct (lookup_lt_is_Some_2 (_values m) j) as [vj Hvj].
    { destruct Hwf as (_ & Hlv & Hle). lia. }
    assert (entries m !! j = Some (r, c, vj)) as He
      by (apply lookup_entries; split_and!; [lia|done..]).
    by apply (Forall_lookup_1 _ _ _ _ Hfind He).
Qed.

(** X1. [addElement] on a matrix that satisfies the class invariant: with
    room left it returns, keeps the invariant and the capacity, raises
    [numNonZero] by one and appends the triple behind the stored ones,
    whether or not the position is already present; with the capacity
    exhausted it fails. *)
Theorem addElement_appends_or_fails m row col val :
  wf m →
  (_curIdx m < capacity m →
   ∃ m', addElement m row col val = Some m' ∧ wf m' ∧
         entries m' = entries m ++ [(row, col, val)] ∧
         numNonZero m' = S (numNonZero m) ∧ capacity m' = capacity m) ∧
  (capacity m ≤ _curIdx m → addElement m row col val = None).
Proof.
  intros Hwf. split.
  - intros Hroom.
    destruct (addElement_entries m row col val Hwf Hroom)
      as (m' & Hadd & Hwf' & Hes & Hcap).
    exists m'. split_and!; [done..| |done].
    unfold numNonZero. rewrite <- !length_entries by done.
    rewrite Hes, length_app. simpl. lia.
  - apply addElement_full.
Qed.

Lemma get_scan m row col :
  wf m →
  get m row col
  = Some (default szero (snd <$> first_stored (entries m) row col)).
Proof.
  intros Hwf. pose proof (find_from_first_stored m row col Hwf) as Hscan.
  unfold get.
  destruct (first_stored (entries m) row col) as [[k v]|]; simpl.
  - destruct Hscan as [-> ->]. done.
  - by rewrite Hscan.
Qed.

(** X2. The reading [operator()] on a matrix that satisfies the class
    invariant returns the value of the first stored triple at the position,
    and [0.0] when no triple is stored there.  With duplicates it is the
    first value, not their sum. *)
Theorem get_first_stored m row col :
  wf m →
  get m row col
  = Some (default szero (snd <$> first_stored (entries m) row col)).
Proof. apply get_scan. Qed.

(** X3. The writing [operator()] on a matrix that satisfies the class
    invariant: when a triple is stored at the position, the matrix is left
    as it is and the slot of the first such triple is returned; otherwise,
    with room left, the triple [(row, col, 0.0)] is appended and its slot
    returned, and reading the position afterwards gives [0.0]; otherwise,
    with the capacity exhausted, the call fails. *)
Theorem at_finds_or_appends m row col :
  wf m →
  (∀ k v, first_stored (entries m) row col = Some (k, v) →
     at_ m row col = Some (m, k) ∧ _values m !! k = Some v) ∧
  (first_stored (entries m) row col = None → _curIdx m < capacity m →
     ∃ m', at_ m row col = Some (m', _curIdx m) ∧ wf m' ∧
           entries m' = entries m ++ [(row, col, szero)] ∧
           _values m' !! _curIdx m = Some szero ∧
           get m' row col = Some szero) ∧
  (first_stored (entries m) row col = None → capacity m ≤ _curIdx m →
     at_ m row col = None).
Proof.
  intros Hwf. pose proof (find_from_first_stored m row col Hwf) as Hscan.
  unfold at_. split_and!.
  - intros k v Hfirst. rewrite Hfirst in Hscan. destruct Hscan as [-> Hv].
    done.
  - intros Hfirst Hroom. rewrite Hfirst in Hscan. rewrite Hscan.
    destruct (addElement_entries m row col szero Hwf Hroom)
      as (m' & -> & Hwf' & Hes & Hcap).
    simpl. exists m'. split_and!; [done..| |].
    + assert (entries m' !! _curIdx m = Some (row, col, szero)) as He.
      { rewrite Hes, lookup_app_r by (rewrite length_entries; [lia|done]).
        rewrite length_entries by done. by rewrite Nat.sub_diag. }
      by apply lookup_entries in He as (_ & _ & _ & ?).
    + rewrite (get_scan m' row col Hwf'). f_equal.
      unfold first_stored in *. rewrite Hes.
      destruct (list_find _ (entries m)) as [p|] eqn:Hf; [done|].
      rewrite (list_find_app_r _ _ _ Hf). simpl.
      rewrite decide_True by done. done.
  - intros Hfirst Hfull. rewrite Hfirst in Hscan. rewrite Hscan.
    by rewrite addElement_full.
Qed.

End SparseMatrixLookup.

Lemma wf_sm_duplicates : SparseMatrix.wf sm_duplicates.
Proof. unfold SparseMatrix.wf. simpl. lia. Qed.

Example sm_duplicates_populated :
  SparseMatrix.addElements (SparseMatrix.resize 3)
    [(0, 0, Qc_of_Z 2); (0, 0, Qc_of_Z 3)] = Some sm_duplicates.
Proof. reflexivity. Qed.

Lemma addElement_appends_or_fails_witness :
  ∃ m', SparseMatrix.addElement sm_duplicates 1 0 (Qc_of_Z 5) = Some m' ∧
        SparseMatrix.entries m'
        = SparseMatrix.entries sm_duplicates ++ [(1, 0, Qc_of_Z 5)] ∧
        SparseMatrix.numNonZero m' = 3 ∧ SparseMatrix.capacity m' = 3.
Proof.
  destruct (addElement_appends_or_fails sm_duplicates 1 0 (Qc_of_Z 5))
    as [Happend _].
  - unfold SparseMatrix.wf. simpl. lia.
  - destruct Happend as (m' & Hadd & _ & Hes & Hn & Hcap).
    + vm_compute. lia.
    + exists m'. split_and!; [exact Hadd|exact Hes|exact Hn|exact Hcap].
Defined.

Lemma get_first_stored_witness :
  SparseMatrix.get sm_duplicates 0 0 = Some (Qc_of_Z 2) ∧
  SparseMatrix.get sm_duplicates 1 0 = Some (Qc_of_Z 0).
Proof.
  split.
  - rewrite (get_first_stored sm_duplicates 0 0);
      [reflexivity|unfold SparseMatrix.wf; simpl; lia].
  - rewrite (get_first_stored sm_duplicates 1 0);
      [vm_compute; reflexivity|unfold SparseMatrix.wf; simpl; lia].
Defined.

Lemma at_finds_or_appends_witness :
  SparseMatrix.at_ sm_duplicates 0 0 = Some (sm_duplicates, 0) ∧
  ∃ m', SparseMatrix.at_ sm_duplicates 1 0 = Some (m', 2) ∧
        SparseMatrix.get m' 1 0 = Some (Qc_of_Z 0).
Proof.
  split.
  - destruct (at_finds_or_appends sm_duplicates 0 0) as (Hfound & _ & _).
    + unfold SparseMatrix.wf. simpl. lia.
    + apply (Hfound 0 (Qc_of_Z 2)). reflexivity.
  - destruct (at_finds_or_appends sm_duplicates 1 0) as (_ & Hnew & _).
    + unfold SparseMatrix.wf. simpl. lia.
    + destruct Hnew as (m' & Hat & _ & _ & _ & Hget);
        [reflexivity|vm_compute; lia|].
      exists m'. split; [exact Hat|exact Hget].
Defined.

(** ** SparseMatrix: the three products as passes over the triples *)

Section SparseMatrixPasses.
Context {R : Type} `{Scalar R}.
Import SparseMatrix.
Implicit Types (m : SparseMatrix.t R) (x out : list R) (es : list (nat * nat * R)).

Lemma multiplySubtract_fold m x out :
  wf m → multiplySubtract m x out = fold_opt (msub_step x) (entries m) out.
Proof.
  intros Hwf. unfold multiplySubtract. rewrite <- (length_entries m Hwf).
  apply for_loop_fold_opt. intros k [[r c] v] s' Hk.
  apply lookup_entries in Hk as (_ & Hr & Hc & Hv).
  unfold multiplySubtract_body, msub_step. simpl. by rewrite Hr, Hc, Hv.
Qed.

(** A pass of updates returns when the triples index [out] and [x], keeps
    the size of [out], and leaves in [out[r]] the updates of the triples of
    row [r] applied in insertion order; entries outside of [out] stay
    absent. *)
Lemma fold_update_rows (g : R → R → R → R) es x : ∀ out,
  Forall (λ e, e.1.1 < length out ∧ e.1.2 < length x) es →
  ∃ out', fold_opt (update_step g x) es out = Some out' ∧
          length out' = length out ∧
          ∀ r o, out !! r = Some o →
                 out' !! r
                 = Some (foldl (λ acc e, g acc e.2 (xval x e.1.2)) o
                               (filter (λ e, e.1.1 = r) es)).
Proof.
  induction es as [|[[r0 c0] v0] es IH]; intros out Hrange.
  - exists out. by split_and!.
  - apply Forall_cons in Hrange as [[Hr0 Hc0] Hrange]. simpl in Hr0, Hc0.
    destruct (lookup_lt_is_Some_2 x c0 Hc0) as [xc Hxc].
    destruct (lookup_lt_is_Some_2 out r0 Hr0) as [o0 Ho0].
    simpl. rewrite Hxc, Ho0. simpl. rewrite wr_lt by done. simpl.
    destruct (IH (<[r0:=g o0 v0 xc]> out)) as (out' & -> & Hlen & Hacc).
    { by rewrite length_insert. }
    exists out'. split_and!; [done|by rewrite Hlen, length_insert|].
    intros r o Hro. destruct (decide (r0 = r)) as [->|Hne].
    + rewrite filter_cons_True by done. simpl.
      replace (xval x c0) with xc by (unfold xval; by rewrite Hxc).
      apply Hacc. rewrite list_lookup_insert_eq by done. congruence.
    + rewrite filter_cons_False by (simpl; congruence).
      apply Hacc. by rewrite list_lookup_insert_ne.
Qed.

(** X5. [multiplyVector] on a matrix that satisfies the class invariant and
    whose triples index [out] and [x], for every scalar type: the call
    returns and keeps the size of [out]; every row receives one assignment
    [out[r] = alpha*v*x[c] + beta*out[r]] per triple of the row, in
    insertion order.  So a row without a triple keeps its value (it is not
    scaled by [beta]), and a row with exactly one triple [(r, c, v)] ends
    as [alpha*v*x[c] + beta*out[r]]. *)
Theorem multiplyVector_assigns_per_triple m x alpha beta out :
  wf m →
  Forall (λ e, e.1.1 < length out ∧ e.1.2 < length x) (entries m) →
  ∃ out',
    multiplyVector m x alpha beta out = Some out' ∧
    length out' = length out ∧
    (∀ r o, out !! r = Some o →
       out' !! r = Some (row_assign (entries m) x alpha beta r o)) ∧
    (∀ r, filter (λ e, e.1.1 = r) (entries m) = [] → out' !! r = out !! r) ∧
    (∀ r c v o, filter (λ e, e.1.1 = r) (entries m) = [(r, c, v)] →
       out !! r = Some o →
       out' !! r = Some (alpha ⊗ v ⊗ xval x c ⊕ beta ⊗ o)).
Proof.
  intros Hwf Hrange.
  destruct (fold_update_rows (λ o v xc, alpha ⊗ v ⊗ xc ⊕ beta ⊗ o)
              (entries m) x out Hrange) as (out' & Hrun & Hlen & Hrows).
  exists out'. split_and!; [|done|done| |].
  - by rewrite multiplyVector_fold.
  - intros r Hnone. destruct (out !! r) as [o|] eqn:Ho.
    + rewrite (Hrows r o Ho), Hnone. done.
    + apply lookup_ge_None. rewrite Hlen. by apply lookup_ge_None.
  - intros r c v o Hone Ho. rewrite (Hrows r o Ho), Hone. done.
Qed.

End SparseMatrixPasses.

Section SparseMatrixSubtract.
Context {R : Type} `{Scalar R}.
Import SparseMatrix.
Implicit Types (m : SparseMatrix.t R) (x out : list R).

(** X4. [multiplySubtract] on a matrix that satisfies the class invariant
    and whose triples index [out] and [x], for every scalar type, binary64
    included: the call returns and keeps the size of [out]; every row has
    the terms [v * x[c]] of its triples subtracted one after the other, in
    insertion order.  So a row without a triple keeps its value, and a row
    with exactly one triple [(r, c, v)] ends as [out[r] - v * x[c]]. *)
Theorem multiplySubtract_subtracts_per_triple m x out :
  wf m →
  Forall (λ e, e.1.1 < length out ∧ e.1.2 < length x) (entries m) →
  ∃ out',
    multiplySubtract m x out = Some out' ∧
    length out' = length out ∧
    (∀ r o, out !! r = Some o →
       out' !! r = Some (row_subtract (entries m) x r o)) ∧
    (∀ r, filter (λ e, e.1.1 = r) (entries m) = [] → out' !! r = out !! r) ∧
    (∀ r c v o, filter (λ e, e.1.1 = r) (entries m) = [(r, c, v)] →
       out !! r = Some o → out' !! r = Some (o ⊖ v ⊗ xval x c)).
Proof.
  intros Hwf Hrange.
  destruct (fold_update_rows (λ o v xc, o ⊖ v ⊗ xc) (entries m) x out Hrange)
    as (out' & Hrun & Hlen & Hrows).
  exists out'. split_and!; [|done|done| |].
  - rewrite multiplySubtract_fold by done. exact Hrun.
  - intros r Hnone. destruct (out !! r) as [o|] eqn:Ho.
    + rewrite (Hrows r o Ho), Hnone. done.
    + apply lookup_ge_None. rewrite Hlen. by apply lookup_ge_None.
  - intros r c v o Hone Ho. rewrite (Hrows r o Ho), Hone. done.
Qed.

End SparseMatrixSubtract.

(** On binary64: [-2^53 - 1 - 1] is [-2^53], each subtraction is rounded. *)
Lemma multiplySubtract_subtracts_per_triple_witness :
  ∃ out',
    SparseMatrix.multiplySubtract sm_ones_binary64 [1%float]
      [(-9007199254740992)%float] = Some out' ∧
    out' !! 0 = Some (-9007199254740992)%float.
Proof.
  destruct (multiplySubtract_subtracts_per_triple sm_ones_binary64 [1%float]
              [(-9007199254740992)%float])
    as (out' & Hrun & _ & Hrows & _).
  - unfold SparseMatrix.wf. simpl. lia.
  - repeat constructor; simpl; lia.
  - exists out'. split; [exact Hrun|].
    exact (Hrows 0 (-9007199254740992)%float eq_refl).
Defined.

Lemma multiplyVector_assigns_per_triple_witness :
  ∃ out',
    SparseMatrix.multiplyVector sm_duplicates [Qc_of_Z 7] (Qc_of_Z 1)
      (Qc_of_Z 2) [Qc_of_Z 1; Qc_of_Z 1] = Some out' ∧
    length out' = 2 ∧
    out' !! 0 = Some (row_assign (SparseMatrix.entries sm_duplicates)
                        [Qc_of_Z 7] (Qc_of_Z 1) (Qc_of_Z 2) 0 (Qc_of_Z 1)) ∧
    out' !! 1 = Some (Qc_of_Z 1).
Proof.
  destruct (multiplyVector_assigns_per_triple sm_duplicates [Qc_of_Z 7]
              (Qc_of_Z 1) (Qc_of_Z 2) [Qc_of_Z 1; Qc_of_Z 1])
    as (out' & Hrun & Hlen & Hrows & Hnone & _).
  - unfold SparseMatrix.wf. simpl. lia.
  - repeat constructor; simpl; lia.
  - exists out'. split_and!; [exact Hrun|exact Hlen| |].
    + apply Hrows. reflexivity.
    + rewrite Hnone; reflexivity.
Defined.

(** ** SparseMatrix: [clear] and the capacity *)

Section SparseMatrixCapacity.
Context {R : Type} `{Scalar R}.
Import SparseMatrix.
Implicit Types (m : SparseMatrix.t R) (es : list (nat * nat * R)).

Lemma addElements_capacity es : ∀ m m',
  wf m → addElements m es = Some m' → capacity m' = capacity m.
Proof.
  induction es as [|[[r c] v] es IH]; intros m m' Hwf; simpl.
  - by intros [= <-].
  - destruct (decide (_curIdx m < capacity m)) as [Hroom|Hfull].
    + destruct (addElement_entries m r c v Hwf Hroom)
        as (m1 & -> & Hwf1 & _ & Hcap1).
      simpl. intros Hrest. rewrite <- Hcap1. by apply IH.
    + rewrite addElement_full by lia. done.
Qed.

Lemma addElements_overflow es : ∀ m,
  wf m → capacity m < _curIdx m + length es → addElements m es = None.
Proof.
  induction es as [|[[r c] v] es IH]; intros m Hwf Hover; simpl in *.
  - destruct Hwf as (_ & _ & Hle). unfold capacity in Hover. lia.
  - destruct (decide (_curIdx m < capacity m)) as [Hroom|Hfull].
    + destruct (addElement_entries m r c v Hwf Hroom)
        as (m1 & -> & Hwf1 & Hes1 & Hcap1).
      simpl. apply IH; [done|]. rewrite Hcap1.
      rewrite <- (length_entries m1), Hes1, length_app by done.
      rewrite length_entries by done. simpl. lia.
    + rewrite addElement_full by lia. done.
Qed.

Lemma wf_clear m : wf m → wf (clear m).
Proof. intros (? & ? & ?). unfold wf, clear. simpl. split_and!; [done..|lia]. Qed.

(** X6. [clear] on a matrix that satisfies the class invariant keeps the
    capacity and drops every stored triple: afterwards a sequence of at most
    [capacity] calls of [addElement] succeeds and the matrix holds exactly
    the triples of these calls, in order; a longer sequence fails. *)
Theorem clear_then_refill m es :
  wf m →
  entries (clear m) = [] ∧ capacity (clear m) = capacity m ∧
  (length es ≤ capacity m →
   ∃ m', addElements (clear m) es = Some m' ∧ wf m' ∧ entries m' = es ∧
         capacity m' = capacity m) ∧
  (capacity m < length es → addElements (clear m) es = None).
Proof.
  intros Hwf. pose proof (wf_clear m Hwf) as Hwfc.
  split_and!; [done|done| |].
  - intros Hlen.
    destruct (addElements_entries es (clear m) Hwfc) as (m' & Hrun & Hwf' & Hes).
    { simpl. done. }
    exists m'. split_and!; [done..|].
    by rewrite (addElements_capacity es (clear m) m' Hwfc Hrun).
  - intros Hlen. apply addElements_overflow; [done|]. simpl.
    change (capacity (clear m)) with (capacity m). lia.
Qed.

End SparseMatrixCapacity.

Lemma clear_then_refill_witness :
  SparseMatrix.entries (SparseMatrix.clear sm_duplicates) = [] ∧
  (∃ m', SparseMatrix.addElements (SparseMatrix.clear sm_duplicates)
           [(1, 1, Qc_of_Z 5)] = Some m' ∧
         SparseMatrix.entries m' = [(1, 1, Qc_of_Z 5)] ∧
         SparseMatrix.capacity m' = 3).
Proof.
  destruct (clear_then_refill sm_duplicates [(1, 1, Qc_of_Z 5)])
    as (Hnone & _ & Hfill & _).
  - unfold SparseMatrix.wf. simpl. lia.
  - split; [exact Hnone|].
    destruct Hfill as (m' & Hrun & _ & Hes & Hcap); [vm_compute; lia|].
    exists m'. split_and!; [exact Hrun|exact Hes|exact Hcap].
Defined.

(** ** Consistent initialisation: totality, frame, idempotence *)

Section ConsistentInitialStateMore.
Context {R : Type} `{Scalar R}.
Import CSTRModel.
Implicit Types (m : CSTRModel.t R) (y : list R).

(** The two ways a call of [consistentInitialState] ends. *)
Lemma consistentInitialState_cases m y y' :
  consistentInitialState m y = Some y' →
  let denom := _flowRateIn m ⊖ _flowRateOut m ⊖ _curFlowRateFilter m
               ⊕ _flowRateOut m in
  ∃ v, y !! (2 * N.to_nat (_nComp m)) = Some v ∧
       ((seqb v szero && negb (seqb denom szero) = false ∧ y' = y) ∨
        (seqb v szero && negb (seqb denom szero) = true ∧
         initialised_upto (_flowRateIn m ⊘ denom) (N.to_nat (_nComp m)) y
           (N.to_nat (_nComp m)) y')).
Proof.
  intros Hrun denom. unfold consistentInitialState, rdN in Hrun.
  replace (N.to_nat (_nComp m + _nComp m))
    with (2 * N.to_nat (_nComp m)) in Hrun by lia.
  destruct (y !! (2 * N.to_nat (_nComp m))) as [v|] eqn:Hv; [|done].
  simpl in Hrun. exists v. split; [done|].
  assert (2 * N.to_nat (_nComp m) < length y) as Hlen
    by (by apply lookup_lt_Some in Hv).
  fold denom in Hrun.
  destruct (seqb v szero); simpl; [|left; by injection Hrun as <-].
  destruct (negb (seqb denom szero)); [|left; by injection Hrun as <-].
  right. split; [done|].
  destruct (consistentInitialState_loop m (_flowRateIn m ⊘ denom) y)
    as (y1 & Hloop & Hinv); [lia|].
  rewrite Hloop in Hrun. by injection Hrun as <-.
Qed.

Lemma consistentInitialState_defined m y :
  2 * N.to_nat (_nComp m) < length y → is_Some (consistentInitialState m y).
Proof.
  intros Hlen. unfold consistentInitialState, rdN.
  destruct (lookup_lt_is_Some_2 y (N.to_nat (_nComp m + _nComp m)))
    as [v ->]; [lia|].
  simpl. destruct (seqb v szero); [|done].
  destruct (negb _); [|done].
  match goal with |- context [wr _ _ (_ ⊗ ?fac)] =>
    destruct (consistentInitialState_loop m fac y) as (y1 & -> & _); [lia|]
  end.
  done.
Qed.

Lemma consistentInitialState_short m y :
  length y ≤ 2 * N.to_nat (_nComp m) → consistentInitialState m y = None.
Proof.
  intros Hlen. unfold consistentInitialState, rdN.
  rewrite (proj2 (lookup_ge_None y _)) by lia. done.
Qed.

(** X7. [consistentInitialState] returns exactly when the state vector
    reaches past index [2 * nComp]; a call that returns keeps the size of
    the vector and changes nothing outside of the [nComp] tank-concentration
    entries: inlet entries and every entry from [2 * nComp] on are as
    before. *)
Theorem consistentInitialState_touches_tank_entries_only m y :
  (2 * N.to_nat (_nComp m) < length y →
   ∃ y', consistentInitialState m y = Some y' ∧ length y' = length y ∧
         ∀ k, k < N.to_nat (_nComp m) ∨ 2 * N.to_nat (_nComp m) ≤ k →
              y' !! k = y !! k) ∧
  (length y ≤ 2 * N.to_nat (_nComp m) → consistentInitialState m y = None).
Proof.
  split.
  - intros Hlen. destruct (consistentInitialState_defined m y Hlen) as [y' Hrun].
    exists y'. split; [done|]. by apply consistentInitialState_frame.
  - apply consistentInitialState_short.
Qed.

(** X8. [consistentInitialState] is idempotent: applied to a state it has
    returned, it returns that state again. *)
Theorem consistentInitialState_idempotent m y y' :
  consistentInitialState m y = Some y' →
  consistentInitialState m y' = Some y'.
Proof.
  intros Hrun.
  destruct (consistentInitialState_frame m y y' Hrun) as [Hlen Hframe].
  destruct (consistentInitialState_cases m y y' Hrun)
    as (v & Hv & [[Hskip ->]|[Htake [_ Hinv]]]); [done|].
  assert (2 * N.to_nat (_nComp m) < length y) as Hlong
    by (by apply lookup_lt_Some in Hv).
  destruct (consistentInitialState_defined m y') as [y'' Hrun']; [lia|].
  rewrite Hrun'. f_equal.
  destruct (consistentInitialState_cases m y' y'' Hrun')
    as (v' & Hv' & [[_ ->]|[_ [_ Hinv']]]); [done|].
  apply list_eq. intros j. rewrite Hinv', (Hinv j).
  case_decide as Hj; [|done].
  rewrite (Hframe (j - N.to_nat (_nComp m))) by lia. done.
Qed.

End ConsistentInitialStateMore.

Lemma consistentInitialState_touches_tank_entries_only_witness :
  ∃ y', CSTRModel.consistentInitialState
          (configured pp_tank_bound (Qc_of_Z 2) (Qc_of_Z 1))
          [Qc_of_Z 5; Qc_of_Z 0; Qc_of_Z 0; Qc_of_Z 1] = Some y' ∧
        length y' = 4 ∧
        y' !! 0 = Some (Qc_of_Z 5) ∧ y' !! 2 = Some (Qc_of_Z 0) ∧
        y' !! 3 = Some (Qc_of_Z 1).
Proof.
  destruct (consistentInitialState_touches_tank_entries_only
              (configured pp_tank_bound (Qc_of_Z 2) (Qc_of_Z 1))
              [Qc_of_Z 5; Qc_of_Z 0; Qc_of_Z 0; Qc_of_Z 1]) as [Hreturns _].
  destruct Hreturns as (y' & Hrun & Hlen & Hframe); [vm_compute; lia|].
  exists y'. split_and!; [exact Hrun|exact Hlen|..].
  - apply (Hframe 0). left. vm_compute. lia.
  - apply (Hframe 2). right. vm_compute. lia.
  - apply (Hframe 3). right. vm_compute. lia.
Defined.

Lemma consistentInitialState_idempotent_witness :
  CSTRModel.consistentInitialState
    (configured pp_tank (Qc_of_Z 2) (Qc_of_Z 1))
    [Qc_of_Z 5; Qc_of_Z 5; Qc_of_Z 0]
  = Some [Qc_of_Z 5; Qc_of_Z 5; Qc_of_Z 0].
Proof.
  apply (consistentInitialState_idempotent
           (configured pp_tank (Qc_of_Z 2) (Qc_of_Z 1))
           [Qc_of_Z 5; Qc_of_Z 0; Qc_of_Z 0]).
  apply (bool_decide_unpack _). vm_compute. exact I.
Defined.

(** ** Consistent time derivatives: the other two branches *)

Section ConsistentInitialTimeDerivative.
Context {R : Type} `{Scalar R}.
Import CSTRModel.
Implicit Types (m : CSTRModel.t R) (y yd : list R).

Lemma fill_n_lookup (l : list R) off n (v : R) j :
  off + n ≤ length l →
  ∃ l', fill_n l off n v = Some l' ∧ length l' = length l ∧
        l' !! j = if decide (off ≤ j < off + n) then Some v else l !! j.
Proof.
  intros Hlen. unfold fill_n. rewrite decide_True by done.
  eexists. split; [done|]. split.
  - rewrite !length_app, length_take, length_replicate, length_drop. lia.
  - case_decide as Hj.
    + rewrite lookup_app_r by (rewrite length_take; lia).
      rewrite length_take, lookup_app_l by (rewrite length_replicate; lia).
      apply lookup_replicate_2. lia.
    + destruct (decide (j < off)).
      * rewrite lookup_app_l by (rewrite length_take; lia).
        by rewrite lookup_take_lt.
      * rewrite lookup_app_r by (rewrite length_take; lia).
        rewrite length_take.
        rewrite lookup_app_r by (rewrite length_replicate; lia).
        rewrite length_replicate, lookup_drop. f_equal. lia.
Qed.

(** X9. [consistentInitialTimeDerivative] with a nonzero value [v] at
    [vecStateY[2 * nComp]] and a derivative vector that reaches past index
    [2 * nComp], for every scalar type: the call returns and keeps the size
    of [vecStateYdot]; it stores [dV/dt = flowIn - flowOut - filter] at
    index [2 * nComp]; for every component the tank slot becomes
    [(-cDot_i - dV/dt * c_i) / v], computed from the value [cDot_i] the slot
    held on entry; inlet slots and the slots after [2 * nComp] are as
    before. *)
Theorem consistentInitialTimeDerivative_nonzero_volume m y yd v :
  let nC := N.to_nat (_nComp m) in
  let vDot := _flowRateIn m ⊖ _flowRateOut m ⊖ _curFlowRateFilter m in
  y !! (2 * nC) = Some v → seqb v szero = false → 2 * nC < length yd →
  ∃ yd',
    consistentInitialTimeDerivative m y yd = Some yd' ∧
    length yd' = length yd ∧
    yd' !! (2 * nC) = Some vDot ∧
    (∀ i cd ci, i < nC → yd !! (nC + i) = Some cd → y !! (nC + i) = Some ci →
       yd' !! (nC + i) = Some ((sopp cd ⊖ vDot ⊗ ci) ⊘ v)) ∧
    (∀ k, k < nC ∨ 2 * nC < k → yd' !! k = yd !! k).
Proof.
  intros nC vDot Hv Hnz Hlen.
  assert (2 * nC < length y) as Hleny by (by apply lookup_lt_Some in Hv).
  unfold consistentInitialTimeDerivative, rdN, wrN.
  replace (N.to_nat (_nComp m + _nComp m)) with (2 * nC) by lia.
  rewrite Hv. simpl. rewrite wr_lt by lia. simpl.
  rewrite Hnz. fold vDot. fold nC.
  set (yd1 := <[2 * nC := vDot]> yd).
  destruct (for_loop_inv (derivative_solved_upto v vDot nC y yd1)
              (λ i yd0, cd ← yd0 !! (nC + i); ci ← y !! (nC + i);
                        wr yd0 (nC + i) ((sopp cd ⊖ vDot ⊗ ci) ⊘ v))
              0 nC yd1) as (yd' & Hrun & Hlr & Hinv).
  - split; [done|]. intros j. by rewrite decide_False by lia.
  - intros k r Hk [Hlr Hinv]. unfold yd1 in Hlr. rewrite length_insert in Hlr.
    destruct (lookup_lt_is_Some_2 yd1 (nC + k)) as [cd Hcd].
    { unfold yd1. rewrite length_insert. lia. }
    destruct (lookup_lt_is_Some_2 y (nC + k)) as [ci Hci]; [lia|].
    rewrite (Hinv (nC + k)), decide_False, Hcd by lia. simpl.
    rewrite Hci. simpl. rewrite wr_lt by lia.
    eexists. split; [done|]. split.
    { unfold yd1. by rewrite !length_insert. }
    intros j. destruct (decide (j = nC + k)) as [->|Hne].
    + rewrite list_lookup_insert_eq, decide_True by lia.
      by rewrite Hcd, Hci.
    + rewrite list_lookup_insert_ne by done. rewrite Hinv.
      repeat case_decide; first [done | lia].
  - exists yd'. split; [exact Hrun|].
    unfold yd1 in Hlr. rewrite length_insert in Hlr.
    split_and!; [done| | |].
    + rewrite Hinv, decide_False by lia. unfold yd1.
      by rewrite list_lookup_insert_eq by lia.
    + intros i cd ci Hi Hcd Hci. rewrite Hinv, decide_True by lia.
      unfold yd1. rewrite list_lookup_insert_ne by lia.
      by rewrite Hcd, Hci.
    + intros k Hk. rewrite Hinv, decide_False by lia.
      unfold yd1. by rewrite list_lookup_insert_ne by lia.
Qed.

(** X10. [consistentInitialTimeDerivative] with [0] at
    [vecStateY[2 * nComp]] and a zero denominator [2 * dV/dt + flowOut], for
    every scalar type: the call returns and keeps the size of
    [vecStateYdot]; it stores [dV/dt] at index [2 * nComp] and [0.0] in the
    tank slot of every component; inlet slots and the slots after
    [2 * nComp] are as before. *)
Theorem consistentInitialTimeDerivative_zero_denominator m y yd v :
  let nC := N.to_nat (_nComp m) in
  let vDot := _flowRateIn m ⊖ _flowRateOut m ⊖ _curFlowRateFilter m in
  y !! (2 * nC) = Some v → seqb v szero = true →
  seqb (stwo ⊗ vDot ⊕ _flowRateOut m) szero = true →
  2 * nC < length yd →
  ∃ yd',
    consistentInitialTimeDerivative m y yd = Some yd' ∧
    length yd' = length yd ∧
    yd' !! (2 * nC) = Some vDot ∧
    (∀ i, i < nC → yd' !! (nC + i) = Some szero) ∧
    (∀ k, k < nC ∨ 2 * nC < k → yd' !! k = yd !! k).
Proof.
  intros nC vDot Hv Hzero Hdenom Hlen.
  unfold consistentInitialTimeDerivative, rdN, wrN.
  replace (N.to_nat (_nComp m + _nComp m)) with (2 * nC) by lia.
  rewrite Hv. simpl. rewrite wr_lt by lia. simpl.
  rewrite Hzero. fold vDot. rewrite Hdenom. fold nC.
  set (yd1 := <[2 * nC := vDot]> yd).
  assert (length yd1 = length yd) as Hl1 by (unfold yd1; apply length_insert).
  destruct (fill_n_lookup yd1 nC nC szero 0) as (yd' & Hrun & Hlr & _); [lia|].
  exists yd'. split; [exact Hrun|]. split; [lia|].
  assert (Hat : ∀ j, yd' !! j
                     = if decide (nC ≤ j < nC + nC) then Some szero
                       else yd1 !! j).
  { intros j. destruct (fill_n_lookup yd1 nC nC szero j)
      as (yd'' & Hrun' & _ & Hj); [lia|].
    rewrite Hrun in Hrun'. by injection Hrun' as <-. }
  split_and!.
  - rewrite Hat, decide_False by lia. unfold yd1.
    by rewrite list_lookup_insert_eq by lia.
  - intros i Hi. by rewrite Hat, decide_True by lia.
  - intros k Hk. rewrite Hat, decide_False by lia.
    unfold yd1. by rewrite list_lookup_insert_ne by lia.
Qed.

End ConsistentInitialTimeDerivative.

Lemma consistentInitialTimeDerivative_nonzero_volume_witness :
  ∃ yd',
    CSTRModel.consistentInitialTimeDerivative
      (configured pp_tank (Qc_of_Z 2) (Qc_of_Z 1))
      [Qc_of_Z 5; Qc_of_Z 3; Qc_of_Z 4] [Qc_of_Z 9; Qc_of_Z 7; Qc_of_Z 0]
    = Some yd' ∧
    yd' !! 2 = Some (Qc_of_Z 2 ⊖ Qc_of_Z 1 ⊖ Qc_of_Z 0) ∧
    yd' !! 1 = Some ((sopp (Qc_of_Z 7)
                      ⊖ (Qc_of_Z 2 ⊖ Qc_of_Z 1 ⊖ Qc_of_Z 0) ⊗ Qc_of_Z 3)
                     ⊘ Qc_of_Z 4) ∧
    yd' !! 0 = Some (Qc_of_Z 9).
Proof.
  destruct (consistentInitialTimeDerivative_nonzero_volume
              (configured pp_tank (Qc_of_Z 2) (Qc_of_Z 1))
              [Qc_of_Z 5; Qc_of_Z 3; Qc_of_Z 4]
              [Qc_of_Z 9; Qc_of_Z 7; Qc_of_Z 0] (Qc_of_Z 4))
    as (yd' & Hrun & _ & Hvol & Htank & Hframe).
  - reflexivity.
  - reflexivity.
  - vm_compute. lia.
  - exists yd'. split_and!; [exact Hrun|exact Hvol| |].
    + apply (Htank 0 (Qc_of_Z 7) (Qc_of_Z 3)); [vm_compute; lia|reflexivity..].
    + apply (Hframe 0). left. vm_compute. lia.
Defined.

Lemma consistentInitialTimeDerivative_zero_denominator_witness :
  ∃ yd',
    CSTRModel.consistentInitialTimeDerivative
      (configured pp_tank (Qc_of_Z 0) (Qc_of_Z 0))
      [Qc_of_Z 5; Qc_of_Z 3; Qc_of_Z 0] [Qc_of_Z 9; Qc_of_Z 7; Qc_of_Z 8]
    = Some yd' ∧
    yd' !! 1 = Some (Qc_of_Z 0) ∧ yd' !! 0 = Some (Qc_of_Z 9).
Proof.
  destruct (consistentInitialTimeDerivative_zero_denominator
              (configured pp_tank (Qc_of_Z 0) (Qc_of_Z 0))
              [Qc_of_Z 5; Qc_of_Z 3; Qc_of_Z 0]
              [Qc_of_Z 9; Qc_of_Z 7; Qc_of_Z 8] (Qc_of_Z 0))
    as (yd' & Hrun & _ & _ & Htank & Hframe).
  - reflexivity.
  - reflexivity.
  - reflexivity.
  - vm_compute. lia.
  - exists yd'. split_and!; [exact Hrun| |].
    + apply (Htank 0). vm_compute. lia.
    + apply (Hframe 0). left. vm_compute. lia.
Defined.

(** ** Residual: the tank block without time derivatives *)

Section TankBlockSteady.
Context {R : Type} `{Scalar R}.
Import CSTRModel.
Implicit Types (m : CSTRModel.t R) (y res : list R).

Lemma tank_loop_steady m timeFactor y v vDot invBeta res0 :
  (_nComp m < 2 ^ 32)%N →
  N.to_nat (_nComp m) ≤ length (_nBound m) →
  2 * N.to_nat (_nComp m) ≤ length y →
  2 * N.to_nat (_nComp m) ≤ length res0 →
  ∀ n fuel (i : N) res,
    N.to_nat (_nComp m) = N.to_nat i + n → n < fuel →
    tank_steady_upto m y res0 (N.to_nat i) res →
    ∃ res',
      tank_loop fuel m timeFactor y None v vDot (_flowRateIn m)
        (_flowRateOut m) invBeta i res = Some res' ∧
      tank_steady_upto m y res0 (N.to_nat (_nComp m)) res'.
Proof.
  intros HnC Hnb Hy Hres0. unfold tank_steady_upto.
  set (nC := N.to_nat (_nComp m)) in *.
  induction n as [|n IH]; intros fuel i res Hi Hfuel [Hlr Hinv];
    (destruct fuel as [|fuel]; [lia|]); simpl.
  - replace (i <? _nComp m)%N with false by (symmetry; apply N.ltb_ge; lia).
    exists res. split; [done|]. split; [done|].
    intros k. rewrite Hinv. repeat case_decide; first [done | lia].
  - replace (i <? _nComp m)%N with true by (symmetry; apply N.ltb_lt; lia).
    assert (Hk : N.to_nat (_nComp m + i) = nC + N.to_nat i) by lia.
    destruct (lookup_lt_is_Some_2 (_nBound m) (N.to_nat i)) as [nb Hnbi];
      [lia|].
    destruct (lookup_lt_is_Some_2 y (nC + N.to_nat i)) as [ci Hci]; [lia|].
    destruct (lookup_lt_is_Some_2 y (N.to_nat i)) as [cin Hcin]; [lia|].
    unfold wrN, rdN. rewrite Hk, Hnbi.
    rewrite wr_lt by lia. simpl.
    rewrite list_lookup_insert_eq by lia. simpl.
    rewrite Hcin. simpl. rewrite Hci. simpl.
    rewrite wr_lt by (rewrite length_insert; lia). simpl.
    assert (Hnext : uadd i 1 = (i + 1)%N) by (apply u32_small; lia).
    rewrite Hnext. apply IH; [lia|lia|].
    split; [by rewrite !length_insert|].
    intros k. replace (N.to_nat (i + 1)) with (S (N.to_nat i)) by lia.
    destruct (decide (k = nC + N.to_nat i)) as [->|Hne].
    + rewrite list_lookup_insert_eq by (rewrite !length_insert; lia).
      rewrite decide_True by lia. f_equal.
      replace (nC + N.to_nat i - nC) with (N.to_nat i) by lia.
      by rewrite Hci, Hcin.
    + rewrite !list_lookup_insert_ne by done. rewrite Hinv.
      repeat case_decide; first [done | lia].
Qed.

(** X11. The tank-concentration block of [residualImpl] without time
    derivatives ([yDot] null), for every scalar type and every layout of
    bound states: with [nComp < 2^32], a bound-state count for every
    component and buffers of at least [2 * nComp] entries, the block
    returns, keeps the size of [res], sets the residual of every component
    to [0.0 + (-flowIn * c_in,i + flowOut * c_i)] and changes no other
    entry. *)
Theorem residual_tank_block_without_time_derivatives m timeFactor y v vDot
    res :
  (_nComp m < 2 ^ 32)%N →
  N.to_nat (_nComp m) ≤ length (_nBound m) →
  2 * N.to_nat (_nComp m) ≤ length y →
  2 * N.to_nat (_nComp m) ≤ length res →
  ∃ res',
    residual_tank_block m timeFactor y None v vDot res = Some res' ∧
    length res' = length res ∧
    (∀ i cin ci, i < N.to_nat (_nComp m) →
       y !! i = Some cin → y !! (N.to_nat (_nComp m) + i) = Some ci →
       res' !! (N.to_nat (_nComp m) + i)
       = Some (szero ⊕ (sopp (_flowRateIn m) ⊗ cin ⊕ _flowRateOut m ⊗ ci))) ∧
    (∀ k, k < N.to_nat (_nComp m) ∨ 2 * N.to_nat (_nComp m) ≤ k →
       res' !! k = res !! k).
Proof.
  intros HnC Hnb Hy Hres. unfold residual_tank_block.
  destruct (tank_loop_steady m timeFactor y v vDot
              (sone ⊘ _porosity m ⊖ sone) res HnC Hnb Hy Hres
              (N.to_nat (_nComp m)) (S (N.to_nat (_nComp m))) 0%N res)
    as (res' & Hrun & Hlr & Hinv); [lia|lia| |].
  { split; [done|]. intros k. by rewrite decide_False by lia. }
  exists res'. split_and!; [done|done| |].
  - intros i cin ci Hi Hcin Hci. rewrite Hinv, decide_True by lia.
    replace (N.to_nat (_nComp m) + i - N.to_nat (_nComp m)) with i by lia.
    by rewrite Hcin, Hci.
  - intros k Hk. rewrite Hinv. by rewrite decide_False by lia.
Qed.

End TankBlockSteady.

Lemma residual_tank_block_without_time_derivatives_witness :
  ∃ res',
    CSTRModel.residual_tank_block
      (configured pp_tank_bound (Qc_of_Z 13) (Qc_of_Z 19)) (Qc_of_Z 1)
      [Qc_of_Z 17; Qc_of_Z 11; Qc_of_Z 23; Qc_of_Z 2] None
      (Qc_of_Z 2) (Qc_of_Z 0)
      [Qc_of_Z 17; Qc_of_Z 0; Qc_of_Z 0; Qc_of_Z 0] = Some res' ∧
    res' !! 1 = Some (szero ⊕ (sopp (Qc_of_Z 13) ⊗ Qc_of_Z 17
                               ⊕ Qc_of_Z 19 ⊗ Qc_of_Z 11)) ∧
    res' !! 2 = Some (Qc_of_Z 0).
Proof.
  destruct (residual_tank_block_without_time_derivatives
              (configured pp_tank_bound (Qc_of_Z 13) (Qc_of_Z 19)) (Qc_of_Z 1)
              [Qc_of_Z 17; Qc_of_Z 11; Qc_of_Z 23; Qc_of_Z 2]
              (Qc_of_Z 2) (Qc_of_Z 0)
              [Qc_of_Z 17; Qc_of_Z 0; Qc_of_Z 0; Qc_of_Z 0])
    as (res' & Hrun & _ & Htank & Hframe).
  - vm_compute. reflexivity.
  - vm_compute. lia.
  - vm_compute. lia.
  - vm_compute. lia.
  - exists res'. split_and!; [exact Hrun| |].
    + apply (Htank 0 (Qc_of_Z 17) (Qc_of_Z 11));
        [vm_compute; lia|reflexivity..].
    + apply (Hframe 2). right. vm_compute. lia.
Defined.

Section TankBlockDerivatives.
Context {R : Type} `{Scalar R}.
Import CSTRModel.
Implicit Types (m : CSTRModel.t R) (y yd res : list R).

(** X12. The tank-concentration block of [residualImpl] with time
    derivatives, in a model whose components have no bound state, for every
    scalar type, binary64 included: with [nComp < 2^32] and buffers of at
    least [2 * nComp] entries the block returns, keeps the size of [res],
    sets the residual of every component [i] to
    [timeFactor * ((cDot_i + invBeta * 0.0) * v + vDot * c_i)
     + (-flowIn * c_in,i + flowOut * c_i)],
    the expression the code evaluates, in its order, and changes no other
    entry. *)
Theorem residual_tank_block_with_time_derivatives m timeFactor y yd v vDot
    res :
  (_nComp m < 2 ^ 32)%N →
  (∀ i, i < N.to_nat (_nComp m) →
        _nBound m !! i = Some 0%N ∧ is_Some (_boundOffset m !! i)) →
  2 * N.to_nat (_nComp m) ≤ length y →
  2 * N.to_nat (_nComp m) ≤ length yd →
  2 * N.to_nat (_nComp m) ≤ length res →
  let invBeta := sone ⊘ _porosity m ⊖ sone in
  ∃ res',
    residual_tank_block m timeFactor y (Some yd) v vDot res = Some res' ∧
    length res' = length res ∧
    (∀ i cin ci cd, i < N.to_nat (_nComp m) →
       y !! i = Some cin → y !! (N.to_nat (_nComp m) + i) = Some ci →
       yd !! (N.to_nat (_nComp m) + i) = Some cd →
       res' !! (N.to_nat (_nComp m) + i)
       = Some (timeFactor ⊗ ((cd ⊕ invBeta ⊗ szero) ⊗ v ⊕ vDot ⊗ ci)
               ⊕ (sopp (_flowRateIn m) ⊗ cin ⊕ _flowRateOut m ⊗ ci))) ∧
    (∀ k, k < N.to_nat (_nComp m) ∨ 2 * N.to_nat (_nComp m) ≤ k →
       res' !! k = res !! k).
Proof.
  intros HnC Hnb Hy Hyd Hres invBeta.
  destruct (residual_tank_block_without_bound_states m timeFactor y yd v vDot
              res HnC Hnb Hy Hyd Hres) as (res' & Hrun & Hlr & Hinv).
  exists res'. split_and!; [done|done| |].
  - intros i cin ci cd Hi Hcin Hci Hcd. rewrite Hinv, decide_True by lia.
    f_equal. unfold tank_value_unsummed.
    replace (N.to_nat (_nComp m) + i - N.to_nat (_nComp m)) with i by lia.
    by rewrite Hcin, Hci, Hcd.
  - intros k Hk. rewrite Hinv. by rewrite decide_False by lia.
Qed.

End TankBlockDerivatives.

(** On binary64, with [flowIn = flowOut = 1e16] and
    [c_in = c = cDot = V = 1]: the flow terms cancel first, and the
    residual is [1]. *)
Lemma residual_tank_block_with_time_derivatives_witness :
  ∃ res',
    CSTRModel.residual_tank_block
      (configured pp_tank_binary64 10000000000000000%float
         10000000000000000%float) 1%float
      [1%float; 1%float; 1%float] (Some [0%float; 1%float; 0%float])
      1%float 0%float [0%float; 0%float; 0%float] = Some res' ∧
    res' !! 1 = Some 1%float ∧ res' !! 0 = Some 0%float.
Proof.
  destruct (residual_tank_block_with_time_derivatives
              (configured pp_tank_binary64 10000000000000000%float
                 10000000000000000%float) 1%float
              [1%float; 1%float; 1%float] [0%float; 1%float; 0%float]
              1%float 0%float [0%float; 0%float; 0%float])
    as (res' & Hrun & _ & Htank & Hframe).
  - vm_compute. reflexivity.
  - intros i Hi. assert (i = 0) as -> by (vm_compute in Hi; lia).
    split; [reflexivity|by eexists].
  - vm_compute. lia.
  - vm_compute. lia.
  - vm_compute. lia.
  - exists res'. split_and!; [exact Hrun| |].
    + exact (Htank 0 1%float 1%float 1%float ltac:(vm_compute; lia)
               eq_refl eq_refl eq_refl).
    + apply (Hframe 0). left. vm_compute. lia.
Defined.

(** ** [linearSolve]: the paths through the function *)

Section LinearSolvePaths.
Context {R : Type} `{Scalar R}.
Import CSTRModel.
Variable factorize : DenseMatrix.t R → DenseMatrix.t R * bool.
Variable solve : DenseMatrix.t R → list R → list R * bool.
Implicit Types (m : CSTRModel.t R) (rhs y : list R).

(** The three ways [linearSolve] returns: without factorisation, after a
    failed factorisation, after a successful one. *)
Lemma linearSolve_cases m t timeFactor alpha tol rhs y m' rhs' ret calls :
  linearSolve factorize solve m t timeFactor alpha tol rhs y
  = Some (m', rhs', ret, calls) →
  ∃ rhs1, backsubstitute m rhs = Some rhs1 ∧
    let rest := drop (N.to_nat (_nComp m)) rhs1 in
    (_factorizeJac m = false ∧ m' = m ∧
     calls = [Solve (_jacFact m) rest] ∧
     rhs' = take (N.to_nat (_nComp m)) rhs1 ++ (solve (_jacFact m) rest).1 ∧
     ret = (if (solve (_jacFact m) rest).2 then 0 else 1)%Z)
    ∨ (_factorizeJac m = true ∧
       ∃ jf jac,
         DenseMatrix.copyFrom (_jacFact m) (_jac m) = Some jf ∧
         addTimeDerivativeJacobian m t timeFactor y (_jac m) = Some jac ∧
         m' = set_jac (set_jacFact (set_factorizeJac m false) (factorize jf).1)
                jac ∧
         ((factorize jf).2 = false ∧ calls = [Factorize jf] ∧ rhs' = rhs1 ∧
          ret = 1%Z
          ∨ (factorize jf).2 = true ∧
            calls = [Factorize jf; Solve (factorize jf).1 rest] ∧
            rhs' = take (N.to_nat (_nComp m)) rhs1
                   ++ (solve (factorize jf).1 rest).1 ∧
            ret = (if (solve (factorize jf).1 rest).2 then 0 else 1)%Z)).
Proof.
  unfold linearSolve. destruct (backsubstitute m rhs) as [rhs1|]; [|done].
  simpl. intros Hls. exists rhs1. split; [done|].
  destruct (_factorizeJac m) eqn:Hflag.
  - right. split; [done|].
    destruct (DenseMatrix.copyFrom _ _) as [jf|]; [|done]. simpl in Hls.
    destruct (addTimeDerivativeJacobian _ _ _ _ _) as [jac|]; [|done].
    simpl in Hls. exists jf, jac. split; [done|]. split; [done|].
    destruct (factorize jf) as [lu ok]. simpl in *. destruct ok.
    + destruct (solve lu _) as [x ok'] eqn:Hs. simpl.
      injection Hls as <- <- <- <-. split; [done|]. right. done.
    + injection Hls as <- <- <- <-. split; [done|]. left. done.
  - left. simpl in Hls. destruct (solve _ _) as [x ok'] eqn:Hs. simpl.
    by injection Hls as <- <- <- <-.
Qed.

(** X13. The return code of [linearSolve]: it is [0] or [1]; it is [0]
    exactly when [solve] was called and succeeded; and when it is [0], every
    factorisation the call made succeeded. *)
Theorem linearSolve_return_code m t timeFactor alpha tol rhs y m' rhs' ret
    calls :
  linearSolve factorize solve m t timeFactor alpha tol rhs y
  = Some (m', rhs', ret, calls) →
  (ret = 0%Z ∨ ret = 1%Z) ∧
  (ret = 0%Z ↔ ∃ a r, Solve a r ∈ calls ∧ (solve a r).2 = true) ∧
  (ret = 0%Z → ∀ a, Factorize a ∈ calls → (factorize a).2 = true).
Proof.
  intros Hls.
  destruct (linearSolve_cases _ _ _ _ _ _ _ _ _ _ _ Hls)
    as (rhs1 & _ & [(_ & _ & -> & _ & ->)
                   |(_ & jf & jac & _ & _ & _ &
                     [(Hf & -> & _ & ->)|(Hf & -> & _ & ->)])]).
  - destruct (solve _ _).2 eqn:Hs.
    + split_and!; [by left| |].
      * split; [|done]. intros _. eexists _, _. split; [|exact Hs].
        apply list_elem_of_singleton. done.
      * intros _ a Ha. apply list_elem_of_singleton in Ha. done.
    + split_and!; [by right| |done].
      split; [done|]. intros (a & r & Ha & Hok).
      apply list_elem_of_singleton in Ha. injection Ha as -> ->.
      congruence.
  - split_and!; [by right| |done].
    split; [done|]. intros (a & r & Ha & _).
    apply list_elem_of_singleton in Ha. done.
  - destruct (solve _ _).2 eqn:Hs.
    + split_and!; [by left| |].
      * split; [|done]. intros _. eexists _, _. split; [|exact Hs].
        apply elem_of_cons. right. apply list_elem_of_singleton. done.
      * intros _ a Ha. apply elem_of_cons in Ha as [Ha|Ha].
        -- by injection Ha as ->.
        -- apply list_elem_of_singleton in Ha. done.
    + split_and!; [by right| |done].
      split; [done|]. intros (a & r & Ha & Hok).
      apply elem_of_cons in Ha as [Ha|Ha]; [done|].
      apply list_elem_of_singleton in Ha. injection Ha as -> ->.
      congruence.
Qed.

(** X14. [linearSolve] with the flag [_factorizeJac] clear, [2 * nComp]
    fitting into 32 bits and at least [2 * nComp] entries in [rhs]: it
    returns, leaves the model as it is, does not factorise, calls [solve]
    once, on the stored factor [_jacFact] and the back-substituted
    [rhs + nComp]; the inlet entries of [rhs] stay as they were, the rest is
    what [solve] left, and the return code is [0] if [solve] succeeded and
    [1] otherwise. *)
Theorem linearSolve_reuses_factorization m t timeFactor alpha tol rhs y :
  _factorizeJac m = false →
  (2 * _nComp m ≤ 2 ^ 32)%N →
  2 * N.to_nat (_nComp m) ≤ length rhs →
  ∃ rhs1,
    backsubstitute m rhs = Some rhs1 ∧
    let rest := drop (N.to_nat (_nComp m)) rhs1 in
    linearSolve factorize solve m t timeFactor alpha tol rhs y
    = Some (m,
            take (N.to_nat (_nComp m)) rhs ++ (solve (_jacFact m) rest).1,
            (if (solve (_jacFact m) rest).2 then 0 else 1)%Z,
            [Solve (_jacFact m) rest]).
Proof.
  intros Hflag Hfit Hlen.
  destruct (backsubstitute_spec m rhs Hfit Hlen) as (rhs1 & Hbs & Hlr & Hinv).
  exists rhs1. split; [done|]. simpl.
  assert (take (N.to_nat (_nComp m)) rhs1 = take (N.to_nat (_nComp m)) rhs)
    as Hinlet.
  { apply list_eq. intros k. rewrite !lookup_take.
    case_decide; [|done]. rewrite Hinv. by rewrite decide_False by lia. }
  unfold linearSolve. rewrite Hbs, Hflag. simpl.
  destruct (solve _ _) as [x ok]. simpl. by rewrite Hinlet.
Qed.

(** X15. When a factorisation made by [linearSolve] fails, the return code
    is [1], [solve] is not called, [rhs] is left back-substituted, and the
    flag [_factorizeJac] is clear all the same. *)
Theorem linearSolve_failed_factorization m t timeFactor alpha tol rhs y m'
    rhs' ret calls a :
  linearSolve factorize solve m t timeFactor alpha tol rhs y
  = Some (m', rhs', ret, calls) →
  Factorize a ∈ calls → (factorize a).2 = false →
  ret = 1%Z ∧ (∀ b r, Solve b r ∉ calls) ∧
  backsubstitute m rhs = Some rhs' ∧ _factorizeJac m' = false.
Proof.
  intros Hls Ha Hfail.
  destruct (linearSolve_cases _ _ _ _ _ _ _ _ _ _ _ Hls)
    as (rhs1 & Hbs & [(_ & _ & -> & _ & _)
                     |(_ & jf & jac & _ & _ & -> &
                       [(Hf & -> & -> & ->)|(Hf & -> & _ & _)])]).
  - apply list_elem_of_singleton in Ha. done.
  - split_and!; [done| |done|done].
    intros b r Hb. apply list_elem_of_singleton in Hb. done.
  - apply elem_of_cons in Ha as [Ha|Ha].
    + injection Ha as ->. congruence.
    + apply list_elem_of_singleton in Ha. done.
Qed.

(** X16. Two calls of [linearSolve] in a row: whatever the first one did,
    the second one does not factorise and leaves the model as the first one
    left it; its only call is a [solve] with the factor the first call
    stored. *)
Theorem linearSolve_twice_factorizes_once m t timeFactor alpha tol rhs y
    m1 rhs1 ret1 calls1 t' timeFactor' alpha' tol' rhs' y' m2 rhs2 ret2
    calls2 :
  linearSolve factorize solve m t timeFactor alpha tol rhs y
  = Some (m1, rhs1, ret1, calls1) →
  linearSolve factorize solve m1 t' timeFactor' alpha' tol' rhs' y'
  = Some (m2, rhs2, ret2, calls2) →
  m2 = m1 ∧ ∃ r, calls2 = [Solve (_jacFact m1) r].
Proof.
  intros Hfirst Hsecond.
  destruct (linearSolve_clears_flag _ _ _ _ _ _ _ _ _ _ _ _ _ Hfirst)
    as [Hflag _].
  destruct (linearSolve_cases _ _ _ _ _ _ _ _ _ _ _ Hsecond)
    as (r1 & _ & [(_ & -> & -> & _ & _)|(Hset & _)]).
  - split; [done|]. by eexists.
  - congruence.
Qed.

End LinearSolvePaths.

(** X17. After a residual evaluation that updates the Jacobian, the next
    [linearSolve] factorises exactly once, before anything else, and the
    matrix it factorises has the entries of the Jacobian [_jac] that the
    residual evaluation left; afterwards the flag is clear. *)
Theorem residual_then_linearSolve_factorizes {R : Type} `{Scalar R}
    chk active factorize solve (m m1 m2 : CSTRModel.t R) t secIdx timeFactor
    y yDot res res' ret paramSensitivity t' timeFactor' alpha tol rhs y' rhs'
    ret' calls :
  CSTRModel.residual chk active m t secIdx timeFactor y yDot res true
    paramSensitivity = Some (m1, res', ret) →
  CSTRModel.linearSolve factorize solve m1 t' timeFactor' alpha tol rhs y'
  = Some (m2, rhs', ret', calls) →
  ∃ jf rest,
    calls = CSTRModel.Factorize jf :: rest ∧
    DenseMatrix._data jf = DenseMatrix._data (CSTRModel._jac m1) ∧
    (∀ a, CSTRModel.Factorize a ∉ rest) ∧
    CSTRModel._factorizeJac m2 = false.
Proof.
  intros Hres Hls.
  pose proof (residual_sets_flag _ _ _ _ _ _ _ _ _ _ _ _ _ Hres) as Hflag.
  destruct (linearSolve_cases _ _ _ _ _ _ _ _ _ _ _ _ _ Hls)
    as (rhs1 & _ & [(Hclear & _)
                   |(_ & jf & jac & Hcopy & _ & -> &
                     [(_ & -> & _ & _)|(_ & -> & _ & _)])]);
    [congruence| |].
  - exists jf, []. split_and!; [done| |intros a Ha; inversion Ha|done].
    unfold DenseMatrix.copyFrom in Hcopy.
    destruct (_ && _)%bool; [|done]. by injection Hcopy as <-.
  - eexists jf, _. split_and!; [done| | |done].
    + unfold DenseMatrix.copyFrom in Hcopy.
      destruct (_ && _)%bool; [|done]. by injection Hcopy as <-.
    + intros a Ha. apply list_elem_of_singleton in Ha. done.
Qed.

Lemma linearSolve_return_code_witness :
  ∃ m' rhs' ret calls,
    CSTRModel.linearSolve (λ a, (a, true))
      (λ _ r, (r, bool_decide (length r = 2)))
      (configured pp_tank (Qc_of_Z 13) (Qc_of_Z 19))
      (Qc_of_Z 0) (Qc_of_Z 1) (Qc_of_Z 1) (Qc_of_Z 0)
      [Qc_of_Z 2; Qc_of_Z 3; Qc_of_Z 5] [Qc_of_Z 17; Qc_of_Z 11; Qc_of_Z 2]
    = Some (m', rhs', ret, calls) ∧
    (ret = 0%Z ∨ ret = 1%Z) ∧
    (ret = 0%Z ↔
     ∃ a r, CSTRModel.Solve a r ∈ calls ∧ bool_decide (length r = 2) = true).
Proof.
  destruct (CSTRModel.linearSolve (λ a, (a, true))
              (λ _ r, (r, bool_decide (length r = 2)))
              (configured pp_tank (Qc_of_Z 13) (Qc_of_Z 19))
              (Qc_of_Z 0) (Qc_of_Z 1) (Qc_of_Z 1) (Qc_of_Z 0)
              [Qc_of_Z 2; Qc_of_Z 3; Qc_of_Z 5]
              [Qc_of_Z 17; Qc_of_Z 11; Qc_of_Z 2])
    as [[[[m' rhs'] ret] calls]|] eqn:Hls;
    [|exfalso; vm_compute in Hls; discriminate].
  exists m', rhs', ret, calls. split; [reflexivity|].
  destruct (linearSolve_return_code _ _ _ _ _ _ _ _ _ _ _ _ _ Hls)
    as (Hcode & Hzero & _).
  split; [exact Hcode|exact Hzero].
Defined.

Lemma linearSolve_reuses_factorization_witness :
  ∃ rhs1,
    CSTRModel.backsubstitute (configured pp_tank (Qc_of_Z 13) (Qc_of_Z 19))
      [Qc_of_Z 2; Qc_of_Z 3; Qc_of_Z 5] = Some rhs1 ∧
    let rest :=
      drop (N.to_nat (CSTRModel._nComp
                        (configured pp_tank (Qc_of_Z 13) (Qc_of_Z 19)))) rhs1
    in
    CSTRModel.linearSolve (λ a, (a, true)) (λ _ r, (reverse r, false))
      (configured pp_tank (Qc_of_Z 13) (Qc_of_Z 19))
      (Qc_of_Z 0) (Qc_of_Z 1) (Qc_of_Z 1) (Qc_of_Z 0)
      [Qc_of_Z 2; Qc_of_Z 3; Qc_of_Z 5] [Qc_of_Z 17; Qc_of_Z 11; Qc_of_Z 2]
    = Some (configured pp_tank (Qc_of_Z 13) (Qc_of_Z 19),
            take (N.to_nat (CSTRModel._nComp
                              (configured pp_tank (Qc_of_Z 13) (Qc_of_Z 19))))
              [Qc_of_Z 2; Qc_of_Z 3; Qc_of_Z 5] ++ reverse rest,
            1%Z,
            [CSTRModel.Solve
               (CSTRModel._jacFact
                  (configured pp_tank (Qc_of_Z 13) (Qc_of_Z 19)))
               rest]).
Proof.
  apply (linearSolve_reuses_factorization (λ a, (a, true))
           (λ _ r, (reverse r, false))
           (configured pp_tank (Qc_of_Z 13) (Qc_of_Z 19))
           (Qc_of_Z 0) (Qc_of_Z 1) (Qc_of_Z 1) (Qc_of_Z 0)
           [Qc_of_Z 2; Qc_of_Z 3; Qc_of_Z 5]
           [Qc_of_Z 17; Qc_of_Z 11; Qc_of_Z 2]).
  - vm_compute. reflexivity.
  - vm_compute. discriminate.
  - vm_compute. lia.
Defined.

Lemma linearSolve_failed_factorization_witness :
  ∃ m' rhs' ret calls a,
    CSTRModel.linearSolve (λ a, (a, false)) (λ _ r, (r, true))
      (CSTRModel.set_factorizeJac
         (configured pp_tank (Qc_of_Z 13) (Qc_of_Z 19)) true)
      (Qc_of_Z 0) (Qc_of_Z 1) (Qc_of_Z 1) (Qc_of_Z 0)
      [Qc_of_Z 2; Qc_of_Z 3; Qc_of_Z 5] [Qc_of_Z 17; Qc_of_Z 11; Qc_of_Z 2]
    = Some (m', rhs', ret, calls) ∧
    CSTRModel.Factorize a ∈ calls ∧
    ret = 1%Z ∧
    (∀ b r, CSTRModel.Solve b r ∉ calls) ∧
    CSTRModel.backsubstitute
      (CSTRModel.set_factorizeJac
         (configured pp_tank (Qc_of_Z 13) (Qc_of_Z 19)) true)
      [Qc_of_Z 2; Qc_of_Z 3; Qc_of_Z 5] = Some rhs' ∧
    CSTRModel._factorizeJac m' = false.
Proof.
  destruct (CSTRModel.linearSolve (λ a, (a, false)) (λ _ r, (r, true))
              (CSTRModel.set_factorizeJac
                 (configured pp_tank (Qc_of_Z 13) (Qc_of_Z 19)) true)
              (Qc_of_Z 0) (Qc_of_Z 1) (Qc_of_Z 1) (Qc_of_Z 0)
              [Qc_of_Z 2; Qc_of_Z 3; Qc_of_Z 5]
              [Qc_of_Z 17; Qc_of_Z 11; Qc_of_Z 2])
    as [[[[m' rhs'] ret] calls]|] eqn:Hls;
    [|exfalso; vm_compute in Hls; discriminate].
  assert (Hrun := Hls). vm_compute in Hrun. injection Hrun as _ _ _ Hcalls.
  match type of Hcalls with
  | [CSTRModel.Factorize ?a] = _ =>
      assert (CSTRModel.Factorize a ∈ calls) as Hin
        by (rewrite <- Hcalls; apply list_elem_of_singleton; reflexivity);
      exists m', rhs', ret, calls, a
  end.
  split; [reflexivity|]. split; [exact Hin|].
  exact (linearSolve_failed_factorization _ _ _ _ _ _ _ _ _ _ _ _ _ _
           Hls Hin eq_refl).
Defined.

Lemma linearSolve_twice_factorizes_once_witness :
  ∃ m1 rhs1 ret1 calls1 m2 rhs2 ret2 calls2,
    CSTRModel.linearSolve (λ a, (a, true)) (λ _ r, (r, true))
      (CSTRModel.set_factorizeJac
         (configured pp_tank (Qc_of_Z 13) (Qc_of_Z 19)) true)
      (Qc_of_Z 0) (Qc_of_Z 1) (Qc_of_Z 1) (Qc_of_Z 0)
      [Qc_of_Z 2; Qc_of_Z 3; Qc_of_Z 5] [Qc_of_Z 17; Qc_of_Z 11; Qc_of_Z 2]
    = Some (m1, rhs1, ret1, calls1) ∧
    CSTRModel.linearSolve (λ a, (a, true)) (λ _ r, (r, true)) m1
      (Qc_of_Z 1) (Qc_of_Z 2) (Qc_of_Z 1) (Qc_of_Z 0)
      [Qc_of_Z 7; Qc_of_Z 1; Qc_of_Z 4] [Qc_of_Z 17; Qc_of_Z 11; Qc_of_Z 2]
    = Some (m2, rhs2, ret2, calls2) ∧
    m2 = m1 ∧ ∃ r, calls2 = [CSTRModel.Solve (CSTRModel._jacFact m1) r].
Proof.
  destruct (CSTRModel.linearSolve (λ a, (a, true)) (λ _ r, (r, true))
              (CSTRModel.set_factorizeJac
                 (configured pp_tank (Qc_of_Z 13) (Qc_of_Z 19)) true)
              (Qc_of_Z 0) (Qc_of_Z 1) (Qc_of_Z 1) (Qc_of_Z 0)
              [Qc_of_Z 2; Qc_of_Z 3; Qc_of_Z 5]
              [Qc_of_Z 17; Qc_of_Z 11; Qc_of_Z 2])
    as [[[[m1 rhs1] ret1] calls1]|] eqn:Hfirst;
    [|exfalso; vm_compute in Hfirst; discriminate].
  assert (Hrun := Hfirst). vm_compute in Hrun. injection Hrun as Hm1 _ _ _.
  subst m1.
  match type of Hfirst with
  | _ = Some (?m1, _, _, _) =>
      destruct (CSTRModel.linearSolve (λ a, (a, true)) (λ _ r, (r, true)) m1
                  (Qc_of_Z 1) (Qc_of_Z 2) (Qc_of_Z 1) (Qc_of_Z 0)
                  [Qc_of_Z 7; Qc_of_Z 1; Qc_of_Z 4]
                  [Qc_of_Z 17; Qc_of_Z 11; Qc_of_Z 2])
        as [[[[m2 rhs2] ret2] calls2]|] eqn:Hsecond;
        [|exfalso; vm_compute in Hsecond; discriminate];
      exists m1, rhs1, ret1, calls1, m2, rhs2, ret2, calls2
  end.
  split; [reflexivity|]. split; [exact Hsecond|].
  exact (linearSolve_twice_factorizes_once _ _ _ _ _ _ _ _ _ _ _ _ _ _ _ _ _
           _ _ _ _ _ _ Hfirst Hsecond).
Defined.

Lemma residual_then_linearSolve_factorizes_witness :
  ∃ m1 res' ret m2 rhs' ret' calls,
    CSTRModel.residual false (λ _ _ _ _ _ _ _ _ _, None)
      (configured pp_tank (Qc_of_Z 13) (Qc_of_Z 19)) (Qc_of_Z 0) 0%N
      (Qc_of_Z 1) [Qc_of_Z 17; Qc_of_Z 11; Qc_of_Z 2]
      (Some [Qc_of_Z 0; Qc_of_Z 3; Qc_of_Z 7])
      [Qc_of_Z 0; Qc_of_Z 0; Qc_of_Z 0] true false
    = Some (m1, res', ret) ∧
    CSTRModel.linearSolve (λ a, (a, true)) (λ _ r, (r, true)) m1
      (Qc_of_Z 0) (Qc_of_Z 1) (Qc_of_Z 1) (Qc_of_Z 0)
      [Qc_of_Z 2; Qc_of_Z 3; Qc_of_Z 5] [Qc_of_Z 17; Qc_of_Z 11; Qc_of_Z 2]
    = Some (m2, rhs', ret', calls) ∧
    ∃ jf rest,
      calls = CSTRModel.Factorize jf :: rest ∧
      DenseMatrix._data jf = DenseMatrix._data (CSTRModel._jac m1) ∧
      (∀ a, CSTRModel.Factorize a ∉ rest) ∧
      CSTRModel._factorizeJac m2 = false.
Proof.
  destruct (CSTRModel.residual false (λ _ _ _ _ _ _ _ _ _, None)
              (configured pp_tank (Qc_of_Z 13) (Qc_of_Z 19)) (Qc_of_Z 0) 0%N
              (Qc_of_Z 1) [Qc_of_Z 17; Qc_of_Z 11; Qc_of_Z 2]
              (Some [Qc_of_Z 0; Qc_of_Z 3; Qc_of_Z 7])
              [Qc_of_Z 0; Qc_of_Z 0; Qc_of_Z 0] true false)
    as [[[m1 res'] ret]|] eqn:Hres;
    [|exfalso; vm_compute in Hres; discriminate].
  assert (Hrun := Hres). vm_compute in Hrun. injection Hrun as Hm1 _ _.
  subst m1.
  match type of Hres with
  | _ = Some (?m1, _, _) =>
      destruct (CSTRModel.linearSolve (λ a, (a, true)) (λ _ r, (r, true)) m1
                  (Qc_of_Z 0) (Qc_of_Z 1) (Qc_of_Z 1) (Qc_of_Z 0)
                  [Qc_of_Z 2; Qc_of_Z 3; Qc_of_Z 5]
                  [Qc_of_Z 17; Qc_of_Z 11; Qc_of_Z 2])
        as [[[[m2 rhs'] ret'] calls]|] eqn:Hls;
        [|exfalso; vm_compute in Hls; discriminate];
      exists m1, res', ret, m2, rhs', ret', calls
  end.
  split; [reflexivity|]. split; [exact Hls|].
  exact (residual_then_linearSolve_factorizes _ _ _ _ _ _ _ _ _ _ _ _ _ _
           _ _ _ _ _ _ _ _ _ _ _ Hres Hls).
Defined.

(** ** [residualImpl] *)

Section ResidualImpl.
Context {R : Type} `{Scalar R}.
Import CSTRModel.
Implicit Types (m : CSTRModel.t R) (y res : list R).

Lemma set_jac_same m : set_jac m (_jac m) = m.
Proof. by destruct m. Qed.

(** What every return of [residualImpl] has in common. *)
Lemma residualImpl_returns wantJac m t secIdx timeFactor y yDot res
    m' res' ret :
  residualImpl wantJac m t secIdx timeFactor y yDot res = Some (m', res', ret) →
  let idxV := uadd (umul 2 (_nComp m)) (_strideBound m) in
  ret = 0%Z ∧
  (∃ vDot,
     match yDot with Some yd => rdN yd idxV | None => Some szero end
     = Some vDot ∧
     rdN res' idxV
     = Some (vDot ⊖ _flowRateIn m ⊕ _flowRateOut m ⊕ _curFlowRateFilter m)) ∧
  m' = set_jac m (_jac m') ∧
  (wantJac = false → m' = m).
Proof.
  unfold residualImpl. intros Hr.
  destruct (rdN y _) as [v|]; [|done]. simpl in Hr.
  destruct (match yDot with Some yd => _ | None => _ end) as [vDot|] eqn:HvDot;
    [|done]. simpl in Hr.
  destruct (for_loop _ _ _ res) as [res1|]; [|done]. simpl in Hr.
  destruct (residual_tank_block _ _ _ _ _ _ _) as [res2|]; [|done].
  simpl in Hr.
  destruct (_binding m) as [b|]; [|done]. simpl in Hr.
  destruct (bm_residual _ _ _ _ _ _ _ _ _ _) as [res3|]; [|done].
  simpl in Hr.
  destruct (wrN res3 _ _) as [res4|] eqn:Hw; [|done]. simpl in Hr.
  apply wr_lookup_eq in Hw.
  destruct wantJac.
  - destruct (for_loop _ _ _ _) as [jac1|]; [|done]. simpl in Hr.
    destruct (bm_analyticJacobian _ _ _ _ _ _ _) as [jac2|]; [|done].
    simpl in Hr. injection Hr as <- <- <-.
    split_and!; [done|by exists vDot|by destruct m|done].
  - injection Hr as <- <- <-.
    split_and!; [done|by exists vDot|by rewrite set_jac_same|done].
Qed.

(** X18. Whenever [residualImpl] returns, with or without the Jacobian: the
    return code is [0]; the residual of the volume equation, at index
    [2 * nComp + strideBound], is [vDot - flowIn + flowOut + filter], where
    [vDot] is the entry of [yDot] at that index, or [0.0] if [yDot] is null;
    and the model is changed in its Jacobian [_jac] at most, and not at all
    without [wantJac]. *)
Theorem residualImpl_volume_equation wantJac m t secIdx timeFactor y yDot res
    m' res' ret :
  residualImpl wantJac m t secIdx timeFactor y yDot res = Some (m', res', ret) →
  let idxV := uadd (umul 2 (_nComp m)) (_strideBound m) in
  ret = 0%Z ∧
  (∃ vDot,
     match yDot with Some yd => rdN yd idxV | None => Some szero end
     = Some vDot ∧
     rdN res' idxV
     = Some (vDot ⊖ _flowRateIn m ⊕ _flowRateOut m ⊕ _curFlowRateFilter m)) ∧
  m' = set_jac m (_jac m') ∧
  (wantJac = false → m' = m).
Proof. apply residualImpl_returns. Qed.

End ResidualImpl.

Lemma residualImpl_volume_equation_witness :
  ∃ m' res' ret,
    CSTRModel.residualImpl true
      (configured pp_tank (Qc_of_Z 13) (Qc_of_Z 19)) (Qc_of_Z 0) 0%N
      (Qc_of_Z 1) [Qc_of_Z 17; Qc_of_Z 11; Qc_of_Z 2]
      (Some [Qc_of_Z 0; Qc_of_Z 3; Qc_of_Z 7])
      [Qc_of_Z 0; Qc_of_Z 0; Qc_of_Z 0]
    = Some (m', res', ret) ∧
    ret = 0%Z ∧
    (∃ vDot,
       rdN [Qc_of_Z 0; Qc_of_Z 3; Qc_of_Z 7]
         (uadd (umul 2 (CSTRModel._nComp
                          (configured pp_tank (Qc_of_Z 13) (Qc_of_Z 19))))
            (CSTRModel._strideBound
               (configured pp_tank (Qc_of_Z 13) (Qc_of_Z 19))))
       = Some vDot ∧
       rdN res'
         (uadd (umul 2 (CSTRModel._nComp
                          (configured pp_tank (Qc_of_Z 13) (Qc_of_Z 19))))
            (CSTRModel._strideBound
               (configured pp_tank (Qc_of_Z 13) (Qc_of_Z 19))))
       = Some (vDot ⊖ Qc_of_Z 13 ⊕ Qc_of_Z 19 ⊕ Qc_of_Z 0)).
Proof.
  destruct (CSTRModel.residualImpl true
              (configured pp_tank (Qc_of_Z 13) (Qc_of_Z 19)) (Qc_of_Z 0) 0%N
              (Qc_of_Z 1) [Qc_of_Z 17; Qc_of_Z 11; Qc_of_Z 2]
              (Some [Qc_of_Z 0; Qc_of_Z 3; Qc_of_Z 7])
              [Qc_of_Z 0; Qc_of_Z 0; Qc_of_Z 0])
    as [[[m' res'] ret]|] eqn:Hrun;
    [|exfalso; vm_compute in Hrun; discriminate].
  exists m', res', ret. split; [reflexivity|].
  destruct (residualImpl_volume_equation _ _ _ _ _ _ _ _ _ _ _ Hrun)
    as (Hret & Hvol & _).
  split; [exact Hret|exact Hvol].
Defined.

Section ResidualImplSteady.
Context {R : Type} `{Scalar R}.
Import CSTRModel.
Implicit Types (m : CSTRModel.t R) (y res : list R).

(** The volume index does not wrap when the state fits into 32 bits. *)
Lemma volume_index_small m :
  (2 * _nComp m + _strideBound m < 2 ^ 32)%N →
  N.to_nat (uadd (umul 2 (_nComp m)) (_strideBound m))
  = 2 * N.to_nat (_nComp m) + N.to_nat (_strideBound m) ∧
  N.to_nat (umul 2 (_nComp m)) = 2 * N.to_nat (_nComp m).
Proof.
  intros Hfit. unfold umul. rewrite uadd_u32_l, !u32_small by lia. lia.
Qed.

(** The first loop of [residualImpl]: [res[i] = cIn[i]]. *)
Lemma inlet_loop m y res :
  N.to_nat (_nComp m) ≤ length y →
  N.to_nat (_nComp m) ≤ length res →
  ∃ res1,
    for_loop (λ i r, cin ← y !! i; wr r i cin) 0 (N.to_nat (_nComp m)) res
    = Some res1 ∧
    inlet_copied_upto y res (N.to_nat (_nComp m)) res1.
Proof.
  intros Hy Hres.
  apply (for_loop_inv (inlet_copied_upto y res)).
  - split; [done|]. intros j. by rewrite decide_False by lia.
  - intros k r Hk [Hlr Hinv].
    destruct (lookup_lt_is_Some_2 y k) as [cin Hcin]; [lia|].
    rewrite Hcin. simpl. rewrite wr_lt by lia. eexists. split; [done|].
    split; [by rewrite length_insert|]. intros j.
    destruct (decide (j = k)) as [->|Hne].
    + rewrite list_lookup_insert_eq by lia. by rewrite decide_True by lia.
    + rewrite list_lookup_insert_ne by done. rewrite Hinv.
      repeat case_decide; first [done | lia].
Qed.

(** The tank block at steady state, with what its loop establishes. *)
Lemma residual_tank_block_steady m timeFactor y v vDot res :
  (_nComp m < 2 ^ 32)%N →
  N.to_nat (_nComp m) ≤ length (_nBound m) →
  2 * N.to_nat (_nComp m) ≤ length y →
  2 * N.to_nat (_nComp m) ≤ length res →
  ∃ res',
    residual_tank_block m timeFactor y None v vDot res = Some res' ∧
    tank_steady_upto m y res (N.to_nat (_nComp m)) res'.
Proof.
  intros HnC Hnb Hy Hres. unfold residual_tank_block.
  apply (tank_loop_steady m timeFactor y v vDot _ res HnC Hnb Hy Hres
           (N.to_nat (_nComp m)) (S (N.to_nat (_nComp m))) 0%N res);
    [lia|lia|].
  split; [done|]. intros k. by rewrite decide_False by lia.
Qed.

(** X19. The residual at steady state ([yDot] null, no Jacobian), which is
    also what the six-argument [residual] computes then.  For a state that
    fits into 32 bits, buffers [y] and [res] that hold it, a bound-state
    count for every component, and a binding model whose residual writes
    from [res + 2 * nComp] on only: [residualImpl] returns [0], leaves the
    model as it is and the size of [res]; the inlet residuals are the inlet
    concentrations, the tank residual of component [i] is
    [0.0 + (-flowIn * c_in,i + flowOut * c_i)], and the volume residual is
    [0.0 - flowIn + flowOut + filter]. *)
Theorem residualImpl_steady_state m b t secIdx timeFactor y res :
  (2 * _nComp m + _strideBound m < 2 ^ 32)%N →
  N.to_nat (_nComp m) ≤ length (_nBound m) →
  2 * N.to_nat (_nComp m) + N.to_nat (_strideBound m) < length y →
  2 * N.to_nat (_nComp m) + N.to_nat (_strideBound m) < length res →
  _binding m = Some b →
  (∀ r, length r = length res →
     ∃ r', bm_residual b t secIdx timeFactor y (_nComp m) None (_nComp m) r
             (umul 2 (_nComp m)) = Some r' ∧
           length r' = length r ∧
           ∀ k, k < 2 * N.to_nat (_nComp m) → r' !! k = r !! k) →
  ∃ res',
    residualImpl false m t secIdx timeFactor y None res = Some (m, res', 0%Z) ∧
    length res' = length res ∧
    (∀ i, i < N.to_nat (_nComp m) → res' !! i = y !! i) ∧
    (∀ i cin ci, i < N.to_nat (_nComp m) →
       y !! i = Some cin → y !! (N.to_nat (_nComp m) + i) = Some ci →
       res' !! (N.to_nat (_nComp m) + i)
       = Some (szero ⊕ (sopp (_flowRateIn m) ⊗ cin ⊕ _flowRateOut m ⊗ ci))) ∧
    res' !! (2 * N.to_nat (_nComp m) + N.to_nat (_strideBound m))
    = Some (szero ⊖ _flowRateIn m ⊕ _flowRateOut m ⊕ _curFlowRateFilter m).
Proof.
  intros Hfit Hnb Hy Hres Hb Hbind.
  destruct (volume_index_small m Hfit) as [HidxV Hidx2].
  destruct (lookup_lt_is_Some_2 y _ Hy) as [v Hv].
  destruct (inlet_loop m y res) as (res1 & Hrun1 & Hl1 & Hinv1); [lia|lia|].
  destruct (residual_tank_block_steady m timeFactor y v szero res1)
    as (res2 & Hrun2 & Hl2 & Hinv2); [lia|done|lia|lia|].
  destruct (Hbind res2) as (res3 & Hrun3 & Hl3 & Hinv3); [congruence|].
  unfold residualImpl, rdN, wrN. rewrite HidxV, Hv. simpl.
  rewrite Hrun1. simpl. rewrite Hrun2. simpl. rewrite Hb. simpl.
  rewrite Hrun3. simpl. rewrite wr_lt by lia. simpl.
  eexists. split; [done|].
  split_and!.
  - rewrite length_insert. congruence.
  - intros i Hi. rewrite list_lookup_insert_ne by lia.
    rewrite Hinv3 by lia. rewrite Hinv2, decide_False by lia.
    rewrite Hinv1. by rewrite decide_True by lia.
  - intros i cin ci Hi Hcin Hci. rewrite list_lookup_insert_ne by lia.
    rewrite Hinv3 by lia. rewrite Hinv2, decide_True by lia.
    replace (N.to_nat (_nComp m) + i - N.to_nat (_nComp m)) with i by lia.
    by rewrite Hcin, Hci.
  - by rewrite list_lookup_insert_eq by lia.
Qed.

End ResidualImplSteady.

Lemma residualImpl_steady_state_witness :
  ∃ res',
    CSTRModel.residualImpl false
      (configured pp_tank_bound (Qc_of_Z 13) (Qc_of_Z 19))
      (Qc_of_Z 0) 0%N (Qc_of_Z 1)
      [Qc_of_Z 17; Qc_of_Z 11; Qc_of_Z 23; Qc_of_Z 2] None
      [Qc_of_Z 1; Qc_of_Z 1; Qc_of_Z 1; Qc_of_Z 1]
    = Some (configured pp_tank_bound (Qc_of_Z 13) (Qc_of_Z 19), res', 0%Z) ∧
    res' !! 0 = Some (Qc_of_Z 17) ∧
    res' !! 1 = Some (szero ⊕ (sopp (Qc_of_Z 13) ⊗ Qc_of_Z 17
                               ⊕ Qc_of_Z 19 ⊗ Qc_of_Z 11)) ∧
    res' !! 3 = Some (szero ⊖ Qc_of_Z 13 ⊕ Qc_of_Z 19 ⊕ Qc_of_Z 0).
Proof.
  destruct (residualImpl_steady_state
              (configured pp_tank_bound (Qc_of_Z 13) (Qc_of_Z 19))
              idle_binding (Qc_of_Z 0) 0%N (Qc_of_Z 1)
              [Qc_of_Z 17; Qc_of_Z 11; Qc_of_Z 23; Qc_of_Z 2]
              [Qc_of_Z 1; Qc_of_Z 1; Qc_of_Z 1; Qc_of_Z 1])
    as (res' & Hrun & _ & Hinlet & Htank & Hvol).
  - vm_compute. reflexivity.
  - vm_compute. lia.
  - vm_compute. lia.
  - vm_compute. lia.
  - reflexivity.
  - intros r _. exists r. split; [reflexivity|]. split; reflexivity.
  - exists res'. split_and!; [exact Hrun| | |exact Hvol].
    + apply (Hinlet 0). vm_compute. lia.
    + apply (Htank 0 (Qc_of_Z 17) (Qc_of_Z 11));
        [vm_compute; lia|reflexivity..].
Defined.

Section ResidualImplJacobian.
Context {R : Type} `{Scalar R}.
Import CSTRModel.
Implicit Types (m : CSTRModel.t R) (y res : list R).

(** A row of the Jacobian cannot be assembled without [yDot]: the row loop
    reads [cDot[i]] and forms [cDot + _nComp + _boundOffset[i]]. *)
Lemma jac_row_body_null m vDot flowOut invBeta i jac :
  jac_row_body m None vDot flowOut invBeta i jac = None.
Proof.
  unfold jac_row_body.
  destruct (DenseMatrix.native_set _ _ _ _); [simpl|done].
  destruct (rdN (_boundOffset m) _); [simpl|done].
  by destruct (rdN (_nBound m) _).
Qed.

(** X20. The Jacobian assembly of [residualImpl] reads the time derivatives
    without the test for a null [yDot] that guards the residual part: with
    at least one component, a call with [wantJac] and a null [yDot] does
    not return, it runs into undefined behaviour. *)
Theorem residualImpl_jacobian_needs_yDot m t secIdx timeFactor y res :
  (0 < _nComp m)%N →
  residualImpl true m t secIdx timeFactor y None res = None.
Proof.
  intros HnC. unfold residualImpl.
  destruct (rdN y _); [simpl|done].
  destruct (for_loop _ _ _ res); [simpl|done].
  destruct (residual_tank_block _ _ _ _ _ _ _); [simpl|done].
  destruct (_binding m); [simpl|done].
  destruct (bm_residual _ _ _ _ _ _ _ _ _ _); [simpl|done].
  destruct (wrN _ _ _); [simpl|done].
  destruct (N.to_nat (_nComp m)) as [|n] eqn:Hn; [lia|].
  simpl. by rewrite jac_row_body_null.
Qed.

End ResidualImplJacobian.

Lemma residualImpl_jacobian_needs_yDot_witness :
  CSTRModel.residualImpl true
    (configured pp_tank (Qc_of_Z 13) (Qc_of_Z 19)) (Qc_of_Z 0) 0%N
    (Qc_of_Z 1) [Qc_of_Z 17; Qc_of_Z 11; Qc_of_Z 2] None
    [Qc_of_Z 0; Qc_of_Z 0; Qc_of_Z 0] = None.
Proof.
  apply (residualImpl_jacobian_needs_yDot
           (configured pp_tank (Qc_of_Z 13) (Qc_of_Z 19))).
  vm_compute. reflexivity.
Defined.

(** ** The Jacobians: the loops over the rows *)

Section DenseMatrixFacts.
Context {R : Type} `{Scalar R}.
Implicit Types (a : DenseMatrix.t R).

Lemma flat_index_inj (cols i j r c : N) :
  (j < cols)%N → (c < cols)%N → (i * cols + j = r * cols + c)%N →
  i = r ∧ j = c.
Proof.
  intros Hj Hc Heq.
  destruct (N.lt_trichotomy i r) as [Hlt|[->|Hlt]]; [nia|lia|nia].
Qed.

Lemma native_is_Some a r c :
  dense_wf a → (r < DenseMatrix._rows a)%N → (c < DenseMatrix._cols a)%N →
  is_Some (DenseMatrix.native a r c).
Proof.
  intros Hwf Hr Hc. unfold DenseMatrix.native, DenseMatrix.inside.
  rewrite (proj2 (N.ltb_lt _ _) Hr), (proj2 (N.ltb_lt _ _) Hc). simpl.
  apply lookup_lt_is_Some_2. rewrite Hwf. nia.
Qed.

Lemma native_set_spec a i j v :
  dense_wf a → (i < DenseMatrix._rows a)%N → (j < DenseMatrix._cols a)%N →
  ∃ a', DenseMatrix.native_set a i j v = Some a' ∧
        dense_wf a' ∧
        DenseMatrix._rows a' = DenseMatrix._rows a ∧
        DenseMatrix._cols a' = DenseMatrix._cols a ∧
        ∀ r c, (r < DenseMatrix._rows a)%N → (c < DenseMatrix._cols a)%N →
          DenseMatrix.native a' r c
          = if decide (r = i ∧ c = j) then Some v
            else DenseMatrix.native a r c.
Proof.
  intros Hwf Hi Hj. unfold DenseMatrix.native_set, DenseMatrix.inside.
  rewrite (proj2 (N.ltb_lt _ _) Hi), (proj2 (N.ltb_lt _ _) Hj). simpl.
  unfold wrN. rewrite wr_lt by (rewrite Hwf; nia). simpl.
  eexists. split; [done|]. split_and!; [|done|done|].
  - unfold dense_wf. simpl. by rewrite length_insert.
  - intros r c Hr Hc. unfold DenseMatrix.native, DenseMatrix.inside. simpl.
    rewrite (proj2 (N.ltb_lt _ _) Hr), (proj2 (N.ltb_lt _ _) Hc). simpl.
    unfold rdN. case_decide as Hrc.
    + destruct Hrc as [-> ->].
      apply list_lookup_insert_eq. rewrite Hwf. nia.
    + apply list_lookup_insert_ne. intros Heq. apply N2Nat.inj in Heq.
      destruct (flat_index_inj _ _ _ _ _ Hj Hc Heq). naive_solver.
Qed.

Lemma setAll_spec a v :
  dense_wf a →
  dense_wf (DenseMatrix.setAll a v) ∧
  ∀ r c, (r < DenseMatrix._rows a)%N → (c < DenseMatrix._cols a)%N →
    DenseMatrix.native (DenseMatrix.setAll a v) r c = Some v.
Proof.
  intros Hwf. split.
  - unfold dense_wf. simpl. by rewrite length_replicate.
  - intros r c Hr Hc. unfold DenseMatrix.native, DenseMatrix.inside. simpl.
    rewrite (proj2 (N.ltb_lt _ _) Hr), (proj2 (N.ltb_lt _ _) Hc). simpl.
    unfold rdN. apply lookup_replicate_2. rewrite Hwf. nia.
Qed.

(** The loop over the bound states of one row. *)
Lemma bound_loop_spec (src : list R) (q off row : N) (v : R) a (n : nat) :
  dense_wf a → (row < DenseMatrix._rows a)%N →
  (off + N.of_nat n ≤ DenseMatrix._cols a)%N →
  (DenseMatrix._cols a < 2 ^ 32)%N →
  N.to_nat q + n ≤ length src →
  ∃ a',
    for_loop (CSTRModel.jac_bound_body src q off row v) 0 n (a, szero)
    = Some (a', foldl sadd szero (take n (drop (N.to_nat q) src))) ∧
    dense_wf a' ∧
    DenseMatrix._rows a' = DenseMatrix._rows a ∧
    DenseMatrix._cols a' = DenseMatrix._cols a ∧
    ∀ r c, (r < DenseMatrix._rows a)%N → (c < DenseMatrix._cols a)%N →
      DenseMatrix.native a' r c
      = if decide (r = row ∧ (off ≤ c < off + N.of_nat n)%N) then Some v
        else DenseMatrix.native a r c.
Proof.
  intros Hwf Hrow Hoff Hfit Hsrc.
  destruct (for_loop_inv
    (λ k (st : DenseMatrix.t R * R),
       dense_wf st.1 ∧
       DenseMatrix._rows st.1 = DenseMatrix._rows a ∧
       DenseMatrix._cols st.1 = DenseMatrix._cols a ∧
       st.2 = foldl sadd szero (take k (drop (N.to_nat q) src)) ∧
       ∀ r c, (r < DenseMatrix._rows a)%N → (c < DenseMatrix._cols a)%N →
         DenseMatrix.native st.1 r c
         = if decide (r = row ∧ (off ≤ c < off + N.of_nat k)%N) then Some v
           else DenseMatrix.native a r c)
    (CSTRModel.jac_bound_body src q off row v) 0 n (a, szero))
    as ([a' s] & Hrun & Hwf' & Hr' & Hc' & Hs & Hent).
  - simpl. split_and!; [done..|].
    intros r c _ _. by rewrite decide_False by lia.
  - intros k [a1 s1] Hk (Hwf1 & Hr1 & Hc1 & Hs1 & Hent1). simpl in *.
    unfold CSTRModel.jac_bound_body. simpl.
    assert (uadd off (N.of_nat k) = (off + N.of_nat k)%N) as ->
      by (apply u32_small; lia).
    destruct (native_set_spec a1 row (off + N.of_nat k) v)
      as (a2 & Hset & Hwf2 & Hr2 & Hc2 & Hent2); [done|lia|lia|].
    rewrite Hset. simpl.
    destruct (lookup_lt_is_Some_2 src (N.to_nat q + k)) as [x Hx]; [lia|].
    unfold rdN. replace (N.to_nat (q + N.of_nat k)) with (N.to_nat q + k)
      by lia.
    rewrite Hx. simpl. eexists. split; [done|]. simpl.
    split_and!; [done|congruence|congruence| |].
    + rewrite (take_S_r _ _ x) by (by rewrite lookup_drop).
      rewrite foldl_app. simpl. by rewrite Hs1.
    + intros r c Hr Hc. rewrite Hent2 by lia. rewrite Hent1 by done.
      repeat case_decide; first [done | lia].
  - simpl in *. subst s. exists a'. by split_and!.
Qed.

End DenseMatrixFacts.

Section JacobianRowsFacts.
Context {R : Type} `{Scalar R}.
Import CSTRModel.
Implicit Types (m : CSTRModel.t R) (a : DenseMatrix.t R).

Lemma jac_row_body_pass m yd vDot flowOut invBeta i a :
  jac_row_body m (Some yd) vDot flowOut invBeta i a
  = row_pass m yd (_nComp m + _nComp m) (vDot ⊕ flowOut) (vDot ⊗ invBeta)
      (λ x s, x ⊕ invBeta ⊗ s) i a.
Proof. reflexivity. Qed.

Lemma tdjac_row_body_pass m timeFactor y invBeta vInvBeta timeV i a :
  tdjac_row_body m timeFactor y invBeta vInvBeta timeV i a
  = row_pass m y (umul 2 (_nComp m)) timeV vInvBeta
      (λ x s, timeFactor ⊗ (x ⊕ invBeta ⊗ s)) i a.
Proof. reflexivity. Qed.

(** The pass over one row. *)
Lemma row_pass_spec m src qBase diag bv fin i a :
  dense_wf a →
  (_nComp m ≤ DenseMatrix._rows a)%N →
  (_nComp m + _strideBound m < DenseMatrix._cols a)%N →
  (DenseMatrix._cols a < 2 ^ 32)%N →
  bound_layout m →
  N.to_nat qBase + N.to_nat (_strideBound m) ≤ length src →
  2 * N.to_nat (_nComp m) ≤ length src →
  i < N.to_nat (_nComp m) →
  ∃ a',
    row_pass m src qBase diag bv fin i a = Some a' ∧
    dense_wf a' ∧
    DenseMatrix._rows a' = DenseMatrix._rows a ∧
    DenseMatrix._cols a' = DenseMatrix._cols a ∧
    ∀ r c, (r < DenseMatrix._rows a)%N → (c < DenseMatrix._cols a)%N →
      DenseMatrix.native a' r c
      = if decide (r = N.of_nat i)
        then Some (row_entry m src qBase diag bv fin
                     (default szero (DenseMatrix.native a r c)) r c)
        else DenseMatrix.native a r c.
Proof.
  intros Hwf Hrows Hcols Hfit Hlay Hq Hsrc Hi.
  destruct (Hlay i Hi) as (bo & nb & Hbo & Hnb & Hin).
  unfold row_pass. simpl.
  destruct (native_set_spec a (N.of_nat i) (N.of_nat i) diag)
    as (a1 & Hset1 & Hwf1 & Hr1 & Hc1 & Hent1); [done|lia|lia|].
  rewrite Hset1. simpl.
  assert (rdN (_boundOffset m) (N.of_nat i) = Some bo) as ->
    by (unfold rdN; by rewrite Nat2N.id).
  simpl.
  assert (rdN (_nBound m) (N.of_nat i) = Some nb) as ->
    by (unfold rdN; by rewrite Nat2N.id).
  simpl.
  assert (uadd (_nComp m) bo = (_nComp m + bo)%N) as ->
    by (apply u32_small; lia).
  destruct (bound_loop_spec src (qBase + bo) (_nComp m + bo) (N.of_nat i) bv
              a1 (N.to_nat nb))
    as (a2 & Hrun & Hwf2 & Hr2 & Hc2 & Hent2); [done|lia|lia|lia|lia|].
  rewrite Hrun. simpl.
  destruct (lookup_lt_is_Some_2 src (N.to_nat (_nComp m) + i)) as [x Hx];
    [lia|].
  unfold rdN. replace (N.to_nat (_nComp m + N.of_nat i))
    with (N.to_nat (_nComp m) + i) by lia.
  rewrite Hx. simpl.
  assert (uadd (_nComp m) (_strideBound m) = (_nComp m + _strideBound m)%N)
    as -> by (apply u32_small; lia).
  destruct (native_set_spec a2 (N.of_nat i) (_nComp m + _strideBound m)
              (fin x (foldl sadd szero
                        (take (N.to_nat nb)
                           (drop (N.to_nat (qBase + bo)) src)))))
    as (a3 & Hset3 & Hwf3 & Hr3 & Hc3 & Hent3); [done|lia|lia|].
  rewrite Hset3. exists a3. split; [done|].
  split_and!; [done|congruence|congruence|].
  intros r c Hr Hc.
  rewrite Hent3 by lia. rewrite Hent2 by lia. rewrite Hent1 by lia.
  destruct (native_is_Some a r c Hwf Hr Hc) as [old Hold]. rewrite Hold.
  simpl. destruct (decide (r = N.of_nat i)) as [->|Hne].
  - unfold row_entry, bound_sum. rewrite Nat2N.id, Hbo, Hnb. simpl.
    replace (N.to_nat (_nComp m + N.of_nat i))
      with (N.to_nat (_nComp m) + i) by lia.
    rewrite Hx. simpl.
    destruct (c =? _nComp m + _strideBound m)%N eqn:Hlast.
    + apply N.eqb_eq in Hlast. by rewrite decide_True by done.
    + apply N.eqb_neq in Hlast. rewrite decide_False by (intros [? ?]; congruence).
      destruct ((_nComp m + bo <=? c) && (c <? _nComp m + bo + nb))%N
        eqn:Hcol.
      * apply andb_true_iff in Hcol as [?%N.leb_le ?%N.ltb_lt].
        by rewrite decide_True by lia.
      * rewrite decide_False.
        2:{ intros [_ [? ?]].
            apply andb_false_iff in Hcol as [?%N.leb_gt| ?%N.ltb_ge]; lia. }
        destruct (c =? N.of_nat i)%N eqn:Hdiag.
        -- apply N.eqb_eq in Hdiag. by rewrite decide_True by done.
        -- apply N.eqb_neq in Hdiag. by rewrite decide_False by (intros [? ?]; congruence).
  - by rewrite !decide_False by (intros [? ?]; congruence).
Qed.

(** The loop over the rows of the components. *)
Lemma rows_loop_spec m src qBase diag bv fin a :
  dense_wf a →
  (_nComp m ≤ DenseMatrix._rows a)%N →
  (_nComp m + _strideBound m < DenseMatrix._cols a)%N →
  (DenseMatrix._cols a < 2 ^ 32)%N →
  bound_layout m →
  N.to_nat qBase + N.to_nat (_strideBound m) ≤ length src →
  2 * N.to_nat (_nComp m) ≤ length src →
  ∃ a',
    for_loop (row_pass m src qBase diag bv fin) 0 (N.to_nat (_nComp m)) a
    = Some a' ∧
    dense_wf a' ∧
    DenseMatrix._rows a' = DenseMatrix._rows a ∧
    DenseMatrix._cols a' = DenseMatrix._cols a ∧
    ∀ r c, (r < DenseMatrix._rows a)%N → (c < DenseMatrix._cols a)%N →
      DenseMatrix.native a' r c
      = if decide (r < _nComp m)%N
        then Some (row_entry m src qBase diag bv fin
                     (default szero (DenseMatrix.native a r c)) r c)
        else DenseMatrix.native a r c.
Proof.
  intros Hwf Hrows Hcols Hfit Hlay Hq Hsrc.
  destruct (for_loop_inv
    (λ k a',
       dense_wf a' ∧
       DenseMatrix._rows a' = DenseMatrix._rows a ∧
       DenseMatrix._cols a' = DenseMatrix._cols a ∧
       ∀ r c, (r < DenseMatrix._rows a)%N → (c < DenseMatrix._cols a)%N →
         DenseMatrix.native a' r c
         = if decide (r < N.of_nat k)%N
           then Some (row_entry m src qBase diag bv fin
                        (default szero (DenseMatrix.native a r c)) r c)
           else DenseMatrix.native a r c)
    (row_pass m src qBase diag bv fin) 0 (N.to_nat (_nComp m)) a)
    as (a' & Hrun & Hwf' & Hr' & Hc' & Hent).
  - split_and!; [done..|]. intros r c _ _. by rewrite decide_False by lia.
  - intros k a1 Hk (Hwf1 & Hr1 & Hc1 & Hent1).
    destruct (row_pass_spec m src qBase diag bv fin k a1)
      as (a2 & Hpass & Hwf2 & Hr2 & Hc2 & Hent2);
      [done|lia|lia|lia|done|done|done|lia|].
    exists a2. split; [done|]. split_and!; [done|congruence|congruence|].
    intros r c Hr Hc. rewrite Hent2 by lia. rewrite Hent1 by done.
    destruct (decide (r = N.of_nat k)) as [->|Hne].
    + rewrite decide_False by lia. rewrite decide_True by lia.
      destruct (native_is_Some a (N.of_nat k) c Hwf Hr Hc) as [old ->]. done.
    + repeat case_decide; first [done | lia].
  - exists a'. split; [done|]. split_and!; [done..|].
    intros r c Hr Hc. rewrite Hent by done.
    repeat case_decide; first [done | lia].
Qed.

End JacobianRowsFacts.

Section Jacobians.
Context {R : Type} `{Scalar R}.
Import CSTRModel.
Implicit Types (m : CSTRModel.t R) (a : DenseMatrix.t R) (y res : list R).

(** X21. The state Jacobian that [residualImpl] assembles with [wantJac].
    For a stored matrix [_jac] with room for the rows of the components and
    the column of the volume, bound states that lie inside their block, and
    time derivatives [yd] for the whole state: the loop over the components
    returns; it keeps the size of the matrix; row [i] of a component holds
    [cDot_i + invBeta * sum_j qDot_i,j] in the column of the volume,
    [vDot * invBeta] in the columns of its bound states, [vDot + flowOut] on
    the diagonal and [0.0] elsewhere; every other row is [0.0].  Whenever
    [residualImpl] returns, the Jacobian it stores is what the binding model
    made of this matrix. *)
Theorem residualImpl_jacobian_rows m t secIdx timeFactor y yd res vDot :
  dense_wf (_jac m) →
  (_nComp m ≤ DenseMatrix._rows (_jac m))%N →
  (_nComp m + _strideBound m < DenseMatrix._cols (_jac m))%N →
  (DenseMatrix._cols (_jac m) < 2 ^ 32)%N →
  bound_layout m →
  2 * N.to_nat (_nComp m) + N.to_nat (_strideBound m) ≤ length yd →
  let invBeta := sone ⊘ _porosity m ⊖ sone in
  ∃ jac1,
    for_loop (jac_row_body m (Some yd) vDot (_flowRateOut m) invBeta)
      0 (N.to_nat (_nComp m)) (DenseMatrix.setAll (_jac m) szero)
    = Some jac1 ∧
    DenseMatrix._rows jac1 = DenseMatrix._rows (_jac m) ∧
    DenseMatrix._cols jac1 = DenseMatrix._cols (_jac m) ∧
    (∀ r c, (r < DenseMatrix._rows (_jac m))%N →
            (c < DenseMatrix._cols (_jac m))%N →
       DenseMatrix.native jac1 r c
       = Some (if decide (r < _nComp m)%N
               then row_entry m yd (_nComp m + _nComp m)
                      (vDot ⊕ _flowRateOut m) (vDot ⊗ invBeta)
                      (λ x s, x ⊕ invBeta ⊗ s) szero r c
               else szero)) ∧
    (∀ b m' res' ret,
       _binding m = Some b →
       rdN yd (uadd (umul 2 (_nComp m)) (_strideBound m)) = Some vDot →
       residualImpl true m t secIdx timeFactor y (Some yd) res
       = Some (m', res', ret) →
       bm_analyticJacobian b t secIdx y (umul 2 (_nComp m)) jac1 (_nComp m)
       = Some (_jac m')).
Proof.
  intros Hwf Hrows Hcols Hfit Hlay Hyd invBeta.
  destruct (setAll_spec (_jac m) szero Hwf) as [Hwf0 Hzero].
  destruct (rows_loop_spec m yd (_nComp m + _nComp m)
              (vDot ⊕ _flowRateOut m) (vDot ⊗ invBeta)
              (λ x s, x ⊕ invBeta ⊗ s) (DenseMatrix.setAll (_jac m) szero))
    as (jac1 & Hrun & _ & Hr1 & Hc1 & Hent);
    [done|done|done|done|done|lia|lia|].
  assert (for_loop (jac_row_body m (Some yd) vDot (_flowRateOut m) invBeta)
            0 (N.to_nat (_nComp m)) (DenseMatrix.setAll (_jac m) szero)
          = Some jac1) as Hloop by exact Hrun.
  exists jac1. split_and!; [done|done|done| |].
  - intros r c Hr Hc. rewrite (Hent r c Hr Hc), (Hzero r c Hr Hc). simpl.
    by case_decide.
  - intros b m' res' ret Hb HvDot. unfold residualImpl.
    destruct (rdN y _) as [v|]; [simpl|done]. rewrite HvDot. simpl.
    destruct (for_loop _ _ _ res) as [res1|]; [simpl|done].
    destruct (residual_tank_block _ _ _ _ _ _ _) as [res2|]; [simpl|done].
    rewrite Hb. simpl.
    destruct (bm_residual _ _ _ _ _ _ _ _ _ _) as [res3|]; [simpl|done].
    destruct (wrN res3 _ _) as [res4|]; [simpl|done].
    fold invBeta. rewrite Hloop. simpl.
    destruct (bm_analyticJacobian _ _ _ _ _ _ _) as [jac2|]; [simpl|done].
    by intros [= <- _ _].
Qed.

(** X22. [addTimeDerivativeJacobian] on a state that fits into 32 bits, a
    matrix with room for the rows of the components and the row and column
    of the volume, bound states inside their block, and a binding model
    that writes from row [nComp] on only: it returns and keeps the size of
    the matrix; row [i] of a component holds
    [timeFactor * (c_i + invBeta * sum_j q_i,j)] in the column of the
    volume, [timeFactor * V * invBeta] in the columns of its bound states
    and [timeFactor * V] on the diagonal, and keeps its other entries: the
    entries are assigned, nothing is added to what the matrix held; the
    diagonal entry of the volume is [timeFactor]. *)
Theorem addTimeDerivativeJacobian_rows m b t timeFactor y mat v :
  (2 * _nComp m + _strideBound m < 2 ^ 32)%N →
  dense_wf mat →
  (_nComp m + _strideBound m < DenseMatrix._rows mat)%N →
  (_nComp m + _strideBound m < DenseMatrix._cols mat)%N →
  (DenseMatrix._cols mat < 2 ^ 32)%N →
  bound_layout m →
  y !! (2 * N.to_nat (_nComp m) + N.to_nat (_strideBound m)) = Some v →
  _binding m = Some b →
  (∀ a, dense_wf a →
     ∃ a', bm_jacobianAddDiscretized b timeFactor a (_nComp m) = Some a' ∧
           dense_wf a' ∧
           DenseMatrix._rows a' = DenseMatrix._rows a ∧
           DenseMatrix._cols a' = DenseMatrix._cols a ∧
           ∀ r c, (r < _nComp m)%N →
             DenseMatrix.native a' r c = DenseMatrix.native a r c) →
  let invBeta := sone ⊘ _porosity m ⊖ sone in
  ∃ mat',
    addTimeDerivativeJacobian m t timeFactor y mat = Some mat' ∧
    DenseMatrix._rows mat' = DenseMatrix._rows mat ∧
    DenseMatrix._cols mat' = DenseMatrix._cols mat ∧
    (∀ r c, (r < _nComp m)%N → (c < DenseMatrix._cols mat)%N →
       DenseMatrix.native mat' r c
       = Some (row_entry m y (2 * _nComp m) (timeFactor ⊗ v)
                 (timeFactor ⊗ v ⊗ invBeta)
                 (λ x s, timeFactor ⊗ (x ⊕ invBeta ⊗ s))
                 (default szero (DenseMatrix.native mat r c)) r c)) ∧
    DenseMatrix.native mat' (_nComp m + _strideBound m)
      (_nComp m + _strideBound m) = Some timeFactor.
Proof.
  intros Hfit Hwf Hrows Hcols Hfitc Hlay Hv Hb Hbind invBeta.
  destruct (volume_index_small m Hfit) as [HidxV Hidx2].
  assert (umul 2 (_nComp m) = (2 * _nComp m)%N) as Hmul
    by (apply u32_small; lia).
  assert (uadd (_nComp m) (_strideBound m) = (_nComp m + _strideBound m)%N)
    as Hlast by (apply u32_small; lia).
  pose proof (lookup_lt_Some _ _ _ Hv) as Hy.
  destruct (rows_loop_spec m y (umul 2 (_nComp m)) (timeFactor ⊗ v)
              (timeFactor ⊗ v ⊗ invBeta)
              (λ x s, timeFactor ⊗ (x ⊕ invBeta ⊗ s)) mat)
    as (mat1 & Hrun & Hwf1 & Hr1 & Hc1 & Hent1);
    [done|lia|done|done|done|lia|lia|].
  rewrite Hmul in Hent1.
  destruct (Hbind mat1 Hwf1) as (mat2 & Hrun2 & Hwf2 & Hr2 & Hc2 & Hent2).
  destruct (native_set_spec mat2 (_nComp m + _strideBound m)
              (_nComp m + _strideBound m) timeFactor)
    as (mat3 & Hset & _ & Hr3 & Hc3 & Hent3); [done|lia|lia|].
  unfold addTimeDerivativeJacobian, rdN. rewrite HidxV, Hv, Hlast.
  simpl. fold invBeta.
  assert (for_loop
            (tdjac_row_body m timeFactor y invBeta (timeFactor ⊗ v ⊗ invBeta)
               (timeFactor ⊗ v))
            0 (N.to_nat (_nComp m)) mat = Some mat1) as -> by exact Hrun.
  simpl. rewrite Hb. simpl. rewrite Hrun2. simpl. rewrite Hset.
  exists mat3. split; [done|]. split_and!; [congruence|congruence| |].
  - intros r c Hr Hc. rewrite Hent3 by lia.
    rewrite decide_False by lia. rewrite Hent2 by done.
    rewrite Hent1 by lia. by rewrite decide_True by done.
  - rewrite Hent3 by lia. by rewrite decide_True by done.
Qed.

End Jacobians.

Lemma residualImpl_jacobian_rows_witness :
  ∃ jac1,
    for_loop
      (CSTRModel.jac_row_body
         (configured pp_tank_bound (Qc_of_Z 13) (Qc_of_Z 19))
         (Some [Qc_of_Z 0; Qc_of_Z 3; Qc_of_Z 5; Qc_of_Z 7]) (Qc_of_Z 7)
         (Qc_of_Z 19) (sone ⊘ Q2Qc (Qmake 1 2) ⊖ sone))
      0 1
      (DenseMatrix.setAll
         (CSTRModel._jac (configured pp_tank_bound (Qc_of_Z 13) (Qc_of_Z 19)))
         szero)
    = Some jac1 ∧
    DenseMatrix.native jac1 0 0 = Some (Qc_of_Z 26) ∧
    DenseMatrix.native jac1 0 1 = Some (Qc_of_Z 7) ∧
    DenseMatrix.native jac1 0 2 = Some (Qc_of_Z 8) ∧
    DenseMatrix.native jac1 1 1 = Some (Qc_of_Z 0).
Proof.
  destruct (residualImpl_jacobian_rows
              (configured pp_tank_bound (Qc_of_Z 13) (Qc_of_Z 19))
              (Qc_of_Z 0) 0%N (Qc_of_Z 1)
              [Qc_of_Z 17; Qc_of_Z 11; Qc_of_Z 23; Qc_of_Z 2]
              [Qc_of_Z 0; Qc_of_Z 3; Qc_of_Z 5; Qc_of_Z 7]
              [Qc_of_Z 0; Qc_of_Z 0; Qc_of_Z 0; Qc_of_Z 0] (Qc_of_Z 7))
    as (jac1 & Hrun & _ & _ & Hent & _).
  - vm_compute. reflexivity.
  - vm_compute. discriminate.
  - vm_compute. reflexivity.
  - vm_compute. reflexivity.
  - intros i Hi. assert (i = 0) as -> by (vm_compute in Hi; lia).
    exists 0%N, 1%N. split_and!; [reflexivity|reflexivity|].
    vm_compute. discriminate.
  - vm_compute. lia.
  - exists jac1. split; [exact Hrun|].
    rewrite (Hent 0%N 0%N), (Hent 0%N 1%N), (Hent 0%N 2%N), (Hent 1%N 1%N)
      by (vm_compute; reflexivity).
    run_exact.
Defined.

Lemma addTimeDerivativeJacobian_rows_witness :
  ∃ mat',
    CSTRModel.addTimeDerivativeJacobian
      (configured pp_tank_second_bound (Qc_of_Z 13) (Qc_of_Z 19))
      (Qc_of_Z 0) (Qc_of_Z 3)
      [Qc_of_Z 17; Qc_of_Z 18; Qc_of_Z 11; Qc_of_Z 12; Qc_of_Z 23; Qc_of_Z 2]
      (DenseMatrix.setAll
         (CSTRModel._jac
            (configured pp_tank_second_bound (Qc_of_Z 13) (Qc_of_Z 19)))
         (Qc_of_Z 5))
    = Some mat' ∧
    DenseMatrix.native mat' 0 0 = Some (Qc_of_Z 6) ∧
    DenseMatrix.native mat' 0 1 = Some (Qc_of_Z 5) ∧
    DenseMatrix.native mat' 0 2 = Some (Qc_of_Z 5) ∧
    DenseMatrix.native mat' 0 3 = Some (Qc_of_Z 33) ∧
    DenseMatrix.native mat' 1 0 = Some (Qc_of_Z 5) ∧
    DenseMatrix.native mat' 1 1 = Some (Qc_of_Z 6) ∧
    DenseMatrix.native mat' 1 2 = Some (Qc_of_Z 6) ∧
    DenseMatrix.native mat' 1 3 = Some (Qc_of_Z 105) ∧
    DenseMatrix.native mat' 3 3 = Some (Qc_of_Z 3).
Proof.
  destruct (addTimeDerivativeJacobian_rows
              (configured pp_tank_second_bound (Qc_of_Z 13) (Qc_of_Z 19))
              idle_binding (Qc_of_Z 0) (Qc_of_Z 3)
              [Qc_of_Z 17; Qc_of_Z 18; Qc_of_Z 11; Qc_of_Z 12; Qc_of_Z 23;
               Qc_of_Z 2]
              (DenseMatrix.setAll
                 (CSTRModel._jac
                    (configured pp_tank_second_bound (Qc_of_Z 13)
                       (Qc_of_Z 19)))
                 (Qc_of_Z 5))
              (Qc_of_Z 2))
    as (mat' & Hrun & _ & _ & Hent & Hvol).
  - vm_compute. reflexivity.
  - vm_compute. reflexivity.
  - vm_compute. reflexivity.
  - vm_compute. reflexivity.
  - vm_compute. reflexivity.
  - intros i Hi.
    assert (i = 0 ∨ i = 1) as [-> | ->] by (vm_compute in Hi; lia).
    + exists 0%N, 0%N. split_and!; [reflexivity|reflexivity|].
      vm_compute. discriminate.
    + exists 0%N, 1%N. split_and!; [reflexivity|reflexivity|].
      vm_compute. discriminate.
  - reflexivity.
  - reflexivity.
  - intros a Hwf. exists a. by split_and!.
  - exists mat'. split; [exact Hrun|].
    rewrite (Hent 0%N 0%N), (Hent 0%N 1%N), (Hent 0%N 2%N), (Hent 0%N 3%N),
      (Hent 1%N 0%N), (Hent 1%N 1%N), (Hent 1%N 2%N), (Hent 1%N 3%N)
      by (vm_compute; reflexivity).
    split_and!; [run_exact..|exact Hvol].
Defined.

Section ResidualImplFull.
Context {R : Type} `{Scalar R}.
Import CSTRModel.
Implicit Types (m : CSTRModel.t R) (a : DenseMatrix.t R) (y res : list R).

(** X23. [residualImpl] with time derivatives and [wantJac], in a model
    whose components have no bound state.  For a state that fits into 32
    bits, buffers [y], [yd] and [res] that hold it, a stored matrix [_jac]
    with room for the rows of the components and the column of the volume,
    and a binding model that writes from [res + 2 * nComp] and from row
    [nComp] of the Jacobian on only: the function returns [0] and changes
    the model in [_jac] only; the inlet residuals are the inlet
    concentrations; the tank residual of component [i] is
    [timeFactor * ((cDot_i + invBeta * 0.0) * V + vDot * c_i)
     + (-flowIn * c_in,i + flowOut * c_i)];
    the volume residual is [vDot - flowIn + flowOut + filter]; and row [i]
    of the Jacobian holds [cDot_i + invBeta * 0.0] in the column of the
    volume, [vDot + flowOut] on the diagonal and [0.0] elsewhere. *)
Theorem residualImpl_without_bound_states m b t secIdx timeFactor y yd res
    v vDot :
  (2 * _nComp m + _strideBound m < 2 ^ 32)%N →
  (∀ i, i < N.to_nat (_nComp m) →
        _nBound m !! i = Some 0%N ∧ _boundOffset m !! i = Some 0%N) →
  dense_wf (_jac m) →
  (_nComp m ≤ DenseMatrix._rows (_jac m))%N →
  (_nComp m + _strideBound m < DenseMatrix._cols (_jac m))%N →
  (DenseMatrix._cols (_jac m) < 2 ^ 32)%N →
  y !! (2 * N.to_nat (_nComp m) + N.to_nat (_strideBound m)) = Some v →
  yd !! (2 * N.to_nat (_nComp m) + N.to_nat (_strideBound m)) = Some vDot →
  2 * N.to_nat (_nComp m) + N.to_nat (_strideBound m) < length res →
  _binding m = Some b →
  (∀ r, length r = length res →
     ∃ r', bm_residual b t secIdx timeFactor y (_nComp m) (Some yd) (_nComp m)
             r (umul 2 (_nComp m)) = Some r' ∧
           length r' = length r ∧
           ∀ k, k < 2 * N.to_nat (_nComp m) → r' !! k = r !! k) →
  (∀ a, dense_wf a →
     ∃ a', bm_analyticJacobian b t secIdx y (umul 2 (_nComp m)) a (_nComp m)
           = Some a' ∧
           ∀ r c, (r < _nComp m)%N →
             DenseMatrix.native a' r c = DenseMatrix.native a r c) →
  let invBeta := sone ⊘ _porosity m ⊖ sone in
  ∃ m' res',
    residualImpl true m t secIdx timeFactor y (Some yd) res
    = Some (m', res', 0%Z) ∧
    m' = set_jac m (_jac m') ∧
    length res' = length res ∧
    (∀ i, i < N.to_nat (_nComp m) → res' !! i = y !! i) ∧
    (∀ i, i < N.to_nat (_nComp m) →
       res' !! (N.to_nat (_nComp m) + i)
       = Some (tank_value_unsummed m timeFactor y yd v vDot i)) ∧
    res' !! (2 * N.to_nat (_nComp m) + N.to_nat (_strideBound m))
    = Some (vDot ⊖ _flowRateIn m ⊕ _flowRateOut m ⊕ _curFlowRateFilter m) ∧
    (∀ r c, (r < _nComp m)%N → (c < DenseMatrix._cols (_jac m))%N →
       DenseMatrix.native (_jac m') r c
       = Some (if (c =? _nComp m + _strideBound m)%N
               then default szero (yd !! N.to_nat (_nComp m + r))
                    ⊕ invBeta ⊗ szero
               else if (c =? r)%N then vDot ⊕ _flowRateOut m
               else szero)).
Proof.
  intros Hfit Hnb Hwf Hrows Hcols Hfitc Hv HvDot Hres Hb Hbres Hbjac invBeta.
  destruct (volume_index_small m Hfit) as [HidxV Hidx2].
  pose proof (lookup_lt_Some _ _ _ Hv) as Hy.
  pose proof (lookup_lt_Some _ _ _ HvDot) as Hyd.
  assert (bound_layout m) as Hlay.
  { intros i Hi. destruct (Hnb i Hi) as [Hn Ho].
    exists 0%N, 0%N. split_and!; [done|done|lia]. }
  destruct (inlet_loop m y res) as (res1 & Hrun1 & Hl1 & Hinv1); [lia|lia|].
  destruct (residual_tank_block_without_bound_states m timeFactor y yd v vDot
              res1) as (res2 & Hrun2 & Hl2 & Hinv2); [lia| |lia|lia|lia|].
  { intros i Hi. destruct (Hnb i Hi) as [-> ->]. split; [done|by eexists]. }
  destruct (Hbres res2) as (res3 & Hrun3 & Hl3 & Hinv3); [congruence|].
  destruct (setAll_spec (_jac m) szero Hwf) as [Hwf0 Hzero].
  destruct (rows_loop_spec m yd (_nComp m + _nComp m)
              (vDot ⊕ _flowRateOut m) (vDot ⊗ invBeta)
              (λ x s, x ⊕ invBeta ⊗ s) (DenseMatrix.setAll (_jac m) szero))
    as (jac1 & Hrun4 & Hwf1 & Hr1 & Hc1 & Hent1);
    [done|done|done|done|done|lia|lia|].
  assert (for_loop (jac_row_body m (Some yd) vDot (_flowRateOut m) invBeta)
            0 (N.to_nat (_nComp m)) (DenseMatrix.setAll (_jac m) szero)
          = Some jac1) as Hloop by exact Hrun4.
  destruct (Hbjac jac1 Hwf1) as (jac2 & Hrun5 & Hent2).
  assert (rdN y (uadd (umul 2 (_nComp m)) (_strideBound m)) = Some v)
    as Hv' by (unfold rdN; by rewrite HidxV).
  assert (rdN yd (uadd (umul 2 (_nComp m)) (_strideBound m)) = Some vDot)
    as HvDot' by (unfold rdN; by rewrite HidxV).
  assert (∀ x, wrN res3 (uadd (umul 2 (_nComp m)) (_strideBound m)) x
               = Some (<[2 * N.to_nat (_nComp m)
                         + N.to_nat (_strideBound m) := x]> res3)) as Hw
    by (intros x; unfold wrN; rewrite HidxV; apply wr_lt; lia).
  unfold residualImpl. rewrite Hv'. simpl. rewrite HvDot'. simpl.
  rewrite Hrun1. simpl. rewrite Hrun2. simpl. rewrite Hb. simpl.
  rewrite Hrun3. simpl. rewrite Hw. simpl.
  fold invBeta. rewrite Hloop. simpl. rewrite Hrun5. simpl.
  eexists _, _. split; [done|]. simpl. split_and!.
  - done.
  - rewrite length_insert. congruence.
  - intros i Hi. rewrite list_lookup_insert_ne by lia.
    rewrite Hinv3 by lia. rewrite Hinv2, decide_False by lia.
    rewrite Hinv1. by rewrite decide_True by lia.
  - intros i Hi. rewrite list_lookup_insert_ne by lia.
    rewrite Hinv3 by lia. rewrite Hinv2, decide_True by lia.
    by replace (N.to_nat (_nComp m) + i - N.to_nat (_nComp m)) with i by lia.
  - by rewrite list_lookup_insert_eq by lia.
  - intros r c Hr Hc. rewrite Hent2 by done.
    rewrite Hent1 by (simpl; lia). rewrite decide_True by done.
    rewrite Hzero by lia. simpl. f_equal.
    unfold row_entry, bound_sum.
    destruct (Hnb (N.to_nat r)) as [-> ->]; [lia|]. simpl.
    destruct (c =? _nComp m + _strideBound m)%N; [done|].
    destruct (_nComp m + 0 <=? c)%N eqn:Hle; simpl; [|done].
    destruct (c <? _nComp m + 0 + 0)%N eqn:Hlt; [|done].
    apply N.leb_le in Hle. apply N.ltb_lt in Hlt. lia.
Qed.

End ResidualImplFull.

Lemma residualImpl_without_bound_states_witness :
  ∃ m' res',
    CSTRModel.residualImpl true
      (configured pp_tank (Qc_of_Z 13) (Qc_of_Z 19)) (Qc_of_Z 0) 0%N
      (Qc_of_Z 1) [Qc_of_Z 17; Qc_of_Z 11; Qc_of_Z 2]
      (Some [Qc_of_Z 0; Qc_of_Z 3; Qc_of_Z 7])
      [Qc_of_Z 0; Qc_of_Z 0; Qc_of_Z 0]
    = Some (m', res', 0%Z) ∧
    res' !! 0 = Some (Qc_of_Z 17) ∧
    res' !! 1 = Some (Qc_of_Z 71) ∧
    res' !! 2 = Some (Qc_of_Z 13) ∧
    DenseMatrix.native (CSTRModel._jac m') 0 0 = Some (Qc_of_Z 26) ∧
    DenseMatrix.native (CSTRModel._jac m') 0 1 = Some (Qc_of_Z 3).
Proof.
  destruct (residualImpl_without_bound_states
              (configured pp_tank (Qc_of_Z 13) (Qc_of_Z 19)) idle_binding
              (Qc_of_Z 0) 0%N (Qc_of_Z 1)
              [Qc_of_Z 17; Qc_of_Z 11; Qc_of_Z 2]
              [Qc_of_Z 0; Qc_of_Z 3; Qc_of_Z 7]
              [Qc_of_Z 0; Qc_of_Z 0; Qc_of_Z 0] (Qc_of_Z 2) (Qc_of_Z 7))
    as (m' & res' & Hrun & _ & _ & Hinlet & Htank & Hvol & Hjac).
  - vm_compute. reflexivity.
  - intros i Hi. assert (i = 0) as -> by (vm_compute in Hi; lia).
    split; reflexivity.
  - vm_compute. reflexivity.
  - vm_compute. discriminate.
  - vm_compute. reflexivity.
  - vm_compute. reflexivity.
  - reflexivity.
  - reflexivity.
  - vm_compute. lia.
  - reflexivity.
  - intros r _. exists r. by split_and!.
  - intros a _. exists a. by split.
  - exists m', res'. split; [exact Hrun|]. split_and!.
    + etrans; [apply (Hinlet 0); vm_compute; lia|run_exact].
    + etrans; [apply (Htank 0); vm_compute; lia|run_exact].
    + etrans; [exact Hvol|run_exact].
    + etrans; [apply (Hjac 0%N 0%N); vm_compute; reflexivity|run_exact].
    + etrans; [apply (Hjac 0%N 1%N); vm_compute; reflexivity|run_exact].
Defined.

(** ** Section transitions *)

Section SectionTransition.
Context {R : Type} `{Scalar R}.
Import CSTRModel.
Implicit Types (m : CSTRModel.t R) (y res : list R).

(** X24. [notifyDiscontinuousSectionTransition] returns exactly when the
    schedule [_flowRateFilter] has at most one value or has a value for the
    section; it changes [_curFlowRateFilter] only.  A residual evaluation
    afterwards, for whatever section index it is called with, has the volume
    residual [vDot - flowIn + flowOut + filter] with the filter value of the
    section notified last. *)
Theorem residual_uses_notified_filter m secIdx :
  (is_Some (notifyDiscontinuousSectionTransition m secIdx) ↔
   length (_flowRateFilter m) ≤ 1
   ∨ N.to_nat secIdx < length (_flowRateFilter m)) ∧
  (∀ m1, notifyDiscontinuousSectionTransition m secIdx = Some m1 →
     m1 = set_curFlowRateFilter m (notified_filter m secIdx) ∧
     ∀ wantJac t secIdx' timeFactor y yDot res m' res' ret,
       residualImpl wantJac m1 t secIdx' timeFactor y yDot res
       = Some (m', res', ret) →
       ∃ vDot,
         match yDot with
         | Some yd => rdN yd (uadd (umul 2 (_nComp m)) (_strideBound m))
         | None => Some szero
         end = Some vDot ∧
         rdN res' (uadd (umul 2 (_nComp m)) (_strideBound m))
         = Some (vDot ⊖ _flowRateIn m ⊕ _flowRateOut m
                 ⊕ notified_filter m secIdx)).
Proof.
  unfold notifyDiscontinuousSectionTransition, notified_filter, rdN.
  split.
  - case_decide as Hmany.
    + destruct (_flowRateFilter m !! N.to_nat secIdx) as [f|] eqn:Hf; simpl.
      * apply lookup_lt_Some in Hf. split; [intros _; lia|by eexists].
      * apply lookup_ge_None in Hf. split; [by intros []|lia].
    + case_decide as Hone.
      * destruct (_flowRateFilter m) as [|f [|]]; [done| |done]. simpl.
        split; [intros _; lia|by eexists].
      * split; [intros _; lia|by eexists].
  - intros m1 Hnot.
    assert (m1 = set_curFlowRateFilter m
                   (if decide (1 < length (_flowRateFilter m))
                    then default (_curFlowRateFilter m)
                           (_flowRateFilter m !! N.to_nat secIdx)
                    else default (_curFlowRateFilter m)
                           (_flowRateFilter m !! 0))) as ->.
    { case_decide as Hmany.
      - destruct (_flowRateFilter m !! N.to_nat secIdx); [|done].
        by injection Hnot as <-.
      - case_decide as Hone.
        + destruct (_flowRateFilter m !! 0); [|done]. by injection Hnot as <-.
        + injection Hnot as <-.
          destruct (_flowRateFilter m) as [|f l]; [|simpl in *; lia].
          simpl. by destruct m. }
    split; [done|].
    intros wantJac t secIdx' timeFactor y yDot res m' res' ret Hres.
    destruct (residualImpl_returns _ _ _ _ _ _ _ _ _ _ _ Hres)
      as (_ & Hvol & _).
    exact Hvol.
Qed.

End SectionTransition.

Lemma residual_uses_notified_filter_witness :
  ∃ m1 res',
    CSTRModel.notifyDiscontinuousSectionTransition
      (CSTRModel.set_section_parameters
         (configured pp_tank (Qc_of_Z 13) (Qc_of_Z 19)) (Qc_of_Z 0)
         [Qc_of_Z 4; Qc_of_Z 6] (Qc_of_Z 1)) 1%N = Some m1 ∧
    CSTRModel.residualImpl false m1 (Qc_of_Z 0) 0%N (Qc_of_Z 1)
      [Qc_of_Z 17; Qc_of_Z 11; Qc_of_Z 2] None
      [Qc_of_Z 0; Qc_of_Z 0; Qc_of_Z 0]
    = Some (m1, res', 0%Z) ∧
    res' !! 2 = Some (szero ⊖ Qc_of_Z 13 ⊕ Qc_of_Z 19 ⊕ Qc_of_Z 6).
Proof.
  destruct (residual_uses_notified_filter
              (CSTRModel.set_section_parameters
                 (configured pp_tank (Qc_of_Z 13) (Qc_of_Z 19)) (Qc_of_Z 0)
                 [Qc_of_Z 4; Qc_of_Z 6] (Qc_of_Z 1)) 1%N)
    as [_ Hafter].
  destruct (Hafter _ eq_refl) as [_ Hres].
  destruct (CSTRModel.residualImpl false
              (CSTRModel.set_curFlowRateFilter
                 (CSTRModel.set_section_parameters
                    (configured pp_tank (Qc_of_Z 13) (Qc_of_Z 19)) (Qc_of_Z 0)
                    [Qc_of_Z 4; Qc_of_Z 6] (Qc_of_Z 1)) (Qc_of_Z 6))
              (Qc_of_Z 0) 0%N (Qc_of_Z 1)
              [Qc_of_Z 17; Qc_of_Z 11; Qc_of_Z 2] None
              [Qc_of_Z 0; Qc_of_Z 0; Qc_of_Z 0])
    as [[[m' res'] ret]|] eqn:Hrun;
    [|exfalso; vm_compute in Hrun; discriminate].
  destruct (Hres false _ _ _ _ _ _ _ _ _ Hrun) as (vDot & HvDot & Hvol).
  injection HvDot as <-.
  destruct (residualImpl_returns _ _ _ _ _ _ _ _ _ _ _ Hrun)
    as (Hret & _ & _ & Hm).
  specialize (Hm eq_refl). subst ret m'.
  exists (CSTRModel.set_curFlowRateFilter
            (CSTRModel.set_section_parameters
               (configured pp_tank (Qc_of_Z 13) (Qc_of_Z 19)) (Qc_of_Z 0)
               [Qc_of_Z 4; Qc_of_Z 6] (Qc_of_Z 1)) (Qc_of_Z 6)), res'.
  split; [reflexivity|]. split; [exact Hrun|exact Hvol].
Defined.

(** ** [configure]: what it leaves for the residual and the Jacobians *)

Section ConfigureMore.
Context {R : Type} `{Scalar R}.
Import CSTRModel.
Implicit Types (m : CSTRModel.t R) (pp : IParameterProvider R).

Lemma sumN_take_le (l : list N) i : (sumN (take i l) ≤ sumN l)%N.
Proof. rewrite <- (take_drop i l) at 2. rewrite sumN_app. lia. Qed.

Lemma reconfigure_fst m pp :
  (reconfigure m pp).1
  = set_section_parameters m szero
      (if exists_ pp "FLOWRATE_FILTER"
       then getDoubleArray pp "FLOWRATE_FILTER" else [])
      (if exists_ pp "POROSITY" then getDouble pp "POROSITY" else sone).
Proof.
  unfold reconfigure. simpl.
  destruct (_binding m); [destruct (exists_ pp "adsorption")|]; done.
Qed.

(** The members that [configure] sets besides the discretisation. *)
Lemma configure_members chk m0 m pp helper ok :
  configure chk m0 pp helper = Returns (m, ok) →
  let nVar := uadd (uadd (_nComp m) (_strideBound m)) 1 in
  _jac m = DenseMatrix.resize nVar nVar ∧
  _jacFact m = DenseMatrix.resize nVar nVar ∧
  _factorizeJac m = _factorizeJac m0 ∧
  _curFlowRateFilter m = szero ∧
  _analyticJac m
  = (if chk then false
     else if exists_ pp "USE_ANALYTIC_JACOBIAN"
          then getBool pp "USE_ANALYTIC_JACOBIAN" else true).
Proof.
  unfold configure.
  destruct (configure_discretization pp) as [[[[nC nb] bo] sB]|]; [|done].
  simpl. rewrite reconfigure_fst.
  destruct (exists_ pp "ADSORPTION_MODEL").
  - destruct (createBindingModel _ _); [|done].
    intros [= <- _]. simpl. unfold useAnalyticJacobian. simpl.
    split_and!; [done..|]. by destruct chk.
  - intros [= <- _]. simpl. unfold useAnalyticJacobian. simpl.
    split_and!; [done..|]. by destruct chk.
Qed.

(** X25. What [configure] leaves for the residual and the Jacobians.  For
    every model that [configure] returns: [_jac] and [_jacFact] both have
    [numPureDofs()] rows and columns; the flag [_factorizeJac] is as it was
    and the flow-rate filter in force is [0.0].  With [nComp] plus the total
    of the bound-state counts plus one fitting into 32 bits,
    [numPureDofs()] is [nComp + strideBound + 1], every component has a
    bound-state count and an offset, and its bound states lie inside the
    block of [strideBound] bound states. *)
Theorem configure_prepares_jacobians chk m0 m pp helper ok :
  configure chk m0 pp helper = Returns (m, ok) →
  DenseMatrix.rows (_jac m) = numPureDofs m ∧
  DenseMatrix.columns (_jac m) = numPureDofs m ∧
  DenseMatrix.rows (_jacFact m) = numPureDofs m ∧
  DenseMatrix.columns (_jacFact m) = numPureDofs m ∧
  _factorizeJac m = _factorizeJac m0 ∧
  _curFlowRateFilter m = szero ∧
  ((_nComp m + sumN (_nBound m) + 1 < 2 ^ 32)%N →
   numPureDofs m = (_nComp m + _strideBound m + 1)%N ∧
   bound_layout m ∧
   length (_nBound m) = N.to_nat (_nComp m) ∧
   length (_boundOffset m) = N.to_nat (_nComp m)).
Proof.
  intros Hc.
  destruct (configure_members _ _ _ _ _ _ Hc)
    as (Hjac & HjacFact & Hflag & Hcur & _).
  apply configure_Returns in Hc.
  apply configure_discretization_Some
    in Hc as (_ & HnC & Hnb & Hbo & Hpre & HsB & _).
  split_and!; [by rewrite Hjac|by rewrite Hjac|by rewrite HjacFact
              |by rewrite HjacFact|done|done|].
  intros Hfit.
  assert (_strideBound m = sumN (_nBound m)) as Hstride
    by (rewrite HsB; apply u32_small; lia).
  split_and!; [|  |done|done].
  - rewrite numPureDofs_u32. apply u32_small. lia.
  - intros i Hi.
    destruct (lookup_lt_is_Some_2 (_nBound m) i) as [nb Hnbi]; [lia|].
    exists (u32 (sumN (take i (_nBound m)))), nb.
    split_and!; [by apply Hpre|done|].
    pose proof (sumN_take_le (_nBound m) (S i)) as Hle.
    rewrite (take_S_r _ _ _ Hnbi), sumN_app in Hle. simpl in Hle.
    rewrite u32_small by lia. lia.
Qed.

(** X26. The choice between the analytic and the AD Jacobian.  For every
    model that [configure] returns: in a build with
    [CADET_CHECK_ANALYTIC_JACOBIAN] AD is always used; otherwise AD is used
    exactly when [USE_ANALYTIC_JACOBIAN] is present and false.  The same
    holds after a later [useAnalyticJacobian]: with the build switch it has
    no effect, [usesAD] stays true. *)
Theorem configure_usesAD chk m0 m pp helper ok :
  configure chk m0 pp helper = Returns (m, ok) →
  usesAD chk m
  = (chk || (exists_ pp "USE_ANALYTIC_JACOBIAN"
             && negb (getBool pp "USE_ANALYTIC_JACOBIAN")))%bool ∧
  ∀ b, usesAD chk (useAnalyticJacobian chk m b) = (chk || negb b)%bool.
Proof.
  intros Hc.
  destruct (configure_members _ _ _ _ _ _ Hc) as (_ & _ & _ & _ & Hana).
  split.
  - unfold usesAD. rewrite Hana. destruct chk; [done|]. simpl.
    by destruct (exists_ pp "USE_ANALYTIC_JACOBIAN").
  - intros b. unfold usesAD, useAnalyticJacobian. by destruct chk.
Qed.

End ConfigureMore.

Lemma configure_prepares_jacobians_witness :
  ∃ m ok,
    CSTRModel.configure false (CSTRModel.create 0) pp_two_components
      none_helper = Returns (m, ok) ∧
    DenseMatrix.rows (CSTRModel._jac m) = 6%N ∧
    DenseMatrix.columns (CSTRModel._jacFact m) = 6%N ∧
    bound_layout m ∧
    length (CSTRModel._nBound m) = 2.
Proof.
  destruct (CSTRModel.configure false (CSTRModel.create 0) pp_two_components
              none_helper) as [[m ok]| |] eqn:Hc;
    [|exfalso; vm_compute in Hc; discriminate..].
  assert (Hrun := Hc). vm_compute in Hrun. injection Hrun as Hm _.
  destruct (configure_prepares_jacobians _ _ _ _ _ _ Hc)
    as (Hrows & _ & _ & Hcols & _ & _ & Hfits).
  destruct Hfits as (_ & Hlay & Hlen & _).
  - rewrite <- Hm. vm_compute. reflexivity.
  - exists m, ok. split; [reflexivity|].
    split_and!; [| |exact Hlay|].
    + rewrite Hrows. rewrite <- Hm. reflexivity.
    + rewrite Hcols. rewrite <- Hm. reflexivity.
    + rewrite Hlen. rewrite <- Hm. reflexivity.
Defined.

Lemma configure_usesAD_witness :
  ∃ m ok,
    CSTRModel.configure true (CSTRModel.create 0) pp_tank none_helper
    = Returns (m, ok) ∧
    CSTRModel.usesAD true m = true ∧
    CSTRModel.usesAD true (CSTRModel.useAnalyticJacobian true m true) = true.
Proof.
  destruct (CSTRModel.configure true (CSTRModel.create 0) pp_tank none_helper)
    as [[m ok]| |] eqn:Hc;
    [|exfalso; vm_compute in Hc; discriminate..].
  destruct (configure_usesAD _ _ _ _ _ _ Hc) as [Huses Hafter].
  exists m, ok. split; [reflexivity|]. split; [exact Huses|exact (Hafter true)].
Defined.

(** ** [applyInitialCondition] *)

Section ApplyInitialCondition.
Context {R : Type} `{Scalar R}.
Import CSTRModel.
Implicit Types (m : CSTRModel.t R) (pp : IParameterProvider R)
  (y yDot : list R).

Lemma copy_n_lookup (src : list R) n (dst : list R) off :
  n ≤ length src → off + n ≤ length dst →
  ∃ r, copy_n src n dst off = Some r ∧ length r = length dst ∧
       ∀ k, r !! k = if decide (off ≤ k < off + n) then src !! (k - off)
                     else dst !! k.
Proof.
  intros Hsrc Hdst. unfold copy_n. rewrite decide_True by done.
  eexists. split; [done|]. split.
  - rewrite !length_app, !length_take, length_drop. lia.
  - intros k. case_decide as Hk.
    + rewrite lookup_app_r by (rewrite length_take; lia).
      rewrite length_take, lookup_app_l by (rewrite length_take; lia).
      rewrite lookup_take_lt by lia. f_equal. lia.
    + destruct (decide (k < off)).
      * rewrite lookup_app_l by (rewrite length_take; lia).
        by rewrite lookup_take_lt by lia.
      * rewrite lookup_app_r by (rewrite length_take; lia).
        rewrite length_take, lookup_app_r by (rewrite length_take; lia).
        rewrite length_take, lookup_drop. f_equal. lia.
Qed.

(** X27. [applyInitialCondition] without [INIT_STATE], for a state that fits
    into 32 bits, a state vector that holds it, an [INIT_C] with a value for
    every component and, when [INIT_Q] is present, a value in it for every
    bound state: the call returns and leaves [vecStateYdot] and the size of
    [vecStateY] as they are; the tank concentrations are the values of
    [INIT_C], the bound states those of [INIT_Q] or [0.0] without it, the
    volume is [INIT_VOLUME] or [0.0] without it; the inlet entries and the
    entries behind the state are not written. *)
Theorem applyInitialCondition_INIT_C m pp y yDot :
  exists_ pp "INIT_STATE" = false →
  (2 * _nComp m + _strideBound m < 2 ^ 32)%N →
  N.to_nat (_nComp m) ≤ length (getDoubleArray pp "INIT_C") →
  (exists_ pp "INIT_Q" = true →
   N.to_nat (_strideBound m) ≤ length (getDoubleArray pp "INIT_Q")) →
  2 * N.to_nat (_nComp m) + N.to_nat (_strideBound m) < length y →
  ∃ y',
    applyInitialCondition m pp y yDot = Returns (y', yDot) ∧
    length y' = length y ∧
    (∀ k, k < N.to_nat (_nComp m) → y' !! k = y !! k) ∧
    (∀ i, i < N.to_nat (_nComp m) →
       y' !! (N.to_nat (_nComp m) + i) = getDoubleArray pp "INIT_C" !! i) ∧
    (∀ j, j < N.to_nat (_strideBound m) →
       y' !! (2 * N.to_nat (_nComp m) + j)
       = if exists_ pp "INIT_Q" then getDoubleArray pp "INIT_Q" !! j
         else Some szero) ∧
    y' !! (2 * N.to_nat (_nComp m) + N.to_nat (_strideBound m))
    = Some (if exists_ pp "INIT_VOLUME" then getDouble pp "INIT_VOLUME"
            else szero) ∧
    (∀ k, 2 * N.to_nat (_nComp m) + N.to_nat (_strideBound m) < k →
       y' !! k = y !! k).
Proof.
  intros Hstate Hfit HinitC HinitQ Hy.
  destruct (volume_index_small m Hfit) as [HidxV Hidx2].
  unfold applyInitialCondition. rewrite Hstate.
  rewrite decide_False by lia.
  destruct (copy_n_lookup (getDoubleArray pp "INIT_C") (N.to_nat (_nComp m))
              y (N.to_nat (_nComp m)))
    as (y1 & -> & Hl1 & Hent1); [done|lia|].
  simpl. rewrite Hidx2.
  assert (∃ y2,
    (if exists_ pp "INIT_Q"
     then copy_n (getDoubleArray pp "INIT_Q") (N.to_nat (_strideBound m)) y1
            (2 * N.to_nat (_nComp m))
     else fill_n y1 (2 * N.to_nat (_nComp m)) (N.to_nat (_strideBound m))
            szero) = Some y2 ∧
    length y2 = length y1 ∧
    ∀ k, y2 !! k
         = if decide (2 * N.to_nat (_nComp m) ≤ k
                      < 2 * N.to_nat (_nComp m) + N.to_nat (_strideBound m))
           then (if exists_ pp "INIT_Q"
                 then getDoubleArray pp "INIT_Q"
                      !! (k - 2 * N.to_nat (_nComp m))
                 else Some szero)
           else y1 !! k) as (y2 & -> & Hl2 & Hent2).
  { destruct (exists_ pp "INIT_Q").
    - apply copy_n_lookup; [by apply HinitQ|lia].
    - unfold fill_n. rewrite decide_True by lia. eexists. split; [done|].
      split.
      + rewrite !length_app, length_take, length_replicate, length_drop. lia.
      + intros k.
        destruct (fill_n_lookup y1 (2 * N.to_nat (_nComp m))
                    (N.to_nat (_strideBound m)) szero k)
          as (l' & Hrun & _ & Hk); [lia|].
        unfold fill_n in Hrun. rewrite decide_True in Hrun by lia.
        injection Hrun as <-. exact Hk. }
  simpl. unfold wrN. rewrite HidxV, wr_lt by lia. simpl.
  eexists. split; [done|]. split_and!.
  - rewrite length_insert. lia.
  - intros k Hk. rewrite list_lookup_insert_ne by lia.
    rewrite Hent2, decide_False by lia. by rewrite Hent1, decide_False by lia.
  - intros i Hi. rewrite list_lookup_insert_ne by lia.
    rewrite Hent2, decide_False by lia. rewrite Hent1, decide_True by lia.
    f_equal. lia.
  - intros j Hj. rewrite list_lookup_insert_ne by lia.
    rewrite Hent2, decide_True by lia.
    destruct (exists_ pp "INIT_Q"); [|done]. f_equal. lia.
  - by rewrite list_lookup_insert_eq by lia.
  - intros k Hk. rewrite list_lookup_insert_ne by lia.
    rewrite Hent2, decide_False by lia. by rewrite Hent1, decide_False by lia.
Qed.

(** X28. [applyInitialCondition] with [INIT_STATE], for a state of
    [n = numDofs()] entries with [2 * n] fitting into 32 bits and a state
    vector that holds it.  With fewer than [n] values in [INIT_STATE] the
    copy reads past the end of the array: undefined behaviour.  With at
    least [n] but fewer than [2 * n] values the state is copied and
    [vecStateYdot] is left as it is.  With [2 * n] values or more, and a
    derivative vector that holds the state, the second [n] values are copied
    to [vecStateYdot] as well.  [INIT_C], [INIT_Q] and [INIT_VOLUME] are not
    looked at. *)
Theorem applyInitialCondition_INIT_STATE m pp y yDot :
  exists_ pp "INIT_STATE" = true →
  (2 * numDofs m < 2 ^ 32)%N →
  N.to_nat (numDofs m) ≤ length y →
  let n := N.to_nat (numDofs m) in
  let s := getDoubleArray pp "INIT_STATE" in
  (length s < n → applyInitialCondition m pp y yDot = Undefined) ∧
  (n ≤ length s < 2 * n →
   applyInitialCondition m pp y yDot
   = Returns (take n s ++ drop n y, yDot)) ∧
  (2 * n ≤ length s → n ≤ length yDot →
   applyInitialCondition m pp y yDot
   = Returns (take n s ++ drop n y, take n (drop n s) ++ drop n yDot)).
Proof.
  intros Hstate Hfit Hy n s. subst n s.
  assert (N.to_nat (umul 2 (numDofs m)) = 2 * N.to_nat (numDofs m)) as Hmul.
  { unfold umul. rewrite u32_small by lia. lia. }
  unfold applyInitialCondition. rewrite Hstate, Hmul.
  unfold copy_n. cbn [mbind]. split_and!.
  - intros Hshort. repeat case_decide; first [lia | done].
  - intros Hmid. repeat case_decide; first [lia | done].
  - intros Hfull HyDot. rewrite length_drop.
    repeat case_decide; first [lia | done].
Qed.

End ApplyInitialCondition.

Lemma applyInitialCondition_INIT_C_witness :
  ∃ y',
    CSTRModel.applyInitialCondition
      (configured pp_tank_bound (Qc_of_Z 13) (Qc_of_Z 19))
      (provider [] [] [] [("INIT_VOLUME", Qc_of_Z 2)]
         [("INIT_C", [Qc_of_Z 11]); ("INIT_Q", [Qc_of_Z 23])] [])
      [Qc_of_Z 1; Qc_of_Z 1; Qc_of_Z 1; Qc_of_Z 1; Qc_of_Z 1]
      [Qc_of_Z 3; Qc_of_Z 3; Qc_of_Z 3; Qc_of_Z 3]
    = Returns (y', [Qc_of_Z 3; Qc_of_Z 3; Qc_of_Z 3; Qc_of_Z 3]) ∧
    y' !! 0 = Some (Qc_of_Z 1) ∧ y' !! 1 = Some (Qc_of_Z 11) ∧
    y' !! 2 = Some (Qc_of_Z 23) ∧ y' !! 3 = Some (Qc_of_Z 2) ∧
    y' !! 4 = Some (Qc_of_Z 1).
Proof.
  destruct (applyInitialCondition_INIT_C
              (configured pp_tank_bound (Qc_of_Z 13) (Qc_of_Z 19))
              (provider [] [] [] [("INIT_VOLUME", Qc_of_Z 2)]
                 [("INIT_C", [Qc_of_Z 11]); ("INIT_Q", [Qc_of_Z 23])] [])
              [Qc_of_Z 1; Qc_of_Z 1; Qc_of_Z 1; Qc_of_Z 1; Qc_of_Z 1]
              [Qc_of_Z 3; Qc_of_Z 3; Qc_of_Z 3; Qc_of_Z 3])
    as (y' & Hrun & _ & Hinlet & Htank & Hbound & Hvol & Hrest).
  - reflexivity.
  - vm_compute. reflexivity.
  - vm_compute. lia.
  - intros _. vm_compute. lia.
  - vm_compute. lia.
  - exists y'. split; [exact Hrun|]. split_and!.
    + apply (Hinlet 0). vm_compute. lia.
    + apply (Htank 0). vm_compute. lia.
    + apply (Hbound 0). vm_compute. lia.
    + exact Hvol.
    + apply (Hrest 4). vm_compute. lia.
Defined.

Lemma applyInitialCondition_INIT_STATE_witness :
  CSTRModel.applyInitialCondition
    (configured pp_init_state (Qc_of_Z 13) (Qc_of_Z 19)) pp_init_state
    [Qc_of_Z 0; Qc_of_Z 0; Qc_of_Z 0; Qc_of_Z 9]
    [Qc_of_Z 5; Qc_of_Z 5; Qc_of_Z 5]
  = Returns ([Qc_of_Z 1; Qc_of_Z 2; Qc_of_Z 3; Qc_of_Z 9],
             [Qc_of_Z 5; Qc_of_Z 5; Qc_of_Z 5]).
Proof.
  destruct (applyInitialCondition_INIT_STATE
              (configured pp_init_state (Qc_of_Z 13) (Qc_of_Z 19))
              pp_init_state
              [Qc_of_Z 0; Qc_of_Z 0; Qc_of_Z 0; Qc_of_Z 9]
              [Qc_of_Z 5; Qc_of_Z 5; Qc_of_Z 5])
    as (_ & Hmid & _).
  - reflexivity.
  - vm_compute. reflexivity.
  - vm_compute. lia.
  - apply Hmid. vm_compute. lia.
Defined.

(** ** SparseMatrix: [resize] *)

Section SparseMatrixResize.
Context {R : Type} `{Scalar R}.
Import SparseMatrix.
Implicit Types (m : SparseMatrix.t R) (es : list (nat * nat * R)).

(** X29. [resize(nnz)], and with it the constructor [SparseMatrix(nnz)],
    gives an empty matrix of capacity [nnz] that satisfies the class
    invariant: it stores no triple, reading any position gives [0.0], the
    three products return and leave [out] as it is, a sequence of at most
    [nnz] calls of [addElement] succeeds and stores exactly its triples, in
    order, and a longer sequence fails. *)
Theorem resize_gives_empty_matrix nnz :
  wf (resize nnz : SparseMatrix.t R) ∧
  capacity (resize nnz : SparseMatrix.t R) = nnz ∧
  numNonZero (resize nnz : SparseMatrix.t R) = 0 ∧
  entries (resize nnz : SparseMatrix.t R) = [] ∧
  (∀ row col, get (resize nnz) row col = Some szero) ∧
  (∀ x alpha beta out,
     multiplyVector (resize nnz) x alpha beta out = Some out ∧
     multiplyAdd (resize nnz) x out = Some out ∧
     multiplySubtract (resize nnz) x out = Some out) ∧
  (∀ es, length es ≤ nnz →
     ∃ m', addElements (resize nnz) es = Some m' ∧ wf m' ∧ entries m' = es ∧
           capacity m' = nnz) ∧
  (∀ es, nnz < length es → addElements (resize nnz) es = None).
Proof.
  pose proof (wf_resize (R := R) nnz) as Hwf.
  assert (capacity (resize nnz : SparseMatrix.t R) = nnz) as Hcap
    by (unfold capacity; simpl; apply length_replicate).
  split_and!; [done|done|done|done|done|done| |].
  - intros es Hlen.
    destruct (addElements_entries es (resize nnz) Hwf)
      as (m' & Hrun & Hwf' & Hes); [simpl; lia|].
    exists m'. split_and!; [done..|].
    by rewrite (addElements_capacity es (resize nnz) m' Hwf Hrun).
  - intros es Hlen. apply addElements_overflow; [done|]. simpl. lia.
Qed.

End SparseMatrixResize.

(** ** [configure]: when it is defined *)

Section ConfigureDefined.
Context {R : Type} `{Scalar R}.
Import CSTRModel.
Implicit Types (m : CSTRModel.t R) (pp : IParameterProvider R).

Lemma configure_discretization_None pp :
  configure_discretization pp = None ↔
  u32_of_int (getInt pp "NCOMP") = 0%N
  ∨ (exists_ pp "NBOUND" = true
     ∧ length (getIntArray pp "NBOUND")
       ≠ N.to_nat (u32_of_int (getInt pp "NCOMP"))).
Proof.
  split.
  - intros Hnone.
    destruct (decide (u32_of_int (getInt pp "NCOMP") = 0%N)) as [|Hpos];
      [by left|].
    destruct (exists_ pp "NBOUND") eqn:Hex.
    + destruct (decide (length (getIntArray pp "NBOUND")
                        = N.to_nat (u32_of_int (getInt pp "NCOMP"))))
        as [Hlen|Hlen]; [|by right].
      destruct (configure_discretization_defined pp) as [r Hr];
        [lia|done|congruence].
    + destruct (configure_discretization_defined pp) as [r Hr];
        [lia|by rewrite Hex|congruence].
  - unfold configure_discretization. intros [Hzero|[Hex Hlen]].
    + rewrite Hzero. simpl.
      destruct (if exists_ pp "NBOUND" then _ else _); done.
    + rewrite Hex. by rewrite decide_False by done.
Qed.

(** X30. When [configure] is defined.  The call runs into undefined
    behaviour exactly when [NCOMP] is zero as an [unsigned int] (the write
    [_boundOffset[0] = 0] is outside of the empty array) or [NBOUND] is
    present with a number of values other than [NCOMP] ([std::copy] writes
    past [_nBound], or slots of it are read that were never written).
    Otherwise it returns or throws, whatever the provider and the factory
    hold. *)
Theorem configure_defined_iff chk m0 pp (helper : IConfigHelper R) :
  configure chk m0 pp helper = Undefined ↔
  u32_of_int (getInt pp "NCOMP") = 0%N
  ∨ (exists_ pp "NBOUND" = true
     ∧ length (getIntArray pp "NBOUND")
       ≠ N.to_nat (u32_of_int (getInt pp "NCOMP"))).
Proof.
  rewrite <- configure_discretization_None. unfold configure.
  destruct (configure_discretization pp) as [[[[nC nb] bo] sB]|]; [|done].
  simpl. split; [|done].
  destruct (exists_ pp "ADSORPTION_MODEL"); [|done].
  by destruct (createBindingModel _ _).
Qed.

End ConfigureDefined.
